(** * KeyStorage: credential-bound key storage (system/vold, KeyStorage.cpp)

    A shallow embedding of [KeyStorage.cpp].  Byte strings ([std::string])
    are lists of [ascii]; every call that leaves the translation unit
    (libc, android-base, OpenSSL, scrypt, the Keymaster client) goes through
    the [Platform] interface and is recorded as an [Event], so that the
    order of the calls a function makes can be stated and proved.  Log
    statements ([LOG], [PLOG]) have no effect on results and are left out. *)

From Stdlib Require Import ZArith Ascii String List Lia.
From stdpp Require Import base option list strings gmap.

Set Default Proof Using "Type".

(** ** Byte strings *)

Abbreviation bytes := (list ascii).

Definition lit (s : string) : bytes := list_ascii_of_string s.

Definition NUL : ascii := "000"%char.

(** [std::string::resize(n)]: truncate, or pad with NUL characters. *)
Definition resize (n : nat) (s : bytes) : bytes :=
  take n s ++ replicate (n - length s) NUL.

(** [std::string::assign(n, c)] and the [std::string(n, c)] constructor. *)
Definition assign (n : nat) (c : ascii) : bytes := replicate n c.

(** [std::string::substr(pos, len)]: [None] stands for the
    [std::out_of_range] it raises when [pos > size()]. *)
Definition substr (s : bytes) (pos : nat) (len : option nat) : option bytes :=
  if decide (pos ≤ length s)
  then Some (match len with
             | Some n => take n (drop pos s)
             | None => drop pos s
             end)
  else None.

(** [std::string::c_str()] as seen by a C callee: the bytes before the
    first NUL. *)
Fixpoint c_str (s : bytes) : bytes :=
  match s with
  | [] => []
  | c :: s' => if Ascii.eqb c NUL then [] else c :: c_str s'
  end.

(** A callee that is handed [&buf[0] + off] and writes [data] there. *)
Definition poke (buf : bytes) (off : nat) (data : bytes) : bytes :=
  take off buf ++ data ++ drop (off + length data) buf.

(** [static_cast<int>] of a [size_t]: wrap-around to 32-bit two's
    complement. *)
Definition static_cast_int (n : nat) : Z :=
  ((Z.of_nat n + 2 ^ 31) mod 2 ^ 32 - 2 ^ 31)%Z.

(** [1 << n] on [int]: 32-bit two's complement, so that [1 << 31] is
    [INT_MIN].  The source leaves shift counts outside 0..31 undefined; the
    model has the bit shifted out of the word there. *)
Definition shl_int (n : Z) : Z :=
  ((Z.shiftl 1 n + 2 ^ 31) mod 2 ^ 32 - 2 ^ 31)%Z.

(** An [int] argument passed for a [uint64_t] or a [uint32_t] parameter. *)
Definition to_uint64 (x : Z) : Z := (x mod 2 ^ 64)%Z.
Definition to_uint32 (x : Z) : Z := (x mod 2 ^ 32)%Z.

(** What dereferencing [s.begin() + i] touches.  A [std::string] keeps a
    NUL terminator directly behind its last character, so position
    [size()] is readable storage although it is not a character of the
    string; anything further is outside the buffer. *)
Inductive Slot :=
| InString (c : ascii)
| Terminator
| Beyond.

Definition slot (s : bytes) (i : nat) : Slot :=
  match s !! i with
  | Some c => InString c
  | None => if decide (i = length s) then Terminator else Beyond
  end.

Definition deref (s : bytes) (i : nat) : option ascii :=
  match slot s i with
  | InString c => Some c
  | Terminator => Some NUL
  | Beyond => None
  end.

(** The three-iterator [std::equal(first1, last1, first2)]: it walks the
    first range and dereferences the second one position by position with
    no knowledge of where the second range ends.  The run returns the
    positions of the second range it dereferenced, and the verdict ([None]
    when a position outside the buffer was dereferenced). *)
Fixpoint std_equal_run (r1 : bytes) (s : bytes) (i : nat)
  : list nat * option bool :=
  match r1 with
  | [] => ([], Some true)
  | c :: r1' =>
      match deref s i with
      | None => ([i], None)
      | Some d =>
          if Ascii.eqb c d
          then let '(reads, v) := std_equal_run r1' s (S i) in (i :: reads, v)
          else ([i], Some false)
      end
  end.

Definition std_equal (r1 s : bytes) : option bool := snd (std_equal_run r1 s 0).
Definition std_equal_reads (r1 s : bytes) : list nat := fst (std_equal_run r1 s 0).

(** ** Constants of the translation unit *)

Definition AES_KEY_BYTES : nat := 32.
Definition GCM_NONCE_BYTES : nat := 12.
Definition GCM_MAC_BYTES : nat := 16.
Definition SALT_BYTES : nat := Nat.shiftl 1 4.
Definition SECDISCARDABLE_BYTES : nat := Nat.shiftl 1 14.
Definition STRETCHED_BYTES : nat := Nat.shiftl 1 6.
Definition SHA512_CBLOCK : nat := 128.

Definition AUTH_TIMEOUT : Z := 30.

Definition kCurrentVersion : bytes := lit "1".
Definition kRmPath : bytes := lit "/system/bin/rm".
Definition kSecdiscardPath : bytes := lit "/system/bin/secdiscard".
Definition kStretch_none : bytes := lit "none".
Definition kStretch_nopassword : bytes := lit "nopassword".
Definition kStretchPrefix_scrypt : bytes := lit "scrypt ".
Definition kHashPrefix_secdiscardable : bytes := lit "Android secdiscardable SHA512".
Definition kHashPrefix_keygen : bytes := lit "Android key wrapping key generation SHA512".
Definition kFn_encrypted_key : bytes := lit "encrypted_key".
Definition kFn_keymaster_key_blob : bytes := lit "keymaster_key_blob".
Definition kFn_keymaster_key_blob_upgraded : bytes := lit "keymaster_key_blob_upgraded".
Definition kFn_salt : bytes := lit "salt".
Definition kFn_secdiscardable : bytes := lit "secdiscardable".
Definition kFn_stretching : bytes := lit "stretching".
Definition kFn_version : bytes := lit "version".

(** [dir + "/" + name] *)
Definition path (dir name : bytes) : bytes := dir ++ lit "/" ++ name.

(** ** Credentials and Keymaster parameters *)

Record KeyAuthentication := { token : bytes; secret : bytes }.

Definition kEmptyAuthentication : KeyAuthentication :=
  {| token := []; secret := [] |}.

Inductive KeyPurpose := ENCRYPT | DECRYPT.

Inductive ErrorCode := OK | KEY_REQUIRES_UPGRADE | OtherError (code : Z).

Inductive Tag :=
| TAG_ALGORITHM | TAG_KEY_SIZE | TAG_PURPOSE | TAG_BLOCK_MODE
| TAG_MIN_MAC_LENGTH | TAG_MAC_LENGTH | TAG_PADDING | TAG_APPLICATION_ID
| TAG_NO_AUTH_REQUIRED | TAG_USER_SECURE_ID | TAG_USER_AUTH_TYPE
| TAG_AUTH_TIMEOUT | TAG_AUTH_TOKEN | TAG_NONCE.

Inductive TagValue :=
| V_flag
| V_uint (n : Z)
| V_blob (b : bytes)
| V_AES
| V_GCM
| V_PaddingNONE
| V_purpose (p : KeyPurpose)
| V_PASSWORD.

Definition KeyParameter : Type := Tag * TagValue.
Abbreviation AuthorizationSet := (list KeyParameter).

Global Instance ErrorCode_eq_dec : EqDecision ErrorCode.
Proof. solve_decision. Defined.
Global Instance KeyPurpose_eq_dec : EqDecision KeyPurpose.
Proof. solve_decision. Defined.
Global Instance Tag_eq_dec : EqDecision Tag.
Proof. solve_decision. Defined.

(** [AuthorizationSetBuilder::Authorization(tag, value)] appends one entry. *)
Definition Authorization (t : Tag) (v : TagValue) (b : AuthorizationSet)
  : AuthorizationSet := b ++ [(t, v)].

(** [AuthorizationSetBuilder::AesEncryptionKey(bits)] of the keystore
    support library: an AES key of the given size, usable for encryption
    and decryption. *)
Definition AesEncryptionKey (bits : Z) (b : AuthorizationSet) : AuthorizationSet :=
  Authorization TAG_PURPOSE (V_purpose DECRYPT)
    (Authorization TAG_PURPOSE (V_purpose ENCRYPT)
       (Authorization TAG_KEY_SIZE (V_uint bits)
          (Authorization TAG_ALGORITHM V_AES b))).

(** [AuthorizationSet::GetTagValue(TAG_NONCE)]: the first blob stored
    under the tag, if any ([NullOr]). *)
Fixpoint GetTagValue (t : Tag) (s : AuthorizationSet) : option bytes :=
  match s with
  | [] => None
  | (t', v) :: s' =>
      if decide (t' = t)
      then match v with V_blob b => Some b | _ => GetTagValue t s' end
      else GetTagValue t s'
  end.

Inductive EvpCtrl := EVP_CTRL_GCM_GET_TAG | EVP_CTRL_GCM_SET_TAG.

(** ** The platform: everything [KeyStorage.cpp] calls but does not define

    Three independent pieces of mutable state stand behind the calls: the
    file system ([FS]), the Keymaster service with its open operations
    ([KM]) and the process environment ([OS]: entropy pool, allocator,
    system properties).  Functions of OpenSSL and scrypt that only work on
    their arguments are pure.  A callee that fills a caller-supplied buffer
    returns the bytes it wrote. *)
Class Platform := {
  FS : Type;
  KM : Type;
  OS : Type;
  EVP_CIPHER_CTX : Type;
  KeymasterOperation : Type;

  (* KeyStorage.h: the policy part of KeyAuthentication::usesKeymaster *)
  hardwareBoundPolicy : KeyAuthentication → bool;
  (* hardware/hw_auth_token.h *)
  sizeof_hw_auth_token_t : nat;
  hw_auth_token_user_id : bytes → Z;
  (* ScryptParameters.h *)
  SCRYPT_PROP : bytes;
  SCRYPT_DEFAULTS : bytes;
  parse_scrypt_parameters : bytes → option (Z * Z * Z);
  (* crypto_scrypt.h: [uint64_t N], [uint32_t r], [uint32_t p]; return code
     and the contents written to the buffer *)
  crypto_scrypt : bytes → bytes → Z → Z → Z → nat → Z * bytes;
  (* libc, android-base/file.h, Utils.h, cutils/properties.h *)
  mkdir : bytes → FS → Z * FS;
  ReadFileToString : bytes → FS → option bytes;
  WriteStringToFile : bytes → bytes → FS → bool * FS;
  rename : bytes → bytes → FS → Z * FS;
  ForkExecvp : list bytes → FS → Z * FS;
  ReadRandomBytes : nat → OS → Z * bytes * OS;
  property_get : bytes → bytes → OS → bytes;
  (* openssl/sha.h, openssl/evp.h *)
  SHA512 : bytes → bytes;
  EVP_CIPHER_CTX_new : OS → option EVP_CIPHER_CTX * OS;
  EVP_EncryptInit_ex : EVP_CIPHER_CTX → bytes → bytes → Z * EVP_CIPHER_CTX;
  EVP_EncryptUpdate : EVP_CIPHER_CTX → bytes → Z * bytes * EVP_CIPHER_CTX;
  EVP_EncryptFinal_ex : EVP_CIPHER_CTX → Z * bytes * EVP_CIPHER_CTX;
  EVP_DecryptInit_ex : EVP_CIPHER_CTX → bytes → bytes → Z * EVP_CIPHER_CTX;
  EVP_DecryptUpdate : EVP_CIPHER_CTX → bytes → Z * bytes * EVP_CIPHER_CTX;
  EVP_DecryptFinal_ex : EVP_CIPHER_CTX → Z * bytes * EVP_CIPHER_CTX;
  EVP_CIPHER_CTX_ctrl :
    EVP_CIPHER_CTX → EvpCtrl → nat → bytes → Z * bytes * EVP_CIPHER_CTX;
  (* Keymaster.h *)
  Keymaster_bool : KM → bool;
  Keymaster_generateKey : AuthorizationSet → KM → option bytes * KM;
  Keymaster_begin :
    KeyPurpose → bytes → AuthorizationSet → option AuthorizationSet → KM →
    KeymasterOperation * option AuthorizationSet * KM;
  Keymaster_upgradeKey : bytes → AuthorizationSet → KM → option bytes * KM;
  Keymaster_deleteKey : bytes → KM → bool * KM;
  KeymasterOperation_default : KeymasterOperation;
  op_bool : KeymasterOperation → bool;
  errorCode : KeymasterOperation → ErrorCode;
  updateCompletely : KeymasterOperation → bytes → KM → bool * bytes * KM;
  finish : KeymasterOperation → bool → KM → bool * bytes * KM;
}.

(** ** Observable calls *)

Inductive EvpCall :=
| Evp_CTX_new
| Evp_EncryptInit (key iv : bytes)
| Evp_EncryptUpdate (input : bytes)
| Evp_EncryptFinal
| Evp_DecryptInit (key iv : bytes)
| Evp_DecryptUpdate (input : bytes)
| Evp_DecryptFinal
| Evp_ctrl (cmd : EvpCtrl).

Inductive KmCall :=
| Km_connect (ok : bool)
| Km_generateKey (params : AuthorizationSet) (blob : option bytes)
| Km_begin (purpose : KeyPurpose) (key : bytes) (inParams : AuthorizationSet)
    (valid : bool) (err : ErrorCode)
| Km_updateCompletely (input : bytes) (ok : bool)
| Km_finish (ok : bool)
| Km_upgradeKey (key : bytes) (params : AuthorizationSet) (blob : option bytes)
| Km_deleteKey (key : bytes) (ok : bool).

Inductive Event :=
| E_mkdir (dir : bytes) (ret : Z)
| E_ReadFileToString (filename : bytes) (content : option bytes)
| E_WriteStringToFile (payload filename : bytes) (ok : bool)
| E_rename (from to : bytes) (ret : Z)
| E_ForkExecvp (argv : list bytes) (ret : Z)
| E_ReadRandomBytes (count : nat) (status : Z)
| E_property_get (key : bytes)
| E_SHA512 (input : bytes)
| E_parse_scrypt_parameters (params : bytes)
| E_crypto_scrypt (passwd salt : bytes) (N r p : Z) (ret : Z)
| E_EVP (call : EvpCall) (ret : Z)
| E_Keymaster (call : KmCall).

(** The calls that do cryptographic work: hashing for the appId or the
    wrapping key, stretching, the software cipher, and every use of the
    hardware service. *)
Definition is_crypto (e : Event) : bool :=
  match e with
  | E_SHA512 _ | E_parse_scrypt_parameters _ | E_crypto_scrypt _ _ _ _ _ _
  | E_EVP _ _ | E_Keymaster _ => true
  | _ => false
  end.

Section KeyStorage.
Context `{Platform}.

Record World := { w_fs : FS; w_km : KM; w_os : OS }.

(** A computation either returns, with the new state of the world and the
    calls it made; or the process is aborted by an uncaught
    [std::out_of_range]; or the fuel given to an unbounded loop ran out. *)
Inductive Outcome (A : Type) :=
| Returns (a : A) (w : World) (tr : list Event)
| Aborts
| OutOfFuel.
Arguments Returns {A}.
Arguments Aborts {A}.
Arguments OutOfFuel {A}.

Definition M (A : Type) : Type := World → Outcome A.

Global Instance M_ret : MRet M := λ A a w, Returns a w [].

Global Instance M_bind : MBind M := λ A B k m w,
  match m w with
  | Returns a w1 t1 =>
      match k a w1 with
      | Returns b w2 t2 => Returns b w2 (t1 ++ t2)
      | Aborts => Aborts
      | OutOfFuel => OutOfFuel
      end
  | Aborts => Aborts
  | OutOfFuel => OutOfFuel
  end.

Definition throw_out_of_range {A} : M A := λ _, Aborts.

(** A pure library call: only the fact that it was made is recorded. *)
Definition call {A} (a : A) (ev : A → Event) : M A := λ w, Returns a w [ev a].

Definition on_fs {A} (op : FS → A * FS) (ev : A → Event) : M A := λ w,
  let '(a, s) := op (w_fs w) in
  Returns a {| w_fs := s; w_km := w_km w; w_os := w_os w |} [ev a].

Definition on_km {A} (op : KM → A * KM) (ev : A → Event) : M A := λ w,
  let '(a, s) := op (w_km w) in
  Returns a {| w_fs := w_fs w; w_km := s; w_os := w_os w |} [ev a].

Definition on_os {A} (op : OS → A * OS) (ev : A → Event) : M A := λ w,
  let '(a, s) := op (w_os w) in
  Returns a {| w_fs := w_fs w; w_km := w_km w; w_os := s |} [ev a].

(** [for (;;) { ... }]: the body either goes round again with a new loop
    state or leaves the loop with a result. *)
Fixpoint for_ever {S R} (fuel : nat) (body : S → M (S + R)) (s : S) : M R :=
  match fuel with
  | O => λ _, OutOfFuel
  | Datatypes.S fuel' =>
      r ← body s;
      match r with
      | inl s' => for_ever fuel' body s'
      | inr x => mret x
      end
  end.

(** Modelled from the spec: [KeyAuthentication::usesKeymaster()], declared
    in KeyStorage.h, which is not part of the sources; the predicate is true
    iff the token is non-empty or policy dictates hardware-bound storage
    even without a token. *)
Definition usesKeymaster (auth : KeyAuthentication) : bool :=
  negb (bool_decide (token auth = [])) || hardwareBoundPolicy auth.

Definition checkSize (kind : bytes) (actual expected : nat) : bool :=
  if decide (actual ≠ expected) then false else true.

Definition SHA512_DIGEST_LENGTH : nat := 64.

Definition hashWithPrefix (prefix tohash : bytes) : M bytes :=
  let hashingPrefix := resize SHA512_CBLOCK prefix in
  digest ← call (SHA512 (hashingPrefix ++ tohash))
                (λ _, E_SHA512 (hashingPrefix ++ tohash));
  let res := assign SHA512_DIGEST_LENGTH NUL in
  mret (poke res 0 digest).

Definition AuthorizationSetBuilder : AuthorizationSet := [].

Definition generateKeymasterKey (auth : KeyAuthentication) (appId : bytes)
  : M (option bytes) :=
  let paramBuilder :=
    Authorization TAG_APPLICATION_ID (V_blob appId)
      (Authorization TAG_PADDING V_PaddingNONE
         (Authorization TAG_MIN_MAC_LENGTH (V_uint (Z.of_nat GCM_MAC_BYTES * 8))
            (Authorization TAG_BLOCK_MODE V_GCM
               (AesEncryptionKey (Z.of_nat AES_KEY_BYTES * 8)
                  AuthorizationSetBuilder)))) in
  if bool_decide (token auth = []) then
    let paramBuilder := Authorization TAG_NO_AUTH_REQUIRED V_flag paramBuilder in
    on_km (Keymaster_generateKey paramBuilder)
          (λ r, E_Keymaster (Km_generateKey paramBuilder r))
  else
    if decide (length (token auth) ≠ sizeof_hw_auth_token_t) then mret None
    else
      let paramBuilder :=
        Authorization TAG_AUTH_TIMEOUT (V_uint AUTH_TIMEOUT)
          (Authorization TAG_USER_AUTH_TYPE V_PASSWORD
             (Authorization TAG_USER_SECURE_ID
                (V_uint (hw_auth_token_user_id (token auth))) paramBuilder)) in
      on_km (Keymaster_generateKey paramBuilder)
            (λ r, E_Keymaster (Km_generateKey paramBuilder r)).

Definition beginParams (auth : KeyAuthentication) (appId : bytes)
  : AuthorizationSet :=
  let paramBuilder :=
    Authorization TAG_APPLICATION_ID (V_blob appId)
      (Authorization TAG_PADDING V_PaddingNONE
         (Authorization TAG_MAC_LENGTH (V_uint (Z.of_nat GCM_MAC_BYTES * 8))
            (Authorization TAG_BLOCK_MODE V_GCM AuthorizationSetBuilder))) in
  if negb (bool_decide (token auth = []))
  then Authorization TAG_AUTH_TOKEN (V_blob (token auth)) paramBuilder
  else paramBuilder.

Definition readFileToString (filename : bytes) : M (option bytes) := λ w,
  let r := ReadFileToString filename (w_fs w) in
  Returns r w [E_ReadFileToString filename r].

Definition writeStringToFile (payload filename : bytes) : M bool :=
  on_fs (WriteStringToFile payload filename)
        (E_WriteStringToFile payload filename).

Definition keymaster_begin (purpose : KeyPurpose) (kmKey : bytes)
    (inParams : AuthorizationSet) (outParams : option AuthorizationSet)
  : M (KeymasterOperation * option AuthorizationSet) :=
  on_km (Keymaster_begin purpose kmKey inParams outParams)
        (λ r, E_Keymaster (Km_begin purpose kmKey inParams
                             (op_bool r.1) (errorCode r.1))).

Definition keymaster_upgradeKey (kmKey : bytes) (keyParams : AuthorizationSet)
  : M (option bytes) :=
  on_km (Keymaster_upgradeKey kmKey keyParams)
        (λ r, E_Keymaster (Km_upgradeKey kmKey keyParams r)).

Definition keymaster_deleteKey (kmKey : bytes) : M bool :=
  on_km (Keymaster_deleteKey kmKey) (λ r, E_Keymaster (Km_deleteKey kmKey r)).

(** [Keymaster keymaster; if (!keymaster) ...] *)
Definition keymaster_connect : M bool := λ w,
  let ok := Keymaster_bool (w_km w) in
  Returns ok w [E_Keymaster (Km_connect ok)].

(** One turn of the loop in [begin]; the loop state is the key blob in use
    and what [*outParams] holds ([None] for a null pointer). *)
Definition begin_body (dir : bytes) (purpose : KeyPurpose)
    (keyParams inParams : AuthorizationSet)
    (st : bytes * option AuthorizationSet)
  : M (bytes * option AuthorizationSet
       + KeymasterOperation * option AuthorizationSet) :=
  let '(kmKey, outParams) := st in
  let kmKeyPath := path dir kFn_keymaster_key_blob in
  '(opHandle, outParams) ← keymaster_begin purpose kmKey inParams outParams;
  if op_bool opHandle then mret (inr (opHandle, outParams))
  else if negb (bool_decide (errorCode opHandle = KEY_REQUIRES_UPGRADE))
  then mret (inr (opHandle, outParams))
  else
    upgraded ← keymaster_upgradeKey kmKey keyParams;
    match upgraded with
    | None => mret (inr (KeymasterOperation_default, outParams))
    | Some newKey =>
        let newKeyPath := path dir kFn_keymaster_key_blob_upgraded in
        written ← writeStringToFile newKey newKeyPath;
        if negb written then mret (inr (KeymasterOperation_default, outParams))
        else
          rc ← on_fs (rename (c_str newKeyPath) (c_str kmKeyPath))
                     (E_rename (c_str newKeyPath) (c_str kmKeyPath));
          if negb (bool_decide (rc = 0%Z))
          then mret (inr (KeymasterOperation_default, outParams))
          else
            _ ← keymaster_deleteKey kmKey;
            mret (inl (newKey, outParams))
    end.

Definition begin (fuel : nat) (dir : bytes) (purpose : KeyPurpose)
    (keyParams opParams : AuthorizationSet) (outParams : option AuthorizationSet)
  : M (KeymasterOperation * option AuthorizationSet) :=
  let kmKeyPath := path dir kFn_keymaster_key_blob in
  kmKey ← readFileToString kmKeyPath;
  match kmKey with
  | None => mret (KeymasterOperation_default, outParams)
  | Some kmKey =>
      let inParams := keyParams ++ opParams in
      for_ever fuel (begin_body dir purpose keyParams inParams) (kmKey, outParams)
  end.

Definition op_updateCompletely (op : KeymasterOperation) (input : bytes)
  : M (bool * bytes) :=
  on_km (updateCompletely op input)
        (λ r, E_Keymaster (Km_updateCompletely input r.1)).

Definition op_finish (op : KeymasterOperation) (wantOutput : bool)
  : M (bool * bytes) :=
  on_km (finish op wantOutput) (λ r, E_Keymaster (Km_finish r.1)).

Definition encryptWithKeymasterKey (fuel : nat) (dir : bytes)
    (keyParams : AuthorizationSet) (message : bytes) (ciphertext : bytes)
  : M (bool * bytes) :=
  let opParams : AuthorizationSet := [] in
  let outParams : AuthorizationSet := [] in
  '(opHandle, outParams) ←
    begin fuel dir ENCRYPT keyParams opParams (Some outParams);
  if negb (op_bool opHandle) then mret (false, ciphertext)
  else
    let nonceBlob := GetTagValue TAG_NONCE (default [] outParams) in
    match nonceBlob with
    | None => mret (false, ciphertext)
    | Some nonce =>
        if negb (checkSize (lit "nonce") (length nonce) GCM_NONCE_BYTES)
        then mret (false, ciphertext)
        else
          '(ok, body) ← op_updateCompletely opHandle message;
          if negb ok then mret (false, ciphertext)
          else
            '(ok, mac) ← op_finish opHandle true;
            if negb ok then mret (false, ciphertext)
            else if negb (checkSize (lit "mac") (length mac) GCM_MAC_BYTES)
            then mret (false, ciphertext)
            else mret (true, nonce ++ body ++ mac)
    end.

(** [message] is the caller's buffer: [updateCompletely] leaves its output
    there before [finish] has verified anything. *)
Definition decryptWithKeymasterKey (fuel : nat) (dir : bytes)
    (keyParams : AuthorizationSet) (ciphertext : bytes) (message : bytes)
  : M (bool * bytes) :=
  match substr ciphertext 0 (Some GCM_NONCE_BYTES),
        substr ciphertext GCM_NONCE_BYTES None with
  | Some nonce, Some bodyAndMac =>
      let opParams :=
        Authorization TAG_NONCE (V_blob nonce) AuthorizationSetBuilder in
      '(opHandle, _) ← begin fuel dir DECRYPT keyParams opParams None;
      if negb (op_bool opHandle) then mret (false, message)
      else
        '(ok, message) ← op_updateCompletely opHandle bodyAndMac;
        if negb ok then mret (false, message)
        else
          '(ok, _) ← op_finish opHandle false;
          if negb ok then mret (false, message)
          else mret (true, message)
  | _, _ => throw_out_of_range
  end.

(** [property_get(key, value, default_value)]: a read of the system
    properties. *)
Definition os_property_get (key default_value : bytes) : M bytes := λ w,
  Returns (property_get key default_value (w_os w)) w [E_property_get key].

Definition getStretching (auth : KeyAuthentication) : M bytes :=
  if negb (usesKeymaster auth) then mret kStretch_none
  else if bool_decide (secret auth = []) then mret kStretch_nopassword
  else
    paramstr ← os_property_get SCRYPT_PROP SCRYPT_DEFAULTS;
    mret ([] ++ kStretchPrefix_scrypt ++ paramstr).

Definition stretchingNeedsSalt (stretching : bytes) : bool :=
  negb (bool_decide (stretching = kStretch_nopassword))
  && negb (bool_decide (stretching = kStretch_none)).

(** [stretched] is what [*stretched] holds on entry.  [1 << Nf], [1 << rf]
    and [1 << pf] are computed on [int] and converted to the types of the
    parameters of [crypto_scrypt]. *)
Definition stretchSecret (stretching secret salt : bytes) (stretched : bytes)
  : M (bool * bytes) :=
  if bool_decide (stretching = kStretch_nopassword) then
    mret (true, [])
  else if bool_decide (stretching = kStretch_none) then
    mret (true, secret)
  else
    match std_equal kStretchPrefix_scrypt stretching with
    | None => throw_out_of_range
    | Some true =>
        match substr stretching (length kStretchPrefix_scrypt) None with
        | None => throw_out_of_range
        | Some paramstr =>
            parsed ← call (parse_scrypt_parameters (c_str paramstr))
                          (λ _, E_parse_scrypt_parameters (c_str paramstr));
            match parsed with
            | None => mret (false, stretched)
            | Some (Nf, rf, pf) =>
                let stretched := assign STRETCHED_BYTES NUL in
                '(rc, out) ←
                  call (crypto_scrypt secret salt (to_uint64 (shl_int Nf))
                          (to_uint32 (shl_int rf)) (to_uint32 (shl_int pf))
                          (length stretched))
                       (λ r, E_crypto_scrypt secret salt (to_uint64 (shl_int Nf))
                               (to_uint32 (shl_int rf)) (to_uint32 (shl_int pf))
                               r.1);
                let stretched := poke stretched 0 out in
                if negb (bool_decide (rc = 0%Z)) then mret (false, stretched)
                else mret (true, stretched)
            end
        end
    | Some false => mret (false, stretched)
    end.

Definition generateAppId (auth : KeyAuthentication)
    (stretching salt secdiscardable : bytes) (appId : bytes)
  : M (bool * bytes) :=
  '(ok, stretched) ← stretchSecret stretching (secret auth) salt [];
  if negb ok then mret (false, appId)
  else
    h ← hashWithPrefix kHashPrefix_secdiscardable secdiscardable;
    mret (true, h ++ stretched).

Definition readRandomBytesOrLog (count : nat) (out : bytes) : M (bool * bytes) :=
  '(status, out) ← on_os (ReadRandomBytes count)
                         (λ r, E_ReadRandomBytes count r.1);
  if negb (bool_decide (status = 0%Z)) then mret (false, out)
  else mret (true, out).

Definition evp {A} (r : Z * A) (c : EvpCall) : M (Z * A) :=
  call r (λ r, E_EVP c r.1).

Definition evp_new : M (option EVP_CIPHER_CTX) :=
  on_os EVP_CIPHER_CTX_new
        (λ r, E_EVP Evp_CTX_new (if r is Some _ then 1%Z else 0%Z)).

(** OpenSSL is handed [ciphertext->data()] as the IV and reads the
    [GCM_NONCE_BYTES] bytes of the default GCM IV length from it. *)
Definition iv_at (buf : bytes) : bytes := take GCM_NONCE_BYTES buf.

Definition encryptWithoutKeymaster (preKey plaintext : bytes) (ciphertext : bytes)
  : M (bool * bytes) :=
  key ← hashWithPrefix kHashPrefix_keygen preKey;
  let key := resize AES_KEY_BYTES key in
  '(ok, ciphertext) ← readRandomBytesOrLog GCM_NONCE_BYTES ciphertext;
  if negb ok then mret (false, ciphertext)
  else
    ctx ← evp_new;
    match ctx with
    | None => mret (false, ciphertext)
    | Some ctx =>
        '(rc, ctx) ← evp (EVP_EncryptInit_ex ctx key (iv_at ciphertext))
                         (Evp_EncryptInit key (iv_at ciphertext));
        if negb (bool_decide (rc = 1%Z)) then mret (false, ciphertext)
        else
          let ciphertext :=
            resize (GCM_NONCE_BYTES + length plaintext + GCM_MAC_BYTES)
                   ciphertext in
          '(rc, (out, ctx)) ←
            evp (let '(rc, out, c) := EVP_EncryptUpdate ctx plaintext in
                 (rc, (out, c)))
                (Evp_EncryptUpdate plaintext);
          let ciphertext := poke ciphertext GCM_NONCE_BYTES out in
          let outlen := Z.of_nat (length out) in
          if negb (bool_decide (rc = 1%Z)) then mret (false, ciphertext)
          else if negb (bool_decide (outlen = static_cast_int (length plaintext)))
          then mret (false, ciphertext)
          else
            '(rc, (out, ctx)) ←
              evp (let '(rc, out, c) := EVP_EncryptFinal_ex ctx in
                   (rc, (out, c)))
                  Evp_EncryptFinal;
            let ciphertext :=
              poke ciphertext (GCM_NONCE_BYTES + length plaintext) out in
            let outlen := Z.of_nat (length out) in
            if negb (bool_decide (rc = 1%Z)) then mret (false, ciphertext)
            else if negb (bool_decide (outlen = 0%Z))
            then mret (false, ciphertext)
            else
              '(rc, (tag, ctx)) ←
                evp (let '(rc, out, c) :=
                       EVP_CIPHER_CTX_ctrl ctx EVP_CTRL_GCM_GET_TAG GCM_MAC_BYTES
                         (take GCM_MAC_BYTES
                            (drop (GCM_NONCE_BYTES + length plaintext)
                                  ciphertext)) in
                     (rc, (out, c)))
                    (Evp_ctrl EVP_CTRL_GCM_GET_TAG);
              let ciphertext :=
                poke ciphertext (GCM_NONCE_BYTES + length plaintext) tag in
              if negb (bool_decide (rc = 1%Z)) then mret (false, ciphertext)
              else mret (true, ciphertext)
    end.

(** [plaintext] is the caller's buffer: it is resized and handed to
    [EVP_DecryptUpdate] before the tag is checked by
    [EVP_DecryptFinal_ex]. *)
Definition decryptWithoutKeymaster (preKey ciphertext : bytes) (plaintext : bytes)
  : M (bool * bytes) :=
  if decide (length ciphertext < GCM_NONCE_BYTES + GCM_MAC_BYTES)
  then mret (false, plaintext)
  else
    key ← hashWithPrefix kHashPrefix_keygen preKey;
    let key := resize AES_KEY_BYTES key in
    ctx ← evp_new;
    match ctx with
    | None => mret (false, plaintext)
    | Some ctx =>
        '(rc, ctx) ← evp (EVP_DecryptInit_ex ctx key (iv_at ciphertext))
                         (Evp_DecryptInit key (iv_at ciphertext));
        if negb (bool_decide (rc = 1%Z)) then mret (false, plaintext)
        else
          let plaintext :=
            resize (length ciphertext - GCM_NONCE_BYTES - GCM_MAC_BYTES)
                   plaintext in
          let size := length plaintext in
          let input := take size (drop GCM_NONCE_BYTES ciphertext) in
          '(rc, (out, ctx)) ←
            evp (let '(rc, out, c) := EVP_DecryptUpdate ctx input in
                 (rc, (out, c)))
                (Evp_DecryptUpdate input);
          let plaintext := poke plaintext 0 out in
          let outlen := Z.of_nat (length out) in
          if negb (bool_decide (rc = 1%Z)) then mret (false, plaintext)
          else if negb (bool_decide (outlen = static_cast_int size))
          then mret (false, plaintext)
          else
            let tag :=
              take GCM_MAC_BYTES (drop (GCM_NONCE_BYTES + size) ciphertext) in
            '(rc, ctx) ←
              evp (let '(rc, _, c) :=
                     EVP_CIPHER_CTX_ctrl ctx EVP_CTRL_GCM_SET_TAG GCM_MAC_BYTES
                       tag in
                   (rc, c))
                  (Evp_ctrl EVP_CTRL_GCM_SET_TAG);
            if negb (bool_decide (rc = 1%Z)) then mret (false, plaintext)
            else
              '(rc, (out, ctx)) ←
                evp (let '(rc, out, c) := EVP_DecryptFinal_ex ctx in
                     (rc, (out, c)))
                    Evp_DecryptFinal;
              let plaintext := poke plaintext size out in
              let outlen := Z.of_nat (length out) in
              if negb (bool_decide (rc = 1%Z)) then mret (false, plaintext)
              else if negb (bool_decide (outlen = 0%Z))
              then mret (false, plaintext)
              else mret (true, plaintext)
    end.

Definition storeKey (fuel : nat) (dir : bytes) (auth : KeyAuthentication)
    (key : bytes) : M bool :=
  rc ← on_fs (mkdir (c_str dir)) (E_mkdir (c_str dir));
  if bool_decide (rc = (-1)%Z) then mret false
  else
    ok ← writeStringToFile kCurrentVersion (path dir kFn_version);
    if negb ok then mret false
    else
      '(ok, secdiscardable) ← readRandomBytesOrLog SECDISCARDABLE_BYTES [];
      if negb ok then mret false
      else
        ok ← writeStringToFile secdiscardable (path dir kFn_secdiscardable);
        if negb ok then mret false
        else
          stretching ← getStretching auth;
          ok ← writeStringToFile stretching (path dir kFn_stretching);
          if negb ok then mret false
          else
            salted ←
              (if stretchingNeedsSalt stretching then
                 '(status, salt) ← on_os (ReadRandomBytes SALT_BYTES)
                                         (λ r, E_ReadRandomBytes SALT_BYTES r.1);
                 if negb (bool_decide (status = 0%Z)) then mret None
                 else
                   ok ← writeStringToFile salt (path dir kFn_salt);
                   if negb ok then mret None else mret (Some salt)
               else mret (Some []));
            match salted with
            | None => mret false
            | Some salt =>
                '(ok, appId) ←
                  generateAppId auth stretching salt secdiscardable [];
                if negb ok then mret false
                else
                  '(ok, encryptedKey) ←
                    (if usesKeymaster auth then
                       ok ← keymaster_connect;
                       if negb ok then mret (false, [])
                       else
                         kmKey ← generateKeymasterKey auth appId;
                         match kmKey with
                         | None => mret (false, [])
                         | Some kmKey =>
                             ok ← writeStringToFile kmKey
                                    (path dir kFn_keymaster_key_blob);
                             if negb ok then mret (false, [])
                             else
                               let keyParams := beginParams auth appId in
                               encryptWithKeymasterKey fuel dir keyParams key []
                         end
                     else encryptWithoutKeymaster appId key []);
                  if negb ok then mret false
                  else
                    ok ← writeStringToFile encryptedKey
                           (path dir kFn_encrypted_key);
                    if negb ok then mret false else mret true
            end.

(** [key] is what the caller's [*key] holds on entry; the result pairs the
    returned [bool] with what [*key] holds on return. *)
Definition retrieveKey (fuel : nat) (dir : bytes) (auth : KeyAuthentication)
    (key : bytes) : M (bool * bytes) :=
  version ← readFileToString (path dir kFn_version);
  match version with
  | None => mret (false, key)
  | Some version =>
      if negb (bool_decide (version = kCurrentVersion)) then mret (false, key)
      else
        secdiscardable ← readFileToString (path dir kFn_secdiscardable);
        match secdiscardable with
        | None => mret (false, key)
        | Some secdiscardable =>
            stretching ← readFileToString (path dir kFn_stretching);
            match stretching with
            | None => mret (false, key)
            | Some stretching =>
                salted ←
                  (if stretchingNeedsSalt stretching
                   then readFileToString (path dir kFn_salt)
                   else mret (Some []));
                match salted with
                | None => mret (false, key)
                | Some salt =>
                    '(ok, appId) ←
                      generateAppId auth stretching salt secdiscardable [];
                    if negb ok then mret (false, key)
                    else
                      encryptedMessage ←
                        readFileToString (path dir kFn_encrypted_key);
                      match encryptedMessage with
                      | None => mret (false, key)
                      | Some encryptedMessage =>
                          if usesKeymaster auth then
                            ok ← keymaster_connect;
                            if negb ok then mret (false, key)
                            else
                              let keyParams := beginParams auth appId in
                              decryptWithKeymasterKey fuel dir keyParams
                                encryptedMessage key
                          else
                            decryptWithoutKeymaster appId encryptedMessage key
                      end
                end
            end
        end
  end.

Definition deleteKey (dir : bytes) : M bool :=
  kmKey ← readFileToString (path dir kFn_keymaster_key_blob);
  match kmKey with
  | None => mret false
  | Some kmKey =>
      ok ← keymaster_connect;
      if negb ok then mret false
      else
        ok ← keymaster_deleteKey kmKey;
        if negb ok then mret false else mret true
  end.

Definition forkExecvp (argv : list bytes) : M Z :=
  on_fs (ForkExecvp argv) (E_ForkExecvp argv).

Definition runSecdiscard (dir : bytes) : M bool :=
  rc ← forkExecvp [kSecdiscardPath; lit "--";
                   path dir kFn_encrypted_key;
                   path dir kFn_keymaster_key_blob;
                   path dir kFn_secdiscardable];
  if negb (bool_decide (rc = 0%Z)) then mret false else mret true.

Definition recursiveDeleteKey (dir : bytes) : M bool :=
  rc ← forkExecvp [kRmPath; lit "-rf"; dir];
  if negb (bool_decide (rc = 0%Z)) then mret false else mret true.

(** [success &= step(dir)]: the right-hand side is evaluated before the
    bitwise and, whatever [success] holds. *)
Definition destroyKey (dir : bytes) : M bool :=
  let success := true in
  r ← deleteKey dir;
  let success := andb success r in
  r ← runSecdiscard dir;
  let success := andb success r in
  r ← recursiveDeleteKey dir;
  let success := andb success r in
  mret success.

End KeyStorage.

Arguments Returns {_ _} _ _ _.
Arguments Aborts {_ _}.
Arguments OutOfFuel {_ _}.

(** ** A reference platform

    A small executable platform: an in-memory file system, a counter as
    entropy source, an XOR stream cipher with a checksum as tag in place of
    AES-GCM, and a Keymaster whose key blobs carry their format version,
    their authentication requirement and the application id they are bound
    to.  It shows that the assumptions made about the platform below can be
    met, and it runs the functions on concrete inputs. *)
Module Ref.

Definition xor_ascii (a b : ascii) : ascii :=
  let '(Ascii a0 a1 a2 a3 a4 a5 a6 a7) := a in
  let '(Ascii b0 b1 b2 b3 b4 b5 b6 b7) := b in
  Ascii (xorb a0 b0) (xorb a1 b1) (xorb a2 b2) (xorb a3 b3)
        (xorb a4 b4) (xorb a5 b5) (xorb a6 b6) (xorb a7 b7).

Definition rot (a : ascii) : ascii :=
  let '(Ascii a0 a1 a2 a3 a4 a5 a6 a7) := a in Ascii a7 a0 a1 a2 a3 a4 a5 a6.

(** A two-byte rolling checksum. *)
Definition checksum (s : bytes) : ascii * ascii :=
  fold_left (λ '(a, b) c, (xor_ascii (rot a) c, xor_ascii (rot b) (rot a)))
            s ("Z"%char, "K"%char).

Definition digest (len : nat) (s : bytes) : bytes :=
  let '(a, b) := checksum s in
  resize len [a; b; rot a; rot b; xor_ascii a b; rot (rot a); rot (rot b);
              xor_ascii a (rot b)].

Definition mask (key iv : bytes) : ascii :=
  fold_right xor_ascii NUL (key ++ iv).

Definition xor_stream (key iv data : bytes) : bytes :=
  map (xor_ascii (mask key iv)) data.

Definition mac (key iv body : bytes) : bytes :=
  digest GCM_MAC_BYTES (key ++ iv ++ body).

(** *** File system *)

Record fs := { files : gmap bytes bytes; dirs : list bytes }.

Definition fs_mkdir (d : bytes) (s : fs) : Z * fs :=
  if bool_decide (d ∈ dirs s) then ((-1)%Z, s)
  else (0%Z, {| files := files s; dirs := d :: dirs s |}).

Definition fs_read (f : bytes) (s : fs) : option bytes := files s !! f.

Definition fs_write (payload f : bytes) (s : fs) : bool * fs :=
  (true, {| files := <[f := payload]> (files s); dirs := dirs s |}).

Definition fs_rename (from to : bytes) (s : fs) : Z * fs :=
  match files s !! from with
  | Some c => (0%Z, {| files := <[to := c]> (delete from (files s));
                       dirs := dirs s |})
  | None => ((-1)%Z, s)
  end.

(** [secdiscard -- file...] unlinks the files it is given, [rm -rf dir]
    removes the directory and what is below it; no other program is
    installed. *)
Definition fs_exec (argv : list bytes) (s : fs) : Z * fs :=
  match argv with
  | prog :: args =>
      if bool_decide (prog = kSecdiscardPath) then
        (0%Z, {| files := foldr delete (files s) args; dirs := dirs s |})
      else if bool_decide (prog = kRmPath) then
        match args with
        | [_; d] =>
            (0%Z, {| files := filter (λ kv, ¬ (d ++ lit "/") `prefix_of` kv.1)
                                     (files s);
                     dirs := filter (λ x, x ≠ d) (dirs s) |})
        | _ => (1%Z, s)
        end
      else (127%Z, s)
  | [] => (127%Z, s)
  end.

(** *** Process environment *)

Record os := { rng_counter : nat }.

Definition os_random (count : nat) (s : os) : Z * bytes * os :=
  (0%Z, replicate count (ascii_of_nat (65 + rng_counter s mod 26)),
   {| rng_counter := S (rng_counter s) |}).

(** *** Software cipher *)

Record cipher_ctx := {
  c_key : bytes; c_iv : bytes; c_mac : bytes; c_tag : bytes
}.

Definition ctx_init (c : cipher_ctx) (key iv : bytes) : Z * cipher_ctx :=
  (1%Z, {| c_key := key; c_iv := iv; c_mac := []; c_tag := [] |}).

Definition ctx_encrypt_update (c : cipher_ctx) (input : bytes)
  : Z * bytes * cipher_ctx :=
  let body := xor_stream (c_key c) (c_iv c) input in
  (1%Z, body,
   {| c_key := c_key c; c_iv := c_iv c;
      c_mac := mac (c_key c) (c_iv c) body; c_tag := c_tag c |}).

Definition ctx_decrypt_update (c : cipher_ctx) (input : bytes)
  : Z * bytes * cipher_ctx :=
  (1%Z, xor_stream (c_key c) (c_iv c) input,
   {| c_key := c_key c; c_iv := c_iv c;
      c_mac := mac (c_key c) (c_iv c) input; c_tag := c_tag c |}).

Definition ctx_encrypt_final (c : cipher_ctx) : Z * bytes * cipher_ctx :=
  (1%Z, [], c).

Definition ctx_decrypt_final (c : cipher_ctx) : Z * bytes * cipher_ctx :=
  if bool_decide (c_tag c = c_mac c) then (1%Z, [], c) else (0%Z, [], c).

Definition ctx_ctrl (c : cipher_ctx) (cmd : EvpCtrl) (len : nat) (ptr : bytes)
  : Z * bytes * cipher_ctx :=
  match cmd with
  | EVP_CTRL_GCM_GET_TAG => (1%Z, resize len (c_mac c), c)
  | EVP_CTRL_GCM_SET_TAG =>
      (1%Z, [], {| c_key := c_key c; c_iv := c_iv c; c_mac := c_mac c;
                   c_tag := take len ptr |})
  end.

(** *** Stretching *)

Definition digit (c : ascii) : option Z :=
  let n := nat_of_ascii c in
  if decide (48 ≤ n ≤ 57) then Some (Z.of_nat (n - 48)) else None.

Fixpoint decimal (acc : Z) (s : bytes) : option Z :=
  match s with
  | [] => Some acc
  | c :: s' => d ← digit c; decimal (acc * 10 + d)%Z s'
  end.

Fixpoint fields (cur : bytes) (s : bytes) : list bytes :=
  match s with
  | [] => [cur]
  | c :: s' =>
      if Ascii.eqb c ":"%char then cur :: fields [] s'
      else fields (cur ++ [c]) s'
  end.

Definition parse_params (s : bytes) : option (Z * Z * Z) :=
  match fields [] s with
  | [a; b; c] =>
      if bool_decide (a = [] ∨ b = [] ∨ c = []) then None
      else Nf ← decimal 0 a; rf ← decimal 0 b; pf ← decimal 0 c;
           Some (Nf, rf, pf)
  | _ => None
  end.

Definition scrypt (passwd salt : bytes) (N r p : Z) (buflen : nat) : Z * bytes :=
  (0%Z, digest buflen (passwd ++ lit ":" ++ salt)).

(** *** Keymaster *)

Definition format_version : nat := 2.

Record km := {
  available : bool;
  deleted : list bytes;
  nonce_counter : nat;
  op_mac : bytes;
  op_tag_ok : bool
}.

Record handle := {
  h_error : ErrorCode;
  h_purpose : KeyPurpose;
  h_key : bytes;
  h_nonce : bytes
}.

Definition no_handle (e : ErrorCode) : handle :=
  {| h_error := e; h_purpose := ENCRYPT; h_key := []; h_nonce := [] |}.

Definition has_tag (t : Tag) (s : AuthorizationSet) : bool :=
  bool_decide (t ∈ s.*1).

Definition blob_version (blob : bytes) : nat := nat_of_ascii (hd NUL blob).
Definition blob_needs_auth (blob : bytes) : bool :=
  bool_decide (blob !! 1 = Some "A"%char).
Definition blob_appId (blob : bytes) : bytes := drop 2 blob.

Definition km_generateKey (params : AuthorizationSet) (s : km)
  : option bytes * km :=
  let appId := default [] (GetTagValue TAG_APPLICATION_ID params) in
  let flag := if has_tag TAG_NO_AUTH_REQUIRED params then "N"%char else "A"%char in
  if available s
  then (Some (ascii_of_nat format_version :: flag :: appId), s)
  else (None, s).

Definition km_begin (purpose : KeyPurpose) (blob : bytes)
    (inParams : AuthorizationSet) (outParams : option AuthorizationSet) (s : km)
  : handle * option AuthorizationSet * km :=
  if negb (available s) then
    (no_handle (OtherError (-1000)), outParams, s)
  else if bool_decide (blob ∈ deleted s) then
    (no_handle (OtherError (-33)), outParams, s)
  else if decide (length blob < 2) then
    (no_handle (OtherError (-33)), outParams, s)
  else if decide (blob_version blob < format_version) then
    (no_handle KEY_REQUIRES_UPGRADE, outParams, s)
  else if negb (bool_decide (GetTagValue TAG_APPLICATION_ID inParams
                             = Some (blob_appId blob))) then
    (no_handle (OtherError (-33)), outParams, s)
  else if blob_needs_auth blob
          && bool_decide (GetTagValue TAG_AUTH_TOKEN inParams = None) then
    (no_handle (OtherError (-26)), outParams, s)
  else
    let nonce :=
      match purpose with
      | ENCRYPT => replicate GCM_NONCE_BYTES
                     (ascii_of_nat (97 + nonce_counter s mod 26))
      | DECRYPT => default [] (GetTagValue TAG_NONCE inParams)
      end in
    ({| h_error := OK; h_purpose := purpose; h_key := blob_appId blob;
        h_nonce := nonce |},
     match outParams with
     | Some _ => Some [(TAG_NONCE, V_blob nonce)]
     | None => None
     end,
     {| available := available s; deleted := deleted s;
        nonce_counter := S (nonce_counter s);
        op_mac := op_mac s; op_tag_ok := op_tag_ok s |}).

Definition km_upgradeKey (blob : bytes) (params : AuthorizationSet) (s : km)
  : option bytes * km :=
  if negb (available s) then (None, s)
  else if decide (blob_version blob < format_version)
  then (Some (ascii_of_nat (S (blob_version blob)) :: tl blob), s)
  else (None, s).

Definition km_deleteKey (blob : bytes) (s : km) : bool * km :=
  if negb (available s) then (false, s)
  else
    (true, {| available := available s; deleted := blob :: deleted s;
              nonce_counter := nonce_counter s;
              op_mac := op_mac s; op_tag_ok := op_tag_ok s |}).

Definition km_update (h : handle) (input : bytes) (s : km) : bool * bytes * km :=
  if negb (bool_decide (h_error h = OK)) then (false, [], s)
  else
    match h_purpose h with
    | ENCRYPT =>
        let body := xor_stream (h_key h) (h_nonce h) input in
        (true, body,
         {| available := available s; deleted := deleted s;
            nonce_counter := nonce_counter s;
            op_mac := mac (h_key h) (h_nonce h) body;
            op_tag_ok := op_tag_ok s |})
    | DECRYPT =>
        if decide (length input < GCM_MAC_BYTES) then (false, [], s)
        else
          let body := take (length input - GCM_MAC_BYTES) input in
          let tag := drop (length input - GCM_MAC_BYTES) input in
          (true, xor_stream (h_key h) (h_nonce h) body,
           {| available := available s; deleted := deleted s;
              nonce_counter := nonce_counter s;
              op_mac := op_mac s;
              op_tag_ok := bool_decide (tag = mac (h_key h) (h_nonce h) body) |})
    end.

Definition km_finish (h : handle) (wantOutput : bool) (s : km)
  : bool * bytes * km :=
  if negb (bool_decide (h_error h = OK)) then (false, [], s)
  else
    match h_purpose h with
    | ENCRYPT => (true, if wantOutput then op_mac s else [], s)
    | DECRYPT => (op_tag_ok s, [], s)
    end.

Definition platform : Platform := {|
  FS := fs;
  KM := km;
  OS := os;
  EVP_CIPHER_CTX := cipher_ctx;
  KeymasterOperation := handle;
  hardwareBoundPolicy := λ auth, bool_decide (secret auth = []);
  sizeof_hw_auth_token_t := 69;
  hw_auth_token_user_id := λ t, Z.of_N (N_of_ascii (default NUL (t !! 9)));
  SCRYPT_PROP := lit "ro.crypto.scrypt_params";
  SCRYPT_DEFAULTS := lit "15:3:1";
  parse_scrypt_parameters := parse_params;
  crypto_scrypt := scrypt;
  mkdir := fs_mkdir;
  ReadFileToString := fs_read;
  WriteStringToFile := fs_write;
  rename := fs_rename;
  ForkExecvp := fs_exec;
  ReadRandomBytes := os_random;
  property_get := λ _ default_value _, default_value;
  SHA512 := digest 64;
  EVP_CIPHER_CTX_new := λ s,
    (Some {| c_key := []; c_iv := []; c_mac := []; c_tag := [] |}, s);
  EVP_EncryptInit_ex := ctx_init;
  EVP_EncryptUpdate := ctx_encrypt_update;
  EVP_EncryptFinal_ex := ctx_encrypt_final;
  EVP_DecryptInit_ex := ctx_init;
  EVP_DecryptUpdate := ctx_decrypt_update;
  EVP_DecryptFinal_ex := ctx_decrypt_final;
  EVP_CIPHER_CTX_ctrl := ctx_ctrl;
  Keymaster_bool := available;
  Keymaster_generateKey := km_generateKey;
  Keymaster_begin := km_begin;
  Keymaster_upgradeKey := km_upgradeKey;
  Keymaster_deleteKey := km_deleteKey;
  KeymasterOperation_default := no_handle (OtherError (-1000));
  op_bool := λ h, bool_decide (h_error h = OK);
  errorCode := h_error;
  updateCompletely := km_update;
  finish := km_finish
|}.

#[local] Existing Instance platform.

(** An empty device with the Keymaster service running. *)
Definition boot : World :=
  {| w_fs := {| files := ∅; dirs := [] |};
     w_km := {| available := true; deleted := []; nonce_counter := 0;
                op_mac := []; op_tag_ok := false |};
     w_os := {| rng_counter := 0 |} |}.

(** The same world with one more file. *)
Definition with_file (f content : bytes) (w : World) : World :=
  {| w_fs := (fs_write content f (w_fs w)).2; w_km := w_km w; w_os := w_os w |}.

Definition world_of {A} (o : Outcome A) : World :=
  match o with Returns _ w _ => w | _ => boot end.

Definition trace_of {A} (o : Outcome A) : list Event :=
  match o with Returns _ _ tr => tr | _ => [] end.

Definition dir0 : bytes := lit "/data/misc/vold/user_keys/ce/0/current".
Definition key0 : bytes := lit "0123456789abcdef0123456789abcdef".
Definition token0 : bytes := replicate 69 "t"%char.

(** Credentials: a token and no secret, the same token with a secret, and
    a secret without a token. *)
Definition auth_token : KeyAuthentication :=
  {| token := token0; secret := [] |}.
Definition auth_token_secret : KeyAuthentication :=
  {| token := token0; secret := lit "hunter2" |}.
Definition auth_secret : KeyAuthentication :=
  {| token := []; secret := lit "hunter2" |}.

(** The last two with another secret. *)
Definition auth_token_other_secret : KeyAuthentication :=
  {| token := token0; secret := lit "hunter3" |}.
Definition auth_other_secret : KeyAuthentication :=
  {| token := []; secret := lit "hunter3" |}.

(** The device after [key0] has been stored in [dir0] under [auth]. *)
Abbreviation stored auth := (world_of (storeKey 1 dir0 auth key0 boot)).

(** The same world with the last byte of a file changed. *)
Definition flip_last (c : bytes) : bytes :=
  take (length c - 1) c ++ [xor_ascii (List.last c NUL) "001"%char].

Definition tamper (f : bytes) (w : World) : World :=
  match fs_read f (w_fs w) with
  | Some c => with_file f (flip_last c) w
  | None => w
  end.

(** A key blob of format version 0 bound to [appId0], and the parameters
    that name this application id. *)
Definition appId0 : bytes := lit "app".
Definition blob0 : bytes := ascii_of_nat 0 :: "N"%char :: appId0.
Definition params0 : AuthorizationSet := [(TAG_APPLICATION_ID, V_blob appId0)].
Definition outdated : World :=
  with_file (path dir0 kFn_keymaster_key_blob) blob0 boot.

End Ref.

(** * Properties *)

Definition result_of `{Platform} {A} (o : Outcome A) : option A :=
  match o with Returns a _ _ => Some a | _ => None end.

(** ** Vocabulary of the properties

    Predicates on calls and traces, and the two judgements of the calculus
    used below. *)

(** The calls of [begin], and of the two functions built on it: the
    Keymaster service, reads of the key blob, and the upgrade written
    under its temporary name and renamed over the blob. *)
Definition begin_event (dir : bytes) (e : Event) : Prop :=
  match e with
  | E_Keymaster _ => True
  | E_ReadFileToString f _ => f = path dir kFn_keymaster_key_blob
  | E_WriteStringToFile _ f _ => f = path dir kFn_keymaster_key_blob_upgraded
  | E_rename from to _ =>
      from = c_str (path dir kFn_keymaster_key_blob_upgraded)
      ∧ to = c_str (path dir kFn_keymaster_key_blob)
  | _ => False
  end.

(** Payloads written to [f], with the outcome of each write. *)
Definition writes_at (f : bytes) (tr : list Event) : list (bytes * bool) :=
  omap (λ e, match e with
             | E_WriteStringToFile p f' ok =>
                 if bool_decide (f' = f) then Some (p, ok) else None
             | _ => None
             end) tr.

(** Results of the reads of [f]. *)
Definition reads_at (f : bytes) (tr : list Event) : list (option bytes) :=
  omap (λ e, match e with
             | E_ReadFileToString f' c =>
                 if bool_decide (f' = f) then Some c else None
             | _ => None
             end) tr.

(** The calls of the software cipher. *)
Definition soft_event (e : Event) : Prop :=
  match e with
  | E_SHA512 _ | E_EVP _ _ | E_ReadRandomBytes _ _ => True
  | _ => False
  end.

(** The outcomes of the [Keymaster::begin] calls in a trace, in order. *)
Definition begin_results (tr : list Event) : list (bool * ErrorCode) :=
  omap (λ e, match e with
             | E_Keymaster (Km_begin _ _ _ valid err) => Some (valid, err)
             | _ => None
             end) tr.

(** The answer of [Keymaster::begin] that makes [begin] try again. *)
Definition upgrade_required (r : bool * ErrorCode) : Prop :=
  r = (false, KEY_REQUIRES_UPGRADE).

(** The calls whose output lands in the caller's buffer before anything
    has been authenticated: the update step of either cipher. *)
Definition is_update (e : Event) : bool :=
  match e with
  | E_EVP (Evp_DecryptUpdate _) _ => true
  | E_Keymaster (Km_updateCompletely _ _) => true
  | _ => false
  end.

(** The names [KeyStorage.cpp] gives to the files of a key directory. *)
Definition key_files : list bytes :=
  [kFn_version; kFn_secdiscardable; kFn_stretching; kFn_salt;
   kFn_keymaster_key_blob; kFn_keymaster_key_blob_upgraded; kFn_encrypted_key].

(** [f] is one of these files, in [dir]. *)
Definition key_file (dir f : bytes) : Prop :=
  ∃ name, name ∈ key_files ∧ f = path dir name.

(** The calls that stay inside the key directory [dir]. *)
Definition confined (dir : bytes) (e : Event) : Prop :=
  match e with
  | E_mkdir d _ => d = c_str dir
  | E_ReadFileToString f _ | E_WriteStringToFile _ f _ => key_file dir f
  | E_rename from to _ =>
      from = c_str (path dir kFn_keymaster_key_blob_upgraded)
      ∧ to = c_str (path dir kFn_keymaster_key_blob)
  | E_ForkExecvp _ _ => False
  | _ => True
  end.

(** The calls [retrieveKey] can make. *)
Definition retrieve_event (dir : bytes) (e : Event) : Prop :=
  match e with
  | E_ReadFileToString f _ => key_file dir f
  | E_WriteStringToFile _ f _ => f = path dir kFn_keymaster_key_blob_upgraded
  | E_rename from to _ =>
      from = c_str (path dir kFn_keymaster_key_blob_upgraded)
      ∧ to = c_str (path dir kFn_keymaster_key_blob)
  | E_mkdir _ _ | E_ForkExecvp _ _ | E_ReadRandomBytes _ _
  | E_property_get _ => False
  | _ => True
  end.

(** The calls of software decryption: hashing and the cipher. *)
Definition decrypt_event (e : Event) : Prop :=
  match e with
  | E_SHA512 _ | E_EVP _ _ => True
  | _ => False
  end.


(** A call that initialises the software cipher does so with key [k]. *)
Definition uses_key (k : bytes) (e : Event) : Prop :=
  match e with
  | E_EVP (Evp_EncryptInit key _) _ | E_EVP (Evp_DecryptInit key _) _ => key = k
  | _ => True
  end.

(** How many upgrades the reference Keymaster still offers for a blob. *)
Definition Ref_rank (blob : bytes) : nat :=
  Ref.format_version - Ref.blob_version blob.

Section Vocabulary.
Context `{Platform}.

(** [wp m w Φ]: if [m] returns from [w], then [Φ] holds of the result, the
    final world and the calls made. *)
Definition wp {A} (m : M A) (w : World) (Φ : A → World → list Event → Prop)
  : Prop :=
  match m w with
  | Returns a w' tr => Φ a w' tr
  | _ => True
  end.

(** [runs m w Φ]: [m] returns from [w], and [Φ] holds of the result, the
    final world and the calls made. *)
Definition runs {A} (m : M A) (w : World) (Φ : A → World → list Event → Prop)
  : Prop :=
  match m w with
  | Returns a w' tr => Φ a w' tr
  | _ => False
  end.

(** The policy of the specification for choosing the stretching at store
    time: "none" without hardware binding, "nopassword" with hardware
    binding and an empty secret, otherwise the scrypt tag followed by the
    cost parameters configured at that moment. *)
Definition stretching_policy (auth : KeyAuthentication) (os : OS) : bytes :=
  if negb (usesKeymaster auth) then lit "none"
  else if bool_decide (secret auth = []) then lit "nopassword"
  else lit "scrypt " ++ property_get SCRYPT_PROP SCRYPT_DEFAULTS os.

(** Files other than the key blob and its temporary keep their contents. *)
Definition blob_frame (dir : bytes) (w w' : World) : Prop :=
  ∀ g, g ≠ path dir kFn_keymaster_key_blob →
       g ≠ path dir kFn_keymaster_key_blob_upgraded →
       ReadFileToString g (w_fs w') = ReadFileToString g (w_fs w).

(** A world from which [retrieveKey] gives the key back. *)
Definition retrievable (dir : bytes) (auth : KeyAuthentication) (key : bytes)
    (w : World) : Prop :=
  ∀ fuel out, 0 < fuel →
    runs (retrieveKey fuel dir auth out) w (λ r _ _, r = (true, key)).

(** The key [encryptWithoutKeymaster] and [decryptWithoutKeymaster] derive
    from the appId: the personalised hash, cut to the key size. *)
Definition wrapping_key (preKey : bytes) : bytes :=
  resize AES_KEY_BYTES
    (poke (assign SHA512_DIGEST_LENGTH NUL) 0
       (SHA512 (resize SHA512_CBLOCK kHashPrefix_keygen ++ preKey))).

(** *** A credential that does not fit *)

(** The appId [retrieveKey] derives under [auth] from the files of [dir]:
    the secdiscardable bytes, the stored stretching specification and, when
    that asks for one, the salt. *)
Definition appId_at (dir : bytes) (auth : KeyAuthentication) (w : World)
  : option bytes :=
  match ReadFileToString (path dir kFn_secdiscardable) (w_fs w),
        ReadFileToString (path dir kFn_stretching) (w_fs w) with
  | Some secdiscardable, Some stretching =>
      match (if stretchingNeedsSalt stretching
             then ReadFileToString (path dir kFn_salt) (w_fs w)
             else Some []) with
      | Some salt =>
          match result_of
                  (generateAppId auth stretching salt secdiscardable [] w) with
          | Some (true, appId) => Some appId
          | _ => None
          end
      | None => None
      end
  | _, _ => None
  end.

(** [ct] is a nonce and, behind it, the body and the tag the software
    cipher produced for [pt] under [key] and this nonce. *)
Definition sealed (key pt ct : bytes) : Prop :=
  ∃ nonce c0 c1 body c2 fin c3 buf tag c4,
    length nonce = GCM_NONCE_BYTES
    ∧ EVP_EncryptInit_ex c0 key nonce = (1%Z, c1)
    ∧ EVP_EncryptUpdate c1 pt = (1%Z, body, c2)
    ∧ EVP_EncryptFinal_ex c2 = (1%Z, fin, c3)
    ∧ EVP_CIPHER_CTX_ctrl c3 EVP_CTRL_GCM_GET_TAG GCM_MAC_BYTES buf
      = (1%Z, tag, c4)
    ∧ ct = nonce ++ body ++ tag.

(** The software cipher refuses under [key'] what it sealed under [key]:
    with the same nonce, body and tag, the final check of a decryption
    under [key'] does not report success. *)
Definition evp_rejects (key key' : bytes) : Prop :=
  ∀ c0 iv pt c1 body c2 fin c3 buf tag c4 d0 d1 pt' d2 x d3 rc out d4,
    EVP_EncryptInit_ex c0 key iv = (1%Z, c1) →
    EVP_EncryptUpdate c1 pt = (1%Z, body, c2) →
    EVP_EncryptFinal_ex c2 = (1%Z, fin, c3) →
    EVP_CIPHER_CTX_ctrl c3 EVP_CTRL_GCM_GET_TAG GCM_MAC_BYTES buf
    = (1%Z, tag, c4) →
    EVP_DecryptInit_ex d0 key' iv = (1%Z, d1) →
    EVP_DecryptUpdate d1 body = (1%Z, pt', d2) →
    EVP_CIPHER_CTX_ctrl d2 EVP_CTRL_GCM_SET_TAG GCM_MAC_BYTES tag
    = (1%Z, x, d3) →
    EVP_DecryptFinal_ex d3 = (rc, out, d4) →
    rc ≠ 1%Z.

(** The software cipher refuses the ciphertext [ct] under [key]: taken
    apart the way [decryptWithoutKeymaster] does it, the final check of the
    decryption does not report success. *)
Definition soft_rejects (key ct : bytes) : Prop :=
  let size := length ct - GCM_NONCE_BYTES - GCM_MAC_BYTES in
  ∀ d0 d1 pt d2 x d3 rc out d4,
    EVP_DecryptInit_ex d0 key (iv_at ct) = (1%Z, d1) →
    EVP_DecryptUpdate d1 (take size (drop GCM_NONCE_BYTES ct)) = (1%Z, pt, d2) →
    EVP_CIPHER_CTX_ctrl d2 EVP_CTRL_GCM_SET_TAG GCM_MAC_BYTES
      (take GCM_MAC_BYTES (drop (GCM_NONCE_BYTES + size) ct))
    = (1%Z, x, d3) →
    EVP_DecryptFinal_ex d3 = (rc, out, d4) →
    rc ≠ 1%Z.

(** The Keymaster refuses the ciphertext [ct] under the key blob [kmKey]
    and the parameters [params]: the operation is not begun, and not for
    want of an upgrade; or it is, and then the update or the final check
    fails. *)
Definition keymaster_rejects (kmKey : bytes) (params : AuthorizationSet)
    (ct : bytes) (s : KM) : Prop :=
  ∀ opHandle o s1,
    Keymaster_begin DECRYPT kmKey
      (params ++ [(TAG_NONCE, V_blob (take GCM_NONCE_BYTES ct))]) None s
    = (opHandle, o, s1) →
    if op_bool opHandle
    then ∀ ok message s2,
           updateCompletely opHandle (drop GCM_NONCE_BYTES ct) s1
           = (ok, message, s2) →
           ok = true →
           ∀ ok' x s3, finish opHandle false s2 = (ok', x, s3) → ok' = false
    else errorCode opHandle ≠ KEY_REQUIRES_UPGRADE.

(** The parameters [q] of a [begin] do not fit the parameters [params] a
    key was generated with: they name another application id, or the key
    requires authentication and they carry no token. *)
Definition mismatch (params q : AuthorizationSet) : Prop :=
  (∃ appId, GetTagValue TAG_APPLICATION_ID params = Some appId
            ∧ GetTagValue TAG_APPLICATION_ID q ≠ Some appId)
  ∨ ((TAG_NO_AUTH_REQUIRED ∉ params.*1)
     ∧ GetTagValue TAG_AUTH_TOKEN q = None).

End Vocabulary.

(** ** Byte-string helpers *)

Lemma resize_length n s : length (resize n s) = n.
Proof. unfold resize. rewrite length_app, length_take, length_replicate. lia. Qed.

Lemma resize_exact n s : length s = n → resize n s = s.
Proof.
  intros <-. unfold resize.
  rewrite firstn_all, Nat.sub_diag. simpl. apply app_nil_r.
Qed.

Lemma poke_all buf data : length data = length buf → poke buf 0 data = data.
Proof.
  intros E. unfold poke. simpl. rewrite E, drop_all. apply app_nil_r.
Qed.

Lemma poke_nil buf off : off ≤ length buf → poke buf off [] = buf.
Proof.
  intros _. unfold poke. simpl. rewrite Nat.add_0_r. apply take_drop.
Qed.

Lemma path_inj dir a b : path dir a = path dir b → a = b.
Proof. unfold path. intros E. by simplify_list_eq. Qed.

Lemma c_str_id_app a b : c_str a = a → c_str b = b → c_str (a ++ b) = a ++ b.
Proof.
  induction a as [|c a IH]; simpl; [done|].
  destruct (Ascii.eqb c NUL); [done|].
  intros Ea Eb. f_equal. apply IH; [congruence | done].
Qed.

Lemma c_str_path dir name :
  c_str dir = dir → c_str name = name → c_str (path dir name) = path dir name.
Proof.
  intros Hd Hn. unfold path. apply c_str_id_app; [done|].
  apply c_str_id_app; [reflexivity | done].
Qed.

(** ** Shifts on [int] *)


(** ** The prefix test of [stretchSecret] *)

Lemma deref_lookup s i c : s !! i = Some c → deref s i = Some c.
Proof. unfold deref, slot. by intros ->. Qed.

Lemma deref_end s : deref s (length s) = Some NUL.
Proof.
  unfold deref, slot. rewrite lookup_ge_None_2 by lia.
  by rewrite decide_True.
Qed.

(** On a first range free of NUL the comparison decides the prefix
    relation, reading the terminator when the string ends early. *)
Lemma std_equal_run_spec r1 s i :
  NUL ∉ r1 → i ≤ length s →
  (std_equal_run r1 s i).2 = Some (bool_decide (r1 `prefix_of` drop i s))
  ∧ Forall (λ j, j ≤ length s) (std_equal_run r1 s i).1.
Proof.
  revert i. induction r1 as [|c r1 IH]; intros i Hnul Hi;
    cbn [std_equal_run fst snd].
  - split; [|constructor]. rewrite bool_decide_eq_true_2; [done|].
    apply prefix_nil.
  - apply not_elem_of_cons in Hnul as [Hc Hnul].
    destruct (s !! i) as [d|] eqn:Ed.
    + rewrite (deref_lookup _ _ _ Ed).
      pose proof (lookup_lt_Some _ _ _ Ed) as Hlt.
      rewrite (drop_S _ _ _ Ed).
      destruct (Ascii.eqb c d) eqn:Ecd.
      * apply Ascii.eqb_eq in Ecd as ->.
        destruct (IH (S i) Hnul ltac:(lia)) as [IHv IHr].
        destruct (std_equal_run r1 s (S i)) as [reads v].
        cbn [fst snd] in *.
        split; [|constructor; [lia | done]].
        rewrite IHv. f_equal. apply bool_decide_ext.
        split; [apply prefix_cons | apply prefix_cons_inv_2].
      * cbn [fst snd]. split; [|repeat constructor; lia].
        rewrite bool_decide_eq_false_2; [done|].
        intros Hp. apply prefix_cons_inv_1 in Hp.
        apply Ascii.eqb_neq in Ecd. congruence.
    + apply lookup_ge_None in Ed.
      assert (i = length s) as -> by lia.
      rewrite deref_end, drop_all.
      destruct (Ascii.eqb c NUL) eqn:Ec.
      * apply Ascii.eqb_eq in Ec. congruence.
      * cbn [fst snd]. split; [|repeat constructor; lia].
        rewrite bool_decide_eq_false_2; [done|].
        intros Hp. by apply prefix_nil_not in Hp.
Qed.

Lemma std_equal_spec r1 s :
  NUL ∉ r1 → std_equal r1 s = Some (bool_decide (r1 `prefix_of` s)).
Proof.
  intros Hnul. unfold std_equal.
  destruct (std_equal_run_spec r1 s 0 Hnul ltac:(lia)) as [-> _].
  by rewrite drop_0.
Qed.

Lemma kStretchPrefix_scrypt_no_NUL : NUL ∉ kStretchPrefix_scrypt.
Proof. by apply (bool_decide_unpack _). Qed.

Lemma std_equal_scrypt s :
  std_equal kStretchPrefix_scrypt s
  = Some (bool_decide (kStretchPrefix_scrypt `prefix_of` s)).
Proof. apply std_equal_spec, kStretchPrefix_scrypt_no_NUL. Qed.

(** ** A weakest-precondition calculus for [M]

    [wp m w Φ]: if [m] returns from [w], the result, the final world and
    the calls made satisfy [Φ].  [runs m w Φ] moreover says that it does
    return. *)
Section Calculus.
Context `{Platform}.

Lemma wp_elim {A} (m : M A) w Φ a w' tr :
  wp m w Φ → m w = Returns a w' tr → Φ a w' tr.
Proof. unfold wp. intros Hwp E. by rewrite E in Hwp. Qed.

Lemma runs_elim {A} (m : M A) w Φ :
  runs m w Φ → ∃ a w' tr, m w = Returns a w' tr ∧ Φ a w' tr.
Proof. unfold runs. destruct (m w); [eauto | done | done]. Qed.

Lemma runs_intro {A} (m : M A) w (Φ : A → World → list Event → Prop) a w' tr :
  m w = Returns a w' tr → Φ a w' tr → runs m w Φ.
Proof. unfold runs. by intros ->. Qed.

Lemma runs_wp {A} (m : M A) w Φ : runs m w Φ → wp m w Φ.
Proof. unfold runs, wp. by destruct (m w). Qed.

Lemma wp_mono {A} (m : M A) w (Φ Ψ : A → World → list Event → Prop) :
  wp m w Φ → (∀ a w' tr, Φ a w' tr → Ψ a w' tr) → wp m w Ψ.
Proof. unfold wp. destruct (m w); auto. Qed.

Lemma runs_mono {A} (m : M A) w (Φ Ψ : A → World → list Event → Prop) :
  runs m w Φ → (∀ a w' tr, Φ a w' tr → Ψ a w' tr) → runs m w Ψ.
Proof. unfold runs. destruct (m w); auto. Qed.

Lemma wp_ret {A} (a : A) w (Φ : A → World → list Event → Prop) :
  Φ a w [] → wp (mret a) w Φ.
Proof. done. Qed.

Lemma runs_ret {A} (a : A) w (Φ : A → World → list Event → Prop) :
  Φ a w [] → runs (mret a) w Φ.
Proof. done. Qed.

Lemma wp_bind {A B} (m : M A) (k : A → M B) w Φ :
  wp m w (λ a w1 t1, wp (k a) w1 (λ b w2 t2, Φ b w2 (t1 ++ t2))) →
  wp (m ≫= k) w Φ.
Proof.
  unfold wp, mbind, M_bind. destruct (m w) as [a w1 t1| |]; [|done..].
  by destruct (k a w1).
Qed.

Lemma runs_bind {A B} (m : M A) (k : A → M B) w Φ :
  runs m w (λ a w1 t1, runs (k a) w1 (λ b w2 t2, Φ b w2 (t1 ++ t2))) →
  runs (m ≫= k) w Φ.
Proof.
  unfold runs, mbind, M_bind. destruct (m w) as [a w1 t1| |]; [|done..].
  by destruct (k a w1).
Qed.

Lemma bind_inv {A B} (m : M A) (k : A → M B) w b w2 tr :
  (m ≫= k) w = Returns b w2 tr →
  ∃ a w1 t1 t2,
    m w = Returns a w1 t1 ∧ k a w1 = Returns b w2 t2 ∧ tr = t1 ++ t2.
Proof.
  unfold mbind, M_bind. destruct (m w) as [a w1 t1| |]; [|done..].
  destruct (k a w1) as [b' w2' t2| |] eqn:Ek; [|done..].
  intros [= -> -> <-]. eauto 10.
Qed.

Lemma bind_returns {A B} (m : M A) (k : A → M B) w a w1 t1 :
  m w = Returns a w1 t1 →
  (m ≫= k) w = match k a w1 with
               | Returns b w2 t2 => Returns b w2 (t1 ++ t2)
               | Aborts => Aborts
               | OutOfFuel => OutOfFuel
               end.
Proof. unfold mbind, M_bind. by intros ->. Qed.

Lemma wp_call {A} (a : A) ev w (Φ : A → World → list Event → Prop) :
  Φ a w [ev a] → wp (call a ev) w Φ.
Proof. done. Qed.

Lemma wp_on_fs {A} (op : FS → A * FS) ev w (Φ : A → World → list Event → Prop) :
  (∀ a s, op (w_fs w) = (a, s) →
          Φ a {| w_fs := s; w_km := w_km w; w_os := w_os w |} [ev a]) →
  wp (on_fs op ev) w Φ.
Proof. unfold wp, on_fs. destruct (op (w_fs w)); auto. Qed.

Lemma wp_on_km {A} (op : KM → A * KM) ev w (Φ : A → World → list Event → Prop) :
  (∀ a s, op (w_km w) = (a, s) →
          Φ a {| w_fs := w_fs w; w_km := s; w_os := w_os w |} [ev a]) →
  wp (on_km op ev) w Φ.
Proof. unfold wp, on_km. destruct (op (w_km w)); auto. Qed.

Lemma wp_on_os {A} (op : OS → A * OS) ev w (Φ : A → World → list Event → Prop) :
  (∀ a s, op (w_os w) = (a, s) →
          Φ a {| w_fs := w_fs w; w_km := w_km w; w_os := s |} [ev a]) →
  wp (on_os op ev) w Φ.
Proof. unfold wp, on_os. destruct (op (w_os w)); auto. Qed.

Lemma wp_readFileToString filename w
    (Φ : option bytes → World → list Event → Prop) :
  Φ (ReadFileToString filename (w_fs w)) w
    [E_ReadFileToString filename (ReadFileToString filename (w_fs w))] →
  wp (readFileToString filename) w Φ.
Proof. done. Qed.

Lemma wp_keymaster_connect w (Φ : bool → World → list Event → Prop) :
  Φ (Keymaster_bool (w_km w)) w
    [E_Keymaster (Km_connect (Keymaster_bool (w_km w)))] →
  wp keymaster_connect w Φ.
Proof. done. Qed.

Lemma wp_os_property_get key dflt w (Φ : bytes → World → list Event → Prop) :
  Φ (property_get key dflt (w_os w)) w [E_property_get key] →
  wp (os_property_get key dflt) w Φ.
Proof. done. Qed.

Lemma wp_throw {A} w (Φ : A → World → list Event → Prop) :
  wp throw_out_of_range w Φ.
Proof. done. Qed.

Lemma runs_call {A} (a : A) ev w (Φ : A → World → list Event → Prop) :
  Φ a w [ev a] → runs (call a ev) w Φ.
Proof. done. Qed.

Lemma runs_on_fs {A} (op : FS → A * FS) ev w
    (Φ : A → World → list Event → Prop) :
  (∀ a s, op (w_fs w) = (a, s) →
          Φ a {| w_fs := s; w_km := w_km w; w_os := w_os w |} [ev a]) →
  runs (on_fs op ev) w Φ.
Proof. unfold runs, on_fs. destruct (op (w_fs w)); auto. Qed.

Lemma runs_on_km {A} (op : KM → A * KM) ev w
    (Φ : A → World → list Event → Prop) :
  (∀ a s, op (w_km w) = (a, s) →
          Φ a {| w_fs := w_fs w; w_km := s; w_os := w_os w |} [ev a]) →
  runs (on_km op ev) w Φ.
Proof. unfold runs, on_km. destruct (op (w_km w)); auto. Qed.

Lemma runs_on_os {A} (op : OS → A * OS) ev w
    (Φ : A → World → list Event → Prop) :
  (∀ a s, op (w_os w) = (a, s) →
          Φ a {| w_fs := w_fs w; w_km := w_km w; w_os := s |} [ev a]) →
  runs (on_os op ev) w Φ.
Proof. unfold runs, on_os. destruct (op (w_os w)); auto. Qed.

Lemma runs_readFileToString filename w
    (Φ : option bytes → World → list Event → Prop) :
  Φ (ReadFileToString filename (w_fs w)) w
    [E_ReadFileToString filename (ReadFileToString filename (w_fs w))] →
  runs (readFileToString filename) w Φ.
Proof. done. Qed.

Lemma runs_keymaster_connect w (Φ : bool → World → list Event → Prop) :
  Φ (Keymaster_bool (w_km w)) w
    [E_Keymaster (Km_connect (Keymaster_bool (w_km w)))] →
  runs keymaster_connect w Φ.
Proof. done. Qed.

Lemma runs_os_property_get key dflt w (Φ : bytes → World → list Event → Prop) :
  Φ (property_get key dflt (w_os w)) w [E_property_get key] →
  runs (os_property_get key dflt) w Φ.
Proof. done. Qed.

Lemma runs_and {A} (m : M A) w (Φ : A → World → list Event → Prop) :
  runs m w (λ _ _ _, True) → wp m w Φ → runs m w Φ.
Proof. unfold runs, wp. by destruct (m w). Qed.

(** What a computation returns is what it returns. *)
Lemma wp_self {A} (m : M A) w : wp m w (λ a w' tr, m w = Returns a w' tr).
Proof. unfold wp. by destruct (m w). Qed.

(** The loop rule: an invariant on loop state and world, a property [P] of
    every call made, and a postcondition on leaving the loop. *)
Lemma wp_for_ever {S R} (body : S → M (S + R)) (P : Event → Prop)
    (Inv : S → World → Prop) (Q : R → World → Prop) :
  (∀ s w, Inv s w →
     wp (body s) w (λ r w' tr,
       Forall P tr ∧ match r with inl s' => Inv s' w' | inr x => Q x w' end)) →
  ∀ fuel s w, Inv s w →
    wp (for_ever fuel body s) w (λ x w' tr, Forall P tr ∧ Q x w').
Proof.
  intros Hbody. induction fuel as [|fuel IH]; intros s w Hinv; [done|].
  cbn [for_ever]. apply wp_bind.
  eapply wp_mono; [by apply Hbody|].
  intros [s'|x] w' tr [Htr Hr].
  - eapply wp_mono; [by apply IH|].
    intros x w'' tr' [Htr' Hq]. split; [|done]. by apply Forall_app.
  - apply wp_ret. split; [|done]. by rewrite app_nil_r.
Qed.

End Calculus.

(** One step of symbolic execution: split a bind, or run a platform call
    and name what it returned. *)
Ltac wsimp := cbn [w_fs w_km w_os] in *.

Ltac wp_red := cbv beta iota zeta delta [negb]; cbn [w_fs w_km w_os].

Ltac wp_step :=
  wp_red;
  lazymatch goal with
  | |- @wp _ _ (mbind _ _) _ _ => apply wp_bind
  | |- @wp _ _ (mret _) _ _ => apply wp_ret
  | |- @wp _ _ (call _ _) _ _ => apply wp_call
  | |- @wp _ _ (evp _ _) _ _ => apply wp_call
  | |- @wp _ _ (readFileToString _) _ _ => apply wp_readFileToString
  | |- @wp _ _ (writeStringToFile _ _) _ _ => apply wp_on_fs
  | |- @wp _ _ (forkExecvp _) _ _ => apply wp_on_fs
  | |- @wp _ _ (on_fs _ _) _ _ => apply wp_on_fs
  | |- @wp _ _ (on_km _ _) _ _ => apply wp_on_km
  | |- @wp _ _ (keymaster_begin _ _ _ _) _ _ => apply wp_on_km
  | |- @wp _ _ (keymaster_upgradeKey _ _) _ _ => apply wp_on_km
  | |- @wp _ _ (keymaster_deleteKey _) _ _ => apply wp_on_km
  | |- @wp _ _ (op_updateCompletely _ _) _ _ => apply wp_on_km
  | |- @wp _ _ (op_finish _ _) _ _ => apply wp_on_km
  | |- @wp _ _ (on_os _ _) _ _ => apply wp_on_os
  | |- @wp _ _ evp_new _ _ => apply wp_on_os
  | |- @wp _ _ keymaster_connect _ _ => apply wp_keymaster_connect
  | |- @wp _ _ (os_property_get _ _) _ _ => apply wp_os_property_get
  | |- @wp _ _ throw_out_of_range _ _ => apply wp_throw
  end.

(** Close a leaf: the state equation, then the calls collected so far. *)
Ltac fp_trace :=
  repeat first [ assumption
               | apply Forall_app; split
               | progress (cbn [fst snd begin_event is_crypto] in * )
               | constructor ].

Ltac fp_leaf := wp_step; split; [first [done | congruence | simpl; congruence] | fp_trace].

Ltac runs_step :=
  cbv beta iota zeta delta [negb]; cbn [w_fs w_km w_os];
  lazymatch goal with
  | |- @runs _ _ (mbind _ _) _ _ => apply runs_bind
  | |- @runs _ _ (mret _) _ _ => apply runs_ret
  | |- @runs _ _ (call _ _) _ _ => apply runs_call
  | |- @runs _ _ (evp _ _) _ _ => apply runs_call
  | |- @runs _ _ (readFileToString _) _ _ => apply runs_readFileToString
  | |- @runs _ _ (writeStringToFile _ _) _ _ => apply runs_on_fs
  | |- @runs _ _ (forkExecvp _) _ _ => apply runs_on_fs
  | |- @runs _ _ (on_fs _ _) _ _ => apply runs_on_fs
  | |- @runs _ _ (on_km _ _) _ _ => apply runs_on_km
  | |- @runs _ _ (keymaster_begin _ _ _ _) _ _ => apply runs_on_km
  | |- @runs _ _ (keymaster_upgradeKey _ _) _ _ => apply runs_on_km
  | |- @runs _ _ (keymaster_deleteKey _) _ _ => apply runs_on_km
  | |- @runs _ _ (op_updateCompletely _ _) _ _ => apply runs_on_km
  | |- @runs _ _ (op_finish _ _) _ _ => apply runs_on_km
  | |- @runs _ _ (on_os _ _) _ _ => apply runs_on_os
  | |- @runs _ _ evp_new _ _ => apply runs_on_os
  | |- @runs _ _ keymaster_connect _ _ => apply runs_keymaster_connect
  | |- @runs _ _ (os_property_get _ _) _ _ => apply runs_os_property_get
  end.

(** Run a function to its end when nothing but its return is of
    interest. *)
Ltac total_step :=
  first [ runs_step
        | lazymatch goal with
          | |- @runs _ _ (match ?x with _ => _ end) _ _ => destruct x
          | |- ∀ _, _ => intro
          | |- True => exact I
          end ].

(** ** Which calls each function can make *)
Section Footprints.
Context `{Platform}.

Lemma hashWithPrefix_wp prefix tohash w :
  hashWithPrefix prefix tohash w
  = Returns (poke (assign SHA512_DIGEST_LENGTH NUL) 0
               (SHA512 (resize SHA512_CBLOCK prefix ++ tohash)))
            w [E_SHA512 (resize SHA512_CBLOCK prefix ++ tohash)].
Proof. reflexivity. Qed.

Lemma stretchSecret_footprint stretching secret salt stretched w :
  wp (stretchSecret stretching secret salt stretched) w
     (λ _ w' tr, w' = w ∧ Forall (λ e, is_crypto e = true) tr).
Proof.
  unfold stretchSecret.
  repeat case_bool_decide; try by apply wp_ret.
  rewrite std_equal_scrypt. case_bool_decide; [|by apply wp_ret].
  destruct (substr _ _ _); [|apply wp_throw].
  do 2 wp_step.
  destruct (parse_scrypt_parameters _) as [[[Nf rf] pf]|];
    [|wp_step; split; [done | by repeat constructor]].
  do 2 wp_step.
  destruct (crypto_scrypt _ _ _ _ _ _) as [rc out].
  case_bool_decide; wp_step; (split; [done | by repeat constructor]).
Qed.

Lemma generateAppId_footprint auth stretching salt secdiscardable appId w :
  wp (generateAppId auth stretching salt secdiscardable appId) w
     (λ _ w' tr, w' = w ∧ Forall (λ e, is_crypto e = true) tr).
Proof.
  unfold generateAppId. wp_step.
  eapply wp_mono; [apply stretchSecret_footprint|].
  intros [ok stretched] w' tr [-> Htr].
  destruct ok; repeat wp_step.
  - split; [done|]. apply Forall_app. by split; [|repeat constructor].
  - split; [done|]. by rewrite app_nil_r.
Qed.

Lemma begin_body_footprint dir purpose keyParams inParams st w :
  wp (begin_body dir purpose keyParams inParams st) w
     (λ _ w' tr, w_os w' = w_os w ∧ Forall (begin_event dir) tr).
Proof.
  unfold begin_body. destruct st as [kmKey outParams].
  do 2 wp_step. intros [opHandle outParams'] s1 _.
  destruct (op_bool opHandle); [wp_step; by repeat constructor|].
  case_bool_decide; [|wp_step; by repeat constructor].
  do 2 wp_step. intros [newKey|] s2 _; [|wp_step; by repeat constructor].
  do 2 wp_step. intros [] s3 _; [|wp_step; by repeat constructor].
  do 2 wp_step. intros rc s4 _.
  case_bool_decide; [|wp_step; by repeat constructor].
  do 2 wp_step. intros ok s5 _. wp_step. by repeat constructor.
Qed.

Lemma begin_footprint fuel dir purpose keyParams opParams outParams w :
  wp (begin fuel dir purpose keyParams opParams outParams) w
     (λ _ w' tr, w_os w' = w_os w ∧ Forall (begin_event dir) tr).
Proof.
  unfold begin. repeat wp_step.
  destruct (ReadFileToString _ _) as [kmKey|];
    [|wp_step; by repeat constructor].
  eapply wp_mono.
  - apply (wp_for_ever _ (begin_event dir) (λ _ w', w_os w' = w_os w)
             (λ _ w', w_os w' = w_os w)); [|done].
    intros s w0 Hw0. eapply wp_mono; [apply begin_body_footprint|].
    intros [s'|x] w' tr [Hos Htr]; (split; [done | congruence]).
  - intros x w' tr [Htr Hos]. split; [done|]. by constructor.
Qed.

Lemma encryptWithKeymasterKey_footprint fuel dir keyParams message ct w :
  wp (encryptWithKeymasterKey fuel dir keyParams message ct) w
     (λ _ w' tr, w_os w' = w_os w ∧ Forall (begin_event dir) tr).
Proof.
  unfold encryptWithKeymasterKey. wp_step.
  eapply wp_mono; [apply begin_footprint|].
  intros [opHandle outParams] w' tr [Hos Htr].
  destruct (op_bool opHandle); [|fp_leaf].
  cbv beta iota zeta delta [negb].
  destruct (GetTagValue _ _) as [nonce|]; [|fp_leaf].
  destruct (checkSize _ _ _); [|fp_leaf].
  do 2 wp_step. intros [[] body] s1 _; [|fp_leaf].
  do 2 wp_step. intros [[] mac] s2 _; [|fp_leaf].
  destruct (checkSize _ _ _); fp_leaf.
Qed.

Lemma decryptWithKeymasterKey_footprint fuel dir keyParams ct message w :
  wp (decryptWithKeymasterKey fuel dir keyParams ct message) w
     (λ _ w' tr, w_os w' = w_os w ∧ Forall (begin_event dir) tr).
Proof.
  unfold decryptWithKeymasterKey.
  destruct (substr ct 0 _); [|apply wp_throw].
  destruct (substr ct _ _); [|apply wp_throw].
  wp_step. eapply wp_mono; [apply begin_footprint|].
  intros [opHandle outParams] w' tr [Hos Htr].
  destruct (op_bool opHandle); [|fp_leaf].
  do 2 wp_step. intros [[] msg] s1 _; [|fp_leaf].
  do 2 wp_step. intros [[] out] s2 _; fp_leaf.
Qed.

End Footprints.

(** ** What a trace says about one file *)

Lemma writes_at_app f t1 t2 :
  writes_at f (t1 ++ t2) = writes_at f t1 ++ writes_at f t2.
Proof. apply omap_app. Qed.

Lemma reads_at_app f t1 t2 :
  reads_at f (t1 ++ t2) = reads_at f t1 ++ reads_at f t2.
Proof. apply omap_app. Qed.

Lemma writes_at_none f (P : Event → Prop) tr :
  (∀ e, P e → writes_at f [e] = []) → Forall P tr → writes_at f tr = [].
Proof.
  intros HP. induction 1 as [|e tr He _ IH]; [done|].
  change (e :: tr) with ([e] ++ tr). by rewrite writes_at_app, HP, IH.
Qed.


Lemma writes_at_crypto f tr :
  Forall (λ e, is_crypto e = true) tr → writes_at f tr = [].
Proof. apply writes_at_none. by intros []. Qed.


Lemma writes_at_soft f tr : Forall soft_event tr → writes_at f tr = [].
Proof. apply writes_at_none. by intros []. Qed.


Lemma writes_at_begin dir f tr :
  f ≠ path dir kFn_keymaster_key_blob_upgraded →
  Forall (begin_event dir) tr → writes_at f tr = [].
Proof.
  intros Hf. apply writes_at_none. intros [] He; try done.
  simpl in *. subst. by rewrite bool_decide_eq_false_2.
Qed.


Lemma bool_decide_path dir a b :
  bool_decide (path dir a = path dir b) = bool_decide (a = b).
Proof. apply bool_decide_ext. split; [apply path_inj | by intros ->]. Qed.

Lemma path_ne dir a b : a ≠ b → path dir a ≠ path dir b.
Proof. intros Hne E. by apply Hne, (path_inj dir). Qed.

(** Decide comparisons between the file names of the directory. *)
Ltac path_cmp :=
  rewrite ?bool_decide_path;
  repeat match goal with
         | |- context [bool_decide (?a = ?b)] =>
             let v := eval vm_compute in (bool_decide (a = b)) in
             lazymatch v with
             | true => change (bool_decide (a = b)) with true
             | false => change (bool_decide (a = b)) with false
             end
         end.

Ltac trace_simp :=
  rewrite ?writes_at_app, ?reads_at_app;
  cbn [writes_at reads_at omap list_omap option_bind mbind fst snd];
  path_cmp;
  cbv beta iota;
  rewrite ?app_nil_r, ?app_nil_l.

Section MoreFootprints.
Context `{Platform}.

Lemma wp_hashWithPrefix prefix tohash w
    (Φ : bytes → World → list Event → Prop) :
  Φ (poke (assign SHA512_DIGEST_LENGTH NUL) 0
       (SHA512 (resize SHA512_CBLOCK prefix ++ tohash)))
    w [E_SHA512 (resize SHA512_CBLOCK prefix ++ tohash)] →
  wp (hashWithPrefix prefix tohash) w Φ.
Proof. unfold wp. by rewrite hashWithPrefix_wp. Qed.

Lemma readRandomBytesOrLog_wp count out w
    (Φ : bool * bytes → World → list Event → Prop) :
  (∀ status rnd s, ReadRandomBytes count (w_os w) = (status, rnd, s) →
     Φ (bool_decide (status = 0%Z), rnd)
       {| w_fs := w_fs w; w_km := w_km w; w_os := s |}
       [E_ReadRandomBytes count status]) →
  wp (readRandomBytesOrLog count out) w Φ.
Proof.
  intros HΦ. unfold readRandomBytesOrLog. do 2 wp_step.
  intros [status rnd] s E. specialize (HΦ _ _ _ E).
  case_bool_decide; wp_step; by rewrite app_nil_r.
Qed.

Lemma encryptWithoutKeymaster_footprint preKey plaintext ct w :
  wp (encryptWithoutKeymaster preKey plaintext ct) w
     (λ _ w' tr, w_fs w' = w_fs w ∧ w_km w' = w_km w ∧ Forall soft_event tr).
Proof.
  unfold encryptWithoutKeymaster. wp_step. apply wp_hashWithPrefix. wp_step.
  apply readRandomBytesOrLog_wp. intros status rnd s _.
  destruct (bool_decide (status = 0%Z)); [|wp_step; by repeat constructor].
  do 2 wp_step. intros [ctx|] s1 _; [|wp_step; by repeat constructor].
  do 2 wp_step. destruct (EVP_EncryptInit_ex _ _ _) as [rc ctx1].
  destruct (bool_decide (rc = 1%Z)); [|wp_step; by repeat constructor].
  do 2 wp_step. destruct (EVP_EncryptUpdate _ _) as [[rc2 out] ctx2].
  destruct (bool_decide (rc2 = 1%Z)); [|wp_step; by repeat constructor].
  destruct (bool_decide (_ = static_cast_int _));
    [|wp_step; by repeat constructor].
  do 2 wp_step. destruct (EVP_EncryptFinal_ex _) as [[rc3 out3] ctx3].
  destruct (bool_decide (rc3 = 1%Z)); [|wp_step; by repeat constructor].
  destruct (bool_decide (_ = 0%Z)); [|wp_step; by repeat constructor].
  do 2 wp_step. destruct (EVP_CIPHER_CTX_ctrl _ _ _ _) as [[rc4 tag] ctx4].
  destruct (bool_decide (rc4 = 1%Z)); wp_step; by repeat constructor.
Qed.

Lemma decryptWithoutKeymaster_footprint preKey ct plaintext w :
  wp (decryptWithoutKeymaster preKey ct plaintext) w
     (λ _ w' tr, w_fs w' = w_fs w ∧ w_km w' = w_km w ∧ Forall soft_event tr).
Proof.
  unfold decryptWithoutKeymaster.
  case_decide; [wp_step; by repeat constructor|].
  wp_step. apply wp_hashWithPrefix.
  do 2 wp_step. intros [ctx|] s1 _; [|wp_step; by repeat constructor].
  do 2 wp_step. destruct (EVP_DecryptInit_ex _ _ _) as [rc ctx1].
  destruct (bool_decide (rc = 1%Z)); [|wp_step; by repeat constructor].
  do 2 wp_step. destruct (EVP_DecryptUpdate _ _) as [[rc2 out] ctx2].
  destruct (bool_decide (rc2 = 1%Z)); [|wp_step; by repeat constructor].
  destruct (bool_decide (_ = static_cast_int _));
    [|wp_step; by repeat constructor].
  do 2 wp_step. destruct (EVP_CIPHER_CTX_ctrl _ _ _ _) as [[rc4 tag] ctx4].
  destruct (bool_decide (rc4 = 1%Z)); [|wp_step; by repeat constructor].
  do 2 wp_step. destruct (EVP_DecryptFinal_ex _) as [[rc3 out3] ctx3].
  destruct (bool_decide (rc3 = 1%Z)); [|wp_step; by repeat constructor].
  destruct (bool_decide (_ = 0%Z)); wp_step; by repeat constructor.
Qed.

End MoreFootprints.

Ltac use_writes :=
  cbv beta in *;
  repeat match goal with
         | H : writes_at _ _ = [] |- _ => rewrite H; clear H
         | H : reads_at _ _ = [] |- _ => rewrite H; clear H
         end.

Ltac leaf :=
  repeat wp_step; trace_simp; use_writes; cbn [app];
  first [naive_solver | naive_solver eauto 10].

Section Store.
Context `{Platform}.

Lemma wp_getStretching auth w (Φ : bytes → World → list Event → Prop) :
  (∀ tr, Forall (λ e, e = E_property_get SCRYPT_PROP) tr →
         Φ (stretching_policy auth (w_os w)) w tr) →
  wp (getStretching auth) w Φ.
Proof.
  intros HΦ. unfold getStretching, stretching_policy in *.
  destruct (usesKeymaster auth); [|wp_step; by apply HΦ].
  cbv beta iota zeta delta [negb] in *.
  case_bool_decide; [wp_step; by apply HΦ|].
  do 3 wp_step. apply HΦ. by repeat constructor.
Qed.

Lemma writes_at_property_get f tr :
  Forall (λ e, e = E_property_get SCRYPT_PROP) tr → writes_at f tr = [].
Proof. apply writes_at_none. by intros ? ->. Qed.

Lemma generateKeymasterKey_footprint auth appId w :
  wp (generateKeymasterKey auth appId) w
     (λ _ w' tr, w_os w' = w_os w ∧ w_fs w' = w_fs w
                 ∧ Forall (λ e, is_crypto e = true) tr).
Proof.
  unfold generateKeymasterKey.
  case_bool_decide; [wp_step; intros r s _; by repeat constructor|].
  case_decide; [wp_step; by repeat constructor|].
  wp_step. intros r s _. by repeat constructor.
Qed.

(** What [storeKey] writes to the stretching file and to the salt file. *)
Lemma storeKey_persisted fuel dir auth key w :
  wp (storeKey fuel dir auth key) w (λ r _ tr,
    let pol := stretching_policy auth
                 (ReadRandomBytes SECDISCARDABLE_BYTES (w_os w)).2 in
    let written := writes_at (path dir kFn_stretching) tr in
    let salted := writes_at (path dir kFn_salt) tr in
    (written = [] ∨ ∃ ok, written = [(pol, ok)])
    ∧ (salted = [] ∨
       stretchingNeedsSalt pol = true ∧ ∃ salt ok, salted = [(salt, ok)])
    ∧ (r = true →
       written = [(pol, true)]
       ∧ (stretchingNeedsSalt pol = true → ∃ salt, salted = [(salt, true)]))).
Proof.
  unfold storeKey. do 2 wp_step. intros rc s0 _.
  case_bool_decide; [leaf|].
  do 2 wp_step. intros [] s1 _; [|leaf].
  wp_step. apply readRandomBytesOrLog_wp. intros status sd os1 Eos. wsimp.
  rewrite Eos. cbn [snd].
  destruct (bool_decide (status = 0%Z)); [|leaf].
  do 2 wp_step. intros [] s2 _; [|leaf].
  wp_step. apply wp_getStretching. intros tg Htg. cbn [w_os].
  set (pol := stretching_policy auth os1).
  pose proof (writes_at_property_get (path dir kFn_stretching) _ Htg) as Hg1.
  pose proof (writes_at_property_get (path dir kFn_salt) _ Htg) as Hg2.
  do 2 wp_step. intros ok3 s3 _.
  destruct ok3; [|leaf].
  wp_step.
  (* everything after the salt block *)
  assert (∀ salt w1,
    wp (generateAppId auth pol salt sd []
        ≫= λ '(ok, appId),
             if negb ok then mret false
             else (if usesKeymaster auth
                   then ok0 ← keymaster_connect;
                        if negb ok0 then mret (false, [])
                        else kmKey ← generateKeymasterKey auth appId;
                             match kmKey with
                             | Some kmKey0 =>
                                 ok1 ← writeStringToFile kmKey0
                                         (path dir kFn_keymaster_key_blob);
                                 if negb ok1 then mret (false, [])
                                 else encryptWithKeymasterKey fuel dir
                                        (beginParams auth appId) key []
                             | None => mret (false, [])
                             end
                   else encryptWithoutKeymaster appId key [])
                  ≫= λ '(ok0, encryptedKey),
                       if negb ok0 then mret false
                       else ok1 ← writeStringToFile encryptedKey
                                    (path dir kFn_encrypted_key);
                            if negb ok1 then mret false else mret true) w1
       (λ _ _ t, writes_at (path dir kFn_stretching) t = []
                 ∧ writes_at (path dir kFn_salt) t = [])) as Hrest.
  { intros salt w1. wp_step.
    eapply wp_mono; [apply generateAppId_footprint|].
    intros [[] appId] w2 t [-> Ht];
      pose proof (writes_at_crypto (path dir kFn_stretching) _ Ht);
      pose proof (writes_at_crypto (path dir kFn_salt) _ Ht);
      [|leaf].
    wp_step. destruct (usesKeymaster auth).
    - do 2 wp_step. destruct (Keymaster_bool _);
        [|leaf].
      wp_step. eapply wp_mono; [apply generateKeymasterKey_footprint|].
      intros [kmKey|] w3 t3 (_ & _ & Ht3);
        pose proof (writes_at_crypto (path dir kFn_stretching) _ Ht3);
        pose proof (writes_at_crypto (path dir kFn_salt) _ Ht3);
        [|leaf].
      do 2 wp_step. intros [] s5 _; [|leaf].
      wp_red. eapply wp_mono; [apply encryptWithKeymasterKey_footprint|].
      intros [[] ct] w4 t4 [_ Ht4];
        pose proof (writes_at_begin dir (path dir kFn_stretching) _
                      ltac:(by apply path_ne) Ht4);
        pose proof (writes_at_begin dir (path dir kFn_salt) _
                      ltac:(by apply path_ne) Ht4);
        [|leaf].
      do 2 wp_step. intros [] s6 _; leaf.
    - eapply wp_mono; [apply encryptWithoutKeymaster_footprint|].
      intros [[] ct] w4 t4 (_ & _ & Ht4);
        pose proof (writes_at_soft (path dir kFn_stretching) _ Ht4);
        pose proof (writes_at_soft (path dir kFn_salt) _ Ht4);
        [|leaf].
      do 2 wp_step. intros [] s6 _; leaf. }
  destruct (stretchingNeedsSalt pol) eqn:Hsalt.
  - do 2 wp_step. intros [status2 salt] os2 _.
    destruct (bool_decide (status2 = 0%Z)); [|leaf].
    do 2 wp_step. intros [] s4 _; [|leaf].
    wp_step. eapply wp_mono; [apply Hrest|].
    intros r w' t [H1 H2]. trace_simp. use_writes. cbn [app]. naive_solver.
  - wp_step. eapply wp_mono; [apply Hrest|].
    intros r w' t [H1 H2]. trace_simp. use_writes. cbn [app]. naive_solver.
Qed.



End Store.

(** ** The retry loop of [begin] *)

Lemma begin_results_app t1 t2 :
  begin_results (t1 ++ t2) = begin_results t1 ++ begin_results t2.
Proof. apply omap_app. Qed.

Section Upgrade.
Context `{Platform}.

(** The service offers finitely many upgrades in a row: every key blob has
    a rank, and an upgrade offered for a blob (begin answers
    KEY_REQUIRES_UPGRADE and [upgradeKey] then succeeds) yields a blob of
    smaller rank. *)
Variable rank : bytes → nat.
Hypothesis upgrades_descend :
  ∀ purpose kmKey inParams outParams s opHandle outParams' s1 keyParams
    newKey s2,
    Keymaster_begin purpose kmKey inParams outParams s
    = (opHandle, outParams', s1) →
    op_bool opHandle = false →
    errorCode opHandle = KEY_REQUIRES_UPGRADE →
    Keymaster_upgradeKey kmKey keyParams s1 = (Some newKey, s2) →
    rank newKey < rank kmKey.

Lemma begin_loop_terminates dir purpose keyParams inParams fuel :
  ∀ kmKey outParams w,
    rank kmKey < fuel →
    runs (for_ever fuel (begin_body dir purpose keyParams inParams)
            (kmKey, outParams)) w
         (λ _ _ tr,
            begin_results tr ≠ []
            ∧ length (begin_results tr) ≤ S (rank kmKey)
            ∧ Forall upgrade_required (removelast (begin_results tr))).
Proof using upgrades_descend.
  induction fuel as [|fuel IH]; intros kmKey outParams w Hfuel; [lia|].
  cbn [for_ever]. runs_step. unfold begin_body at 1.
  do 2 runs_step. intros [opHandle outParams'] s1 Ebegin. cbn [fst].
  assert (∀ t : list Event, begin_results t = [] →
    begin_results
      ([E_Keymaster (Km_begin purpose kmKey inParams (op_bool opHandle)
                       (errorCode opHandle))] ++ t) ≠ []
    ∧ length (begin_results
        ([E_Keymaster (Km_begin purpose kmKey inParams (op_bool opHandle)
                         (errorCode opHandle))] ++ t)) ≤ S (rank kmKey)
    ∧ Forall upgrade_required
        (removelast (begin_results
           ([E_Keymaster (Km_begin purpose kmKey inParams (op_bool opHandle)
                            (errorCode opHandle))] ++ t)))) as Hexit.
  { intros t Ht. rewrite begin_results_app, Ht. cbn.
    split; [done|]. split; [lia | constructor]. }
  destruct (op_bool opHandle) eqn:Evalid.
  { do 2 runs_step. rewrite <- app_assoc. by apply Hexit. }
  wp_red. case_bool_decide as Eerr; [|do 2 runs_step; rewrite <- app_assoc; by apply Hexit].
  do 2 runs_step. intros [newKey|] s2 Eup;
    [|do 2 runs_step; rewrite <- !app_assoc; by apply Hexit].
  do 2 runs_step. intros [] s3 _;
    [|do 2 runs_step; rewrite <- !app_assoc; by apply Hexit].
  do 2 runs_step. intros rc s4 _.
  case_bool_decide;
    [|do 2 runs_step; rewrite <- !app_assoc; by apply Hexit].
  do 2 runs_step. intros ok s5 _. runs_step.
  pose proof (upgrades_descend _ _ _ _ _ _ _ _ _ _ _ Ebegin Evalid Eerr Eup)
    as Hrank.
  eapply runs_mono; [apply (IH newKey); clear -Hrank Hfuel; lia|].
  intros r w' tr (Hne & Hlen & Hall).
  rewrite <- !app_assoc, !begin_results_app.
  destruct (begin_results tr) as [|b bs] eqn:Ebs; [done|].
  cbn [begin_results omap list_omap app fst snd]. rewrite Eerr.
  split; [done|]. split; [cbn [length] in *; lia|].
  cbn [removelast app]. by constructor.
Qed.

(** C6.  Provided the service offers only finitely many upgrades in a
    row, [begin] returns as soon as its fuel exceeds the rank of the stored
    key blob: it never runs out of fuel.  It calls [Keymaster::begin] at
    most once more than that rank, and every call but the last was answered
    with KEY_REQUIRES_UPGRADE: no other failure is followed by another
    attempt. *)
Theorem C6_begin_terminates fuel dir purpose keyParams opParams outParams w :
  (∀ kmKey,
     ReadFileToString (path dir kFn_keymaster_key_blob) (w_fs w) = Some kmKey →
     rank kmKey < fuel) →
  ∃ r w' tr,
    begin fuel dir purpose keyParams opParams outParams w = Returns r w' tr
    ∧ (∀ kmKey,
         ReadFileToString (path dir kFn_keymaster_key_blob) (w_fs w)
         = Some kmKey →
         length (begin_results tr) ≤ S (rank kmKey))
    ∧ Forall upgrade_required (removelast (begin_results tr)).
Proof using upgrades_descend.
  intros Hfuel. apply runs_elim. unfold begin. do 2 runs_step.
  destruct (ReadFileToString _ _) as [kmKey|] eqn:Eblob.
  - eapply runs_mono; [apply begin_loop_terminates; by apply Hfuel|].
    intros r w' tr (_ & Hlen & Hall). cbn [app begin_results omap list_omap].
    split; [|done]. by intros ? [= <-].
  - runs_step. split; [done|]. constructor.
Qed.

End Upgrade.

(** ** Buffers of the software cipher *)

Lemma resize_pad n s : length s ≤ n → resize n s = s ++ replicate (n - length s) NUL.
Proof. intros Hn. unfold resize. by rewrite take_ge. Qed.

Lemma poke_app (a b c data : bytes) off :
  length a = off → length data = length b →
  poke (a ++ b ++ c) off data = a ++ data ++ c.
Proof.
  intros Ha Hd. unfold poke. rewrite take_app_length' by done.
  rewrite drop_app_add' by done. by rewrite Hd, drop_app_length.
Qed.

(** The buffer [encryptWithoutKeymaster] returns: nonce, body and tag side
    by side. *)
Lemma ciphertext_layout (rnd body tag : bytes) n :
  length rnd = GCM_NONCE_BYTES → length body = n → length tag = GCM_MAC_BYTES →
  poke (poke (poke (resize (GCM_NONCE_BYTES + n + GCM_MAC_BYTES) rnd)
                   GCM_NONCE_BYTES body)
             (GCM_NONCE_BYTES + n) [])
       (GCM_NONCE_BYTES + n) tag
  = rnd ++ body ++ tag.
Proof.
  intros Hr Hb Ht. rewrite resize_pad by lia. rewrite Hr.
  replace (GCM_NONCE_BYTES + n + GCM_MAC_BYTES - GCM_NONCE_BYTES)
    with (n + GCM_MAC_BYTES) by lia.
  rewrite replicate_add.
  rewrite (poke_app rnd (replicate n NUL)) by (by rewrite ?length_replicate).
  rewrite poke_nil by (rewrite !length_app, length_replicate; lia).
  rewrite <- (app_nil_r (replicate GCM_MAC_BYTES NUL)).
  rewrite (app_assoc rnd body).
  rewrite (poke_app (rnd ++ body) (replicate GCM_MAC_BYTES NUL) [])
    by (by rewrite ?length_app, ?length_replicate; lia).
  by rewrite app_nil_r, <- app_assoc.
Qed.

Section RoundTrip.
Context `{Platform}.

(** *** What the round trip asks of the platform *)

(** A file holds what was last written to it, and writing one file does
    not change another. *)
Hypothesis write_read : ∀ payload f s s',
  WriteStringToFile payload f s = (true, s') →
  ReadFileToString f s' = Some payload.
Hypothesis write_other : ∀ payload f s ok s' g,
  WriteStringToFile payload f s = (ok, s') → g ≠ f →
  ReadFileToString g s' = ReadFileToString g s.
(** A successful rename moves the contents and touches no third file. *)
Hypothesis rename_moves : ∀ from to s s',
  rename from to s = (0%Z, s') →
  ReadFileToString to s' = ReadFileToString from s
  ∧ ∀ g, g ≠ from → g ≠ to → ReadFileToString g s' = ReadFileToString g s.
(** The entropy source hands out as many bytes as were asked for. *)
Hypothesis random_length : ∀ count s out s',
  ReadRandomBytes count s = (0%Z, out, s') → length out = count.
(** Cipher contexts can always be allocated. *)
Hypothesis ctx_new_succeeds : ∀ s, is_Some (EVP_CIPHER_CTX_new s).1.
(** AES-GCM of OpenSSL: encryption preserves the length, the tag has the
    length asked for, and decrypting under the same key and IV with that
    tag gives the plaintext back and verifies. *)
Hypothesis evp_seals : ∀ c0 key iv pt c1 body c2 fin c3 buf tag c4,
  EVP_EncryptInit_ex c0 key iv = (1%Z, c1) →
  EVP_EncryptUpdate c1 pt = (1%Z, body, c2) →
  EVP_EncryptFinal_ex c2 = (1%Z, fin, c3) →
  EVP_CIPHER_CTX_ctrl c3 EVP_CTRL_GCM_GET_TAG GCM_MAC_BYTES buf
  = (1%Z, tag, c4) →
  length body = length pt ∧ length tag = GCM_MAC_BYTES
  ∧ ∀ d0, ∃ d1 d2 x d3 d4,
      EVP_DecryptInit_ex d0 key iv = (1%Z, d1)
      ∧ EVP_DecryptUpdate d1 body = (1%Z, pt, d2)
      ∧ EVP_CIPHER_CTX_ctrl d2 EVP_CTRL_GCM_SET_TAG GCM_MAC_BYTES tag
        = (1%Z, x, d3)
      ∧ EVP_DecryptFinal_ex d3 = (1%Z, [], d4).

Lemma runs_hashWithPrefix prefix tohash w
    (Φ : bytes → World → list Event → Prop) :
  Φ (poke (assign SHA512_DIGEST_LENGTH NUL) 0
       (SHA512 (resize SHA512_CBLOCK prefix ++ tohash)))
    w [E_SHA512 (resize SHA512_CBLOCK prefix ++ tohash)] →
  runs (hashWithPrefix prefix tohash) w Φ.
Proof using Type. unfold runs. by rewrite hashWithPrefix_wp. Qed.

Lemma soft_round_trip preKey plaintext ct0 w :
  wp (encryptWithoutKeymaster preKey plaintext ct0) w (λ r w' _,
    r.1 = true →
    w_fs w' = w_fs w ∧ w_km w' = w_km w
    ∧ ∀ out v, runs (decryptWithoutKeymaster preKey r.2 out) v
                    (λ r' _ _, r' = (true, plaintext))).
Proof using random_length ctx_new_succeeds evp_seals.
  unfold encryptWithoutKeymaster. wp_step. apply wp_hashWithPrefix.
  set (key := resize AES_KEY_BYTES _).
  wp_step. apply readRandomBytesOrLog_wp. intros status rnd s Ernd.
  case_bool_decide as Est; [subst status|wp_step; cbn [fst]; done].
  apply random_length in Ernd as Hrnd.
  do 2 wp_step. intros [ctx|] s1 _; [|wp_step; cbn [fst]; done].
  do 2 wp_step.
  destruct (EVP_EncryptInit_ex ctx key (iv_at rnd)) as [rc ctx1] eqn:Einit.
  case_bool_decide; [subst rc|wp_step; cbn [fst]; done].
  do 2 wp_step.
  destruct (EVP_EncryptUpdate ctx1 plaintext) as [[rc2 body] ctx2] eqn:Eupd.
  case_bool_decide; [subst rc2|wp_step; cbn [fst]; done].
  case_bool_decide as Elen; [|wp_step; cbn [fst]; done].
  do 2 wp_step.
  destruct (EVP_EncryptFinal_ex ctx2) as [[rc3 fin] ctx3] eqn:Efin.
  case_bool_decide; [subst rc3|wp_step; cbn [fst]; done].
  case_bool_decide as Efin0; [|wp_step; cbn [fst]; done].
  do 2 wp_step.
  destruct (EVP_CIPHER_CTX_ctrl ctx3 EVP_CTRL_GCM_GET_TAG GCM_MAC_BYTES _)
    as [[rc4 tag] ctx4] eqn:Etag.
  case_bool_decide; [subst rc4|wp_step; cbn [fst]; done].
  wp_step. intros _. cbn [fst snd]. split; [done|]. split; [done|].
  destruct fin; [|done]. clear Efin0.
  destruct (evp_seals _ _ _ _ _ _ _ _ _ _ _ _ Einit Eupd Efin Etag)
    as (Hbody & Htag & Hdec).
  rewrite (ciphertext_layout rnd body tag (length plaintext)) by done.
  intros out v. unfold decryptWithoutKeymaster.
  rewrite decide_False
    by (rewrite !length_app; unfold GCM_NONCE_BYTES, GCM_MAC_BYTES in *; lia).
  runs_step. apply runs_hashWithPrefix. fold key.
  do 2 runs_step. intros c s2 Ec.
  destruct (ctx_new_succeeds (w_os v)) as [d0 Ed0]. rewrite Ec in Ed0.
  cbn [fst] in Ed0. subst c.
  destruct (Hdec d0) as (d1 & d2 & x & d3 & d4 & D1 & D2 & D3 & D4).
  assert (iv_at (rnd ++ body ++ tag) = iv_at rnd) as ->.
  { unfold iv_at. rewrite take_app_length' by done.
    by rewrite <- Hrnd, firstn_all. }
  do 2 runs_step. rewrite D1. rewrite bool_decide_eq_true_2 by done.
  assert (length (rnd ++ body ++ tag) - GCM_NONCE_BYTES - GCM_MAC_BYTES
          = length plaintext) as ->
    by (rewrite !length_app; lia).
  rewrite resize_length.
  assert (take (length plaintext) (drop GCM_NONCE_BYTES (rnd ++ body ++ tag))
          = body) as ->.
  { rewrite drop_app_length' by done. by rewrite take_app_length'. }
  do 2 runs_step. rewrite D2. cbn [fst snd].
  rewrite bool_decide_eq_true_2 by done.
  rewrite Hbody in Elen. rewrite bool_decide_eq_true_2 by done.
  assert (take GCM_MAC_BYTES
            (drop (GCM_NONCE_BYTES + length plaintext) (rnd ++ body ++ tag))
          = tag) as ->.
  { rewrite app_assoc, drop_app_length' by (rewrite length_app; lia).
    by rewrite <- Htag, firstn_all. }
  do 2 runs_step. rewrite D3. rewrite bool_decide_eq_true_2 by done.
  do 2 runs_step. rewrite D4. cbn [fst snd length].
  rewrite !bool_decide_eq_true_2 by done.
  runs_step.
  rewrite poke_all by (by rewrite resize_length).
  by rewrite poke_nil.
Qed.

(** A default-constructed operation is not a valid one. *)
Hypothesis default_operation_invalid : op_bool KeymasterOperation_default = false.
(** The Keymaster service: what an operation begun for encryption under a
    key blob produced, an operation begun for decryption under the same
    blob and parameters, with the nonce that was generated, turns back into
    the message; and the service stays available. *)
Hypothesis keymaster_seals :
  ∀ s blob keyParams o opHandle outParams s1 nonce message body s2 mac s3,
    GetTagValue TAG_NONCE keyParams = None →
    Keymaster_begin ENCRYPT blob keyParams o s = (opHandle, outParams, s1) →
    op_bool opHandle = true →
    GetTagValue TAG_NONCE (default [] outParams) = Some nonce →
    updateCompletely opHandle message s1 = (true, body, s2) →
    finish opHandle true s2 = (true, mac, s3) →
    Keymaster_bool s3 = true
    ∧ ∃ opHandle' o' s4 s5 x s6,
        Keymaster_begin DECRYPT blob
          (keyParams ++ [(TAG_NONCE, V_blob nonce)]) None s3
        = (opHandle', o', s4)
        ∧ op_bool opHandle' = true
        ∧ updateCompletely opHandle' (body ++ mac) s4 = (true, message, s5)
        ∧ finish opHandle' false s5 = (true, x, s6).

(** [begin] leaves in the blob file the key blob under which the valid
    operation it returns was begun. *)
Lemma begin_commits fuel dir purpose keyParams opParams outParams w :
  c_str dir = dir →
  wp (begin fuel dir purpose keyParams opParams outParams) w (λ r w' _,
    op_bool r.1 = true →
    blob_frame dir w w'
    ∧ ∃ kmKey o s,
        ReadFileToString (path dir kFn_keymaster_key_blob) (w_fs w')
        = Some kmKey
        ∧ Keymaster_begin purpose kmKey (keyParams ++ opParams) o s
          = (r.1, r.2, w_km w')).
Proof using write_read write_other rename_moves default_operation_invalid.
  intros Hdir. unfold begin. do 2 wp_step.
  destruct (ReadFileToString _ _) as [kmKey0|] eqn:Eblob.
  2:{ wp_step. cbn [fst]. by rewrite default_operation_invalid. }
  eapply wp_mono.
  - apply (wp_for_ever _ (λ _, True)
      (λ st w', blob_frame dir w w'
                ∧ ReadFileToString (path dir kFn_keymaster_key_blob) (w_fs w')
                  = Some st.1)
      (λ r w', op_bool r.1 = true →
               blob_frame dir w w'
               ∧ ∃ kmKey o s,
                   ReadFileToString (path dir kFn_keymaster_key_blob)
                     (w_fs w') = Some kmKey
                   ∧ Keymaster_begin purpose kmKey (keyParams ++ opParams) o s
                     = (r.1, r.2, w_km w'))); [|done].
    intros [kmKey o] v [Hframe Hread]. cbn [fst] in Hread.
    unfold begin_body. do 2 wp_step.
    intros [opHandle o'] s1 Ebegin. wsimp.
    destruct (op_bool opHandle) eqn:Evalid.
    { wp_step. split; [by repeat constructor|]. intros _. split; [done|].
      cbn [fst snd w_fs w_km]. eauto. }
    wp_red. case_bool_decide.
    2:{ wp_step. split; [by repeat constructor|]. cbn [fst]. congruence. }
    do 2 wp_step. intros [newKey|] s2 _.
    2:{ wp_step. split; [by repeat constructor|].
        cbn [fst]. by rewrite default_operation_invalid. }
    do 2 wp_step. intros [] s3 Ewrite; wsimp.
    2:{ wp_step. split; [by repeat constructor|].
        cbn [fst]. by rewrite default_operation_invalid. }
    rewrite !c_str_path by done.
    do 2 wp_step. intros rc s4 Erename. wsimp.
    case_bool_decide as Erc.
    2:{ wp_step. split; [by repeat constructor|].
        cbn [fst]. by rewrite default_operation_invalid. }
    subst rc. destruct (rename_moves _ _ _ _ Erename) as [Hto Hrest].
    do 2 wp_step. intros ok s5 _. wp_step.
    split; [by repeat constructor|]. cbn [fst w_fs]. split.
    + intros g Hg1 Hg2. cbn [w_fs]. rewrite Hrest by done.
      rewrite (write_other _ _ _ _ _ g Ewrite) by done. by apply Hframe.
    + rewrite Hto. by apply (write_read _ _ _ _ Ewrite).
  - by intros [h o] w' tr [_ Hq].
Qed.

Lemma hard_round_trip fuel dir keyParams message ct0 w :
  c_str dir = dir → GetTagValue TAG_NONCE keyParams = None →
  wp (encryptWithKeymasterKey fuel dir keyParams message ct0) w (λ r w' _,
    r.1 = true →
    blob_frame dir w w' ∧ Keymaster_bool (w_km w') = true
    ∧ ∀ fuel' out v,
        0 < fuel' → w_km v = w_km w' →
        ReadFileToString (path dir kFn_keymaster_key_blob) (w_fs v)
        = ReadFileToString (path dir kFn_keymaster_key_blob) (w_fs w') →
        runs (decryptWithKeymasterKey fuel' dir keyParams r.2 out) v
             (λ r' _ _, r' = (true, message))).
Proof using write_read write_other rename_moves default_operation_invalid
  keymaster_seals.
  intros Hdir Hkp. unfold encryptWithKeymasterKey. wp_step.
  eapply wp_mono; [by apply begin_commits|].
  intros [opHandle outParams] w1 t Hb. cbn [fst snd] in Hb.
  destruct (op_bool opHandle) eqn:Evalid; [|wp_step; cbn [fst]; done].
  destruct (Hb eq_refl) as (Hframe & kmKey & o & s & Hblob & Ebegin).
  rewrite app_nil_r in Ebegin. wp_red.
  destruct (GetTagValue TAG_NONCE (default [] outParams)) as [nonce|] eqn:En;
    [|wp_step; cbn [fst]; done].
  unfold checkSize at 1. case_decide as Hn; [wp_step; cbn [fst]; done|].
  do 2 wp_step. intros [[] body] s2 Eupd; [|wp_step; cbn [fst]; done].
  do 2 wp_step. intros [[] mac] s3 Efin; [|wp_step; cbn [fst]; done].
  wsimp. unfold checkSize. case_decide as Hm; [wp_step; cbn [fst]; done|].
  wp_step. intros _. cbn [fst snd w_fs w_km].
  destruct (keymaster_seals _ _ _ _ _ _ _ _ _ _ _ _ _ Hkp Ebegin Evalid En
              Eupd Efin)
    as (Havail & h' & o' & s4 & s5 & x & s6 & Dbegin & Dvalid & Dupd & Dfin).
  split; [done|]. split; [done|].
  intros fuel' out v Hfuel Hkm Hread. cbn [w_fs] in Hread.
  unfold decryptWithKeymasterKey, substr.
  rewrite decide_True by lia.
  rewrite decide_True by (rewrite length_app; lia).
  rewrite drop_0, take_app_length', drop_app_length' by done.
  runs_step. unfold begin. do 2 runs_step. rewrite Hread, Hblob.
  destruct fuel' as [|fuel']; [lia|]. cbn [for_ever].
  runs_step. unfold begin_body. do 2 runs_step.
  intros [h1 o1] s7 Ebegin'. wsimp. rewrite Hkm in Ebegin'.
  change (Authorization TAG_NONCE (V_blob nonce) AuthorizationSetBuilder)
    with [(TAG_NONCE, V_blob nonce)] in Ebegin'.
  rewrite Dbegin in Ebegin'. injection Ebegin' as <- <- <-.
  rewrite Dvalid. do 2 runs_step. rewrite Dvalid.
  do 2 runs_step. intros [ok msg] s8 Eupd'. wsimp. rewrite Dupd in Eupd'.
  injection Eupd' as <- <- <-.
  do 2 runs_step. intros [ok x'] s9 Efin'. wsimp. rewrite Dfin in Efin'.
  injection Efin' as <- <- <-. by runs_step.
Qed.

(** The appId is a function of its arguments: the world is not consulted. *)
Lemma generateAppId_stateless auth stretching salt secdiscardable appId0 w r w' tr :
  generateAppId auth stretching salt secdiscardable appId0 w = Returns r w' tr →
  ∀ v, generateAppId auth stretching salt secdiscardable appId0 v
       = Returns r v tr.
Proof using Type.
  unfold generateAppId, stretchSecret, hashWithPrefix, call, throw_out_of_range,
    mbind, M_bind, mret, M_ret.
  repeat case_bool_decide; try (by intros [= <- <- <-]).
  destruct (std_equal _ _) as [[]|]; try (by intros [= <- <- <-]).
  destruct (substr _ _ _); try (by intros [= <- <- <-]).
  destruct (parse_scrypt_parameters _) as [[[Nf rf] pf]|];
    try (by intros [= <- <- <-]).
  destruct (crypto_scrypt _ _ _ _ _ _) as [rc out]. cbn [fst snd].
  case_bool_decide; by intros [= <- <- <-].
Qed.

Lemma beginParams_no_nonce auth appId :
  GetTagValue TAG_NONCE (beginParams auth appId) = None.
Proof using Type. unfold beginParams. by case_bool_decide. Qed.

Lemma retrievable_intro dir auth key w secdiscardable stretching salt appId ct t :
  ReadFileToString (path dir kFn_version) (w_fs w) = Some kCurrentVersion →
  ReadFileToString (path dir kFn_secdiscardable) (w_fs w)
  = Some secdiscardable →
  ReadFileToString (path dir kFn_stretching) (w_fs w) = Some stretching →
  (if stretchingNeedsSalt stretching
   then ReadFileToString (path dir kFn_salt) (w_fs w) = Some salt
   else salt = []) →
  (∀ v, generateAppId auth stretching salt secdiscardable [] v
        = Returns (true, appId) v t) →
  ReadFileToString (path dir kFn_encrypted_key) (w_fs w) = Some ct →
  (if usesKeymaster auth
   then Keymaster_bool (w_km w) = true
        ∧ ∀ fuel out,
            0 < fuel →
            runs (decryptWithKeymasterKey fuel dir (beginParams auth appId)
                    ct out) w (λ r _ _, r = (true, key))
   else ∀ out, runs (decryptWithoutKeymaster appId ct out) w
                    (λ r _ _, r = (true, key))) →
  retrievable dir auth key w.
Proof using Type.
  intros Hv Hsd Hst Hsalt Happ Hct Hdec fuel out Hfuel.
  unfold retrieveKey. do 2 runs_step. rewrite Hv.
  wp_red. rewrite bool_decide_eq_true_2 by done.
  do 2 runs_step. rewrite Hsd. do 2 runs_step. rewrite Hst. runs_step.
  assert (runs (if stretchingNeedsSalt stretching
                then readFileToString (path dir kFn_salt)
                else mret (Some [])) w
               (λ a w' _, a = Some salt ∧ w' = w)) as Hs.
  { destruct (stretchingNeedsSalt stretching); runs_step;
      [by rewrite Hsalt | by subst]. }
  eapply runs_mono; [exact Hs|]. intros ? ? ? [-> ->].
  runs_step. eapply runs_intro; [apply Happ|].
  do 2 runs_step. rewrite Hct. wp_red.
  destruct (usesKeymaster auth).
  - destruct Hdec as [Havail Hdec]. do 2 runs_step. rewrite Havail. wp_red.
    eapply runs_mono; [by apply Hdec|]. by intros ? ? ? ->.
  - eapply runs_mono; [by apply Hdec|]. by intros ? ? ? ->.
Qed.

(** Carry what is known of the files across a write to another file. *)
Ltac carry Ew :=
  repeat match goal with
         | Hr : ReadFileToString ?f ?s = Some _,
           Ew' : WriteStringToFile _ ?g ?s = (_, ?s') |- _ =>
             rewrite <- (write_other _ _ _ _ _ f Ew'
                           ltac:(by apply path_ne)) in Hr
         end;
  pose proof (write_read _ _ _ _ Ew).

Lemma storeKey_retrievable fuel dir auth key w :
  c_str dir = dir →
  wp (storeKey fuel dir auth key) w (λ r w1 _,
    r = true → retrievable dir auth key w1).
Proof using All.
  intros Hdir. unfold storeKey. do 2 wp_step. intros rc s0 _.
  case_bool_decide; [by wp_step|].
  do 2 wp_step. intros [] s1 Wv; [|by wp_step]. wsimp. carry Wv.
  wp_step. apply readRandomBytesOrLog_wp. intros status sd os1 _.
  destruct (bool_decide (status = 0%Z)); [|by wp_step].
  do 2 wp_step. intros [] s2 Wsd; [|by wp_step]. wsimp. carry Wsd.
  wp_step. apply wp_getStretching. intros tg _. cbn [w_os].
  set (st := stretching_policy auth os1).
  do 2 wp_step. intros [] s3 Wst; [|by wp_step]. wsimp. carry Wst.
  wp_step.
  (* the salt block *)
  apply (wp_mono _ _ (λ a w' _,
    ∀ salt, a = Some salt →
      w_km w' = w_km w
      ∧ ReadFileToString (path dir kFn_version) (w_fs w')
        = Some kCurrentVersion
      ∧ ReadFileToString (path dir kFn_secdiscardable) (w_fs w') = Some sd
      ∧ ReadFileToString (path dir kFn_stretching) (w_fs w') = Some st
      ∧ (if stretchingNeedsSalt st
         then ReadFileToString (path dir kFn_salt) (w_fs w') = Some salt
         else salt = []))).
  { destruct (stretchingNeedsSalt st).
    - do 2 wp_step. intros [status2 salt] os2 _.
      destruct (bool_decide (status2 = 0%Z)); [|by wp_step].
      do 2 wp_step. intros [] s4 Wsalt; [|by wp_step]. wsimp. carry Wsalt.
      wp_step. intros ? [= <-]. by repeat split.
    - wp_step. intros ? [= <-]. by repeat split. }
  intros [salt|] w4 t4 Hfacts; [|by wp_step].
  destruct (Hfacts salt eq_refl) as (Hkm4 & Hv & Hsd & Hst & Hsalt).
  clear Hfacts. wp_step. unfold wp at 1.
  destruct (generateAppId auth st salt sd [] w4) as [[ok appId] w5 t5| |]
    eqn:Eapp; [|done..].
  pose proof (generateAppId_stateless _ _ _ _ _ _ _ _ _ Eapp) as Happ.
  rewrite (Happ w4) in Eapp. injection Eapp as <-.
  destruct ok; [|by wp_step]. wp_step.
  destruct (usesKeymaster auth) eqn:Euses.
  - do 2 wp_step. destruct (Keymaster_bool (w_km w4)); [|by do 2 wp_step].
    wp_step. eapply wp_mono; [apply generateKeymasterKey_footprint|].
    intros [kmKey|] w6 t6 (_ & Hfs6 & _); [|by do 2 wp_step].
    rewrite <- Hfs6 in Hv, Hsd, Hst, Hsalt.
    do 2 wp_step. intros [] s7 Wblob; [|by do 2 wp_step]. wsimp.
    wp_red.
    eapply wp_mono;
      [apply (hard_round_trip _ _ _ _ _ _ Hdir (beginParams_no_nonce _ _))|].
    intros [[] ct] w8 t8 Henc; [|by wp_step].
    destruct (Henc eq_refl) as (Hframe & Havail & Hdec). cbn [snd] in Hdec.
    do 2 wp_step. intros [] s9 Wct; [|by wp_step]. wsimp.
    wp_step. intros _.
    assert (∀ name c, name ≠ kFn_keymaster_key_blob →
              name ≠ kFn_keymaster_key_blob_upgraded →
              name ≠ kFn_encrypted_key →
              ReadFileToString (path dir name) (w_fs w6) = Some c →
              ReadFileToString (path dir name) s9 = Some c) as Hkeep.
    { intros name c N1 N2 N3 Hr.
      rewrite (write_other _ _ _ _ _ _ Wct) by (by apply path_ne).
      rewrite Hframe by (by apply path_ne). cbn [w_fs].
      by rewrite (write_other _ _ _ _ _ _ Wblob) by (by apply path_ne). }
    eapply (retrievable_intro _ _ _ _ sd st salt appId ct); cbn [w_fs w_km].
    + by apply Hkeep.
    + by apply Hkeep.
    + by apply Hkeep.
    + destruct (stretchingNeedsSalt st); [by apply Hkeep | done].
    + apply Happ.
    + by apply (write_read _ _ _ _ Wct).
    + rewrite Euses. split; [done|]. intros fuel' out Hfuel.
      apply Hdec; [done | done |]. cbn [w_fs].
      by apply (write_other _ _ _ _ _ _ Wct), path_ne.
  - eapply wp_mono; [apply soft_round_trip|].
    intros [[] ct] w6 t6 Henc; [|by wp_step].
    destruct (Henc eq_refl) as (Hfs6 & _ & Hdec). cbn [snd] in Hdec.
    do 2 wp_step. intros [] s9 Wct; [|by wp_step]. wsimp.
    wp_step. intros _. rewrite Hfs6 in Wct.
    assert (∀ name c, name ≠ kFn_encrypted_key →
              ReadFileToString (path dir name) (w_fs w4) = Some c →
              ReadFileToString (path dir name) s9 = Some c) as Hkeep.
    { intros name c N Hr.
      by rewrite (write_other _ _ _ _ _ _ Wct) by (by apply path_ne). }
    eapply (retrievable_intro _ _ _ _ sd st salt appId ct); cbn [w_fs w_km].
    + by apply Hkeep.
    + by apply Hkeep.
    + by apply Hkeep.
    + destruct (stretchingNeedsSalt st); [by apply Hkeep | done].
    + apply Happ.
    + by apply (write_read _ _ _ _ Wct).
    + rewrite Euses. intros out. apply Hdec.
Qed.

(** C1.  On a platform whose files hold what was written to them, whose
    ciphers decrypt what they encrypted and whose entropy source and
    allocator deliver, a [storeKey] that succeeded is followed by a
    [retrieveKey] under the same credentials that succeeds and gives the
    stored key back, with or without the Keymaster, whatever the key and the
    credentials. *)
Theorem C1_round_trip fuel dir auth key w w1 tr :
  c_str dir = dir →
  storeKey fuel dir auth key w = Returns true w1 tr →
  ∀ fuel' out, 0 < fuel' →
    ∃ w2 tr2, retrieveKey fuel' dir auth out w1 = Returns (true, key) w2 tr2.
Proof using All.
  intros Hdir Hstore fuel' out Hfuel.
  pose proof (wp_elim _ _ _ _ _ _ (storeKey_retrievable fuel dir auth key w Hdir)
                Hstore eq_refl) as Hret.
  destruct (runs_elim _ _ _ (Hret fuel' out Hfuel)) as (r & w2 & tr2 & E & ->).
  eauto.
Qed.

End RoundTrip.

(** ** Properties stated by the specification *)

Ltac no_update H :=
  exfalso; cbn [app] in H;
  rewrite ?Forall_app, ?Forall_cons in H; cbn [is_update] in H;
  intuition discriminate.

Section Claims.
Context `{Platform}.

Lemma bind_ext {A B} (m m' : M A) (k k' : A → M B) w :
  m w = m' w →
  (∀ a w1 t1, m w = Returns a w1 t1 → k a w1 = k' a w1) →
  (m ≫= k) w = (m' ≫= k') w.
Proof.
  intros Hm Hk. unfold mbind, M_bind. rewrite <- Hm.
  destruct (m w) as [a w1 t1| |]; [|done..]. by rewrite (Hk a w1 t1).
Qed.

Lemma stretchSecret_total stretching secret salt stretched w :
  runs (stretchSecret stretching secret salt stretched) w (λ _ _ _, True).
Proof.
  unfold stretchSecret. repeat (case_bool_decide; [by runs_step|]).
  rewrite std_equal_scrypt. case_bool_decide as Hpre; [|by runs_step].
  apply prefix_length in Hpre. unfold substr. rewrite decide_True by done.
  repeat total_step.
Qed.

Lemma generateAppId_total auth stretching salt secdiscardable appId w :
  runs (generateAppId auth stretching salt secdiscardable appId) w
       (λ _ _ _, True).
Proof.
  unfold generateAppId. runs_step.
  eapply runs_mono; [apply stretchSecret_total|].
  intros [[] stretched] w' tr _; [|by runs_step].
  unfold hashWithPrefix. repeat total_step.
Qed.

Lemma decryptWithKeymasterKey_failure fuel dir keyParams ct message w :
  wp (decryptWithKeymasterKey fuel dir keyParams ct message) w (λ r _ tr,
    r.1 = false → Forall (λ e, is_update e = false) tr → r.2 = message).
Proof.
  unfold decryptWithKeymasterKey.
  destruct (substr ct 0 _); [|apply wp_throw].
  destruct (substr ct _ _); [|apply wp_throw].
  wp_step. eapply wp_mono; [apply begin_footprint|].
  intros [opHandle o] w1 t1 _.
  destruct (op_bool opHandle); [|by wp_step].
  do 2 wp_step. intros [[] msg] s1 _.
  - do 2 wp_step. intros [[] x] s2 _; wp_step; intros Hr Hall;
      [done | no_update Hall].
  - wp_step. intros _ Hall. no_update Hall.
Qed.

Lemma decryptWithoutKeymaster_failure preKey ct plaintext w :
  wp (decryptWithoutKeymaster preKey ct plaintext) w (λ r _ tr,
    r.1 = false → Forall (λ e, is_update e = false) tr → r.2 = plaintext).
Proof.
  unfold decryptWithoutKeymaster. case_decide; [by wp_step|].
  wp_step. apply wp_hashWithPrefix.
  do 2 wp_step. intros [ctx|] s1 _; [|by wp_step].
  do 2 wp_step. destruct (EVP_DecryptInit_ex _ _ _) as [rc ctx1].
  destruct (bool_decide (rc = 1%Z)); [|by wp_step].
  do 2 wp_step. destruct (EVP_DecryptUpdate _ _) as [[rc2 out] ctx2].
  destruct (bool_decide (rc2 = 1%Z));
    [|wp_step; intros _ Hall; no_update Hall].
  destruct (bool_decide (_ = static_cast_int _));
    [|wp_step; intros _ Hall; no_update Hall].
  do 2 wp_step. destruct (EVP_CIPHER_CTX_ctrl _ _ _ _) as [[rc4 tag] ctx4].
  destruct (bool_decide (rc4 = 1%Z));
    [|wp_step; intros _ Hall; no_update Hall].
  do 2 wp_step. destruct (EVP_DecryptFinal_ex _) as [[rc3 out3] ctx3].
  destruct (bool_decide (rc3 = 1%Z));
    [|wp_step; intros _ Hall; no_update Hall].
  destruct (bool_decide (_ = 0%Z)); wp_step; intros Hr Hall;
    [done | no_update Hall].
Qed.

(** C8.  A stretching specification that is not "nopassword", not "none"
    and does not start with the scrypt tag makes [stretchSecret] fail,
    whatever the secret and the salt: nothing is called, [*stretched] is not
    touched, and in particular the secret is not passed through as it would
    be for "none". *)
Theorem C8_unknown_stretching_fails stretching secret salt stretched w :
  stretching ≠ kStretch_nopassword →
  stretching ≠ kStretch_none →
  ¬ kStretchPrefix_scrypt `prefix_of` stretching →
  stretchSecret stretching secret salt stretched w
  = Returns (false, stretched) w [].
Proof.
  intros Hnp Hnone Hpre. unfold stretchSecret.
  rewrite !bool_decide_eq_false_2 by done.
  by rewrite std_equal_scrypt, bool_decide_eq_false_2.
Qed.

(** C5.  When the version file holds anything but the current version,
    [retrieveKey] fails having made one call only, the read of that file:
    no hashing, no stretching, no cipher and no Keymaster call is
    attempted, the world is unchanged and so is [*key]. *)
Theorem C5_version_gate fuel dir auth key w version :
  ReadFileToString (path dir kFn_version) (w_fs w) = Some version →
  version ≠ kCurrentVersion →
  retrieveKey fuel dir auth key w
  = Returns (false, key) w
      [E_ReadFileToString (path dir kFn_version) (Some version)]
  ∧ is_crypto (E_ReadFileToString (path dir kFn_version) (Some version))
    = false.
Proof.
  intros Hv Hne. split; [|done]. unfold retrieveKey.
  erewrite bind_returns; [|unfold readFileToString; by rewrite Hv].
  cbv beta iota. by rewrite bool_decide_eq_false_2.
Qed.

(** C4.  [destroyKey] runs its three steps one after the other, each from
    the world the previous one left and whatever the previous ones
    returned.  First [deleteKey]: it reads the blob file and, when there is
    a blob and the Keymaster is available, has the Keymaster delete this
    blob; these are all the calls it makes, and it touches no file.  Then
    the secure-overwrite utility and the recursive removal are spawned with
    their argument lists, each on the files the step before left.  The
    result is the conjunction of the three outcomes, the final world is the
    one the removal left, and the calls made are those of the three steps in
    this order. *)
Theorem C4_destroyKey_runs_every_step dir w :
  ∃ r1 w1 t1 rc2 s2 rc3 s3,
    deleteKey dir w = Returns r1 w1 t1
    ∧ w_fs w1 = w_fs w ∧ w_os w1 = w_os w
    ∧ match ReadFileToString (path dir kFn_keymaster_key_blob) (w_fs w) with
      | Some kmKey =>
          if Keymaster_bool (w_km w)
          then Keymaster_deleteKey kmKey (w_km w) = (r1, w_km w1)
               ∧ t1 = [E_ReadFileToString (path dir kFn_keymaster_key_blob)
                         (Some kmKey);
                       E_Keymaster (Km_connect true);
                       E_Keymaster (Km_deleteKey kmKey r1)]
          else r1 = false ∧ w_km w1 = w_km w
               ∧ t1 = [E_ReadFileToString (path dir kFn_keymaster_key_blob)
                         (Some kmKey);
                       E_Keymaster (Km_connect false)]
      | None =>
          r1 = false ∧ w_km w1 = w_km w
          ∧ t1 = [E_ReadFileToString (path dir kFn_keymaster_key_blob) None]
      end
    ∧ ForkExecvp [kSecdiscardPath; lit "--"; path dir kFn_encrypted_key;
                  path dir kFn_keymaster_key_blob;
                  path dir kFn_secdiscardable] (w_fs w1)
      = (rc2, s2)
    ∧ runSecdiscard dir w1
      = Returns (bool_decide (rc2 = 0%Z))
          {| w_fs := s2; w_km := w_km w1; w_os := w_os w1 |}
          [E_ForkExecvp [kSecdiscardPath; lit "--";
                         path dir kFn_encrypted_key;
                         path dir kFn_keymaster_key_blob;
                         path dir kFn_secdiscardable] rc2]
    ∧ ForkExecvp [kRmPath; lit "-rf"; dir] s2 = (rc3, s3)
    ∧ recursiveDeleteKey dir {| w_fs := s2; w_km := w_km w1; w_os := w_os w1 |}
      = Returns (bool_decide (rc3 = 0%Z))
          {| w_fs := s3; w_km := w_km w1; w_os := w_os w1 |}
          [E_ForkExecvp [kRmPath; lit "-rf"; dir] rc3]
    ∧ destroyKey dir w
      = Returns (r1 && bool_decide (rc2 = 0%Z) && bool_decide (rc3 = 0%Z))
          {| w_fs := s3; w_km := w_km w1; w_os := w_os w1 |}
          (t1 ++ [E_ForkExecvp [kSecdiscardPath; lit "--";
                                path dir kFn_encrypted_key;
                                path dir kFn_keymaster_key_blob;
                                path dir kFn_secdiscardable] rc2;
                  E_ForkExecvp [kRmPath; lit "-rf"; dir] rc3]).
Proof.
  assert (∃ r1 w1 t1,
            deleteKey dir w = Returns r1 w1 t1
            ∧ w_fs w1 = w_fs w ∧ w_os w1 = w_os w
            ∧ match ReadFileToString (path dir kFn_keymaster_key_blob)
                      (w_fs w) with
              | Some kmKey =>
                  if Keymaster_bool (w_km w)
                  then Keymaster_deleteKey kmKey (w_km w) = (r1, w_km w1)
                       ∧ t1 = [E_ReadFileToString
                                 (path dir kFn_keymaster_key_blob)
                                 (Some kmKey);
                               E_Keymaster (Km_connect true);
                               E_Keymaster (Km_deleteKey kmKey r1)]
                  else r1 = false ∧ w_km w1 = w_km w
                       ∧ t1 = [E_ReadFileToString
                                 (path dir kFn_keymaster_key_blob)
                                 (Some kmKey);
                               E_Keymaster (Km_connect false)]
              | None =>
                  r1 = false ∧ w_km w1 = w_km w
                  ∧ t1 = [E_ReadFileToString
                            (path dir kFn_keymaster_key_blob) None]
              end)
    as (r1 & w1 & t1 & E1 & Hfs1 & Hos1 & Hstep1).
  { apply runs_elim. unfold deleteKey. do 2 runs_step.
    destruct (ReadFileToString _ _) as [kmKey|]; [|by runs_step].
    do 2 runs_step. destruct (Keymaster_bool _); [|by runs_step].
    do 2 runs_step. intros [] s Edel; by runs_step. }
  destruct (ForkExecvp [kSecdiscardPath; lit "--"; path dir kFn_encrypted_key;
                        path dir kFn_keymaster_key_blob;
                        path dir kFn_secdiscardable] (w_fs w1))
    as [rc2 s2] eqn:E2.
  destruct (ForkExecvp [kRmPath; lit "-rf"; dir] s2) as [rc3 s3] eqn:E3.
  assert (runSecdiscard dir w1
          = Returns (bool_decide (rc2 = 0%Z))
              {| w_fs := s2; w_km := w_km w1; w_os := w_os w1 |}
              [E_ForkExecvp [kSecdiscardPath; lit "--";
                             path dir kFn_encrypted_key;
                             path dir kFn_keymaster_key_blob;
                             path dir kFn_secdiscardable] rc2]) as R2.
  { unfold runSecdiscard, forkExecvp, on_fs, mbind, M_bind, mret, M_ret.
    rewrite E2. by destruct (bool_decide (rc2 = 0%Z)). }
  assert (recursiveDeleteKey dir
            {| w_fs := s2; w_km := w_km w1; w_os := w_os w1 |}
          = Returns (bool_decide (rc3 = 0%Z))
              {| w_fs := s3; w_km := w_km w1; w_os := w_os w1 |}
              [E_ForkExecvp [kRmPath; lit "-rf"; dir] rc3]) as R3.
  { unfold recursiveDeleteKey, forkExecvp, on_fs, mbind, M_bind, mret, M_ret.
    cbn [w_fs w_km w_os]. rewrite E3. by destruct (bool_decide (rc3 = 0%Z)). }
  exists r1, w1, t1, rc2, s2, rc3, s3.
  split; [done|]. split; [done|]. split; [done|]. split; [done|].
  split; [done|]. split; [done|]. split; [done|]. split; [done|].
  unfold destroyKey.
  rewrite (bind_returns _ _ _ _ _ _ E1), (bind_returns _ _ _ _ _ _ R2),
    (bind_returns _ _ _ _ _ _ R3).
  unfold mret, M_ret. cbn [andb app]. done.
Qed.

(** C7.  [getStretching] returns what the policy of the specification
    prescribes, from the properties configured when it is called; and
    [storeKey] persists exactly that choice: nothing else is ever written
    to the stretching file, and a store that succeeds has written it. *)
Theorem C7_stretching_choice fuel dir auth key w r w' tr :
  storeKey fuel dir auth key w = Returns r w' tr →
  let configured := (ReadRandomBytes SECDISCARDABLE_BYTES (w_os w)).2 in
  (∀ w0, result_of (getStretching auth w0)
         = Some (stretching_policy auth (w_os w0)))
  ∧ (∀ payload ok,
       (payload, ok) ∈ writes_at (path dir kFn_stretching) tr →
       payload = stretching_policy auth configured)
  ∧ (r = true →
     writes_at (path dir kFn_stretching) tr
     = [(stretching_policy auth configured, true)]).
Proof.
  intros Hstore. split; [|split].
  - intros w0. unfold getStretching, stretching_policy.
    destruct (usesKeymaster auth); [|done].
    cbv beta iota zeta delta [negb]. by case_bool_decide.
  - intros payload ok Hin.
    destruct (wp_elim _ _ _ _ _ _ (storeKey_persisted fuel dir auth key w)
                Hstore) as ([Hw|[ok' Hw]] & _ & _); rewrite Hw in Hin.
    + by apply elem_of_nil in Hin.
    + apply list_elem_of_singleton in Hin. congruence.
  - intros ->.
    by destruct (wp_elim _ _ _ _ _ _ (storeKey_persisted fuel dir auth key w)
                   Hstore) as (_ & _ & [? _]).
Qed.


(** C3, as the code has it.  When [retrieveKey] reports failure without
    the update step of a cipher having run (a missing or mismatching file,
    a stretching failure, a ciphertext shorter than nonce and tag, a cipher
    or Keymaster that could not be set up), [*key] holds what it held on
    entry.  Nothing is said once the update step has run: its output is
    then in [*key], whatever the tag check says afterwards. *)
Theorem C3_failure_before_update fuel dir auth key w out w' tr :
  retrieveKey fuel dir auth key w = Returns (false, out) w' tr →
  Forall (λ e, is_update e = false) tr →
  out = key.
Proof.
  intros Hret Hall.
  enough (wp (retrieveKey fuel dir auth key) w (λ r _ tr,
            r.1 = false → Forall (λ e, is_update e = false) tr → r.2 = key))
    as Hwp by exact (wp_elim _ _ _ _ _ _ Hwp Hret eq_refl Hall).
  clear. unfold retrieveKey. do 2 wp_step.
  destruct (ReadFileToString _ _) as [version|]; [|by wp_step].
  wp_red. case_bool_decide; [|by wp_step].
  do 2 wp_step. destruct (ReadFileToString _ _) as [sd|]; [|by wp_step].
  do 2 wp_step. destruct (ReadFileToString _ _) as [st|]; [|by wp_step].
  wp_step.
  apply (wp_mono _ _ (λ _ w1 t1, w1 = w)).
  { destruct (stretchingNeedsSalt st); by wp_step. }
  intros [salt|] ? t1 ->; [|by wp_step].
  wp_step. eapply wp_mono; [apply generateAppId_footprint|].
  intros [[] appId] w2 t2 [-> _]; [|by wp_step].
  do 2 wp_step. destruct (ReadFileToString _ _) as [ct|]; [|by wp_step].
  wp_red. destruct (usesKeymaster auth).
  - do 2 wp_step. destruct (Keymaster_bool _); [|by wp_step].
    wp_red. eapply wp_mono; [apply decryptWithKeymasterKey_failure|].
    intros r w3 t3 Hr Hfalse Hall. apply Hr; [done|].
    rewrite !Forall_app in Hall. tauto.
  - eapply wp_mono; [apply decryptWithoutKeymaster_failure|].
    intros r w3 t3 Hr Hfalse Hall. apply Hr; [done|].
    rewrite !Forall_app in Hall. tauto.
Qed.

End Claims.

(** ** A credential that does not fit *)

Section WrongCredential.
Context `{Platform}.

(** *** What is asked of the platform

    A file holds what was last written to it, and writing one file does
    not change another; the entropy source hands out as many bytes as were
    asked for; the software cipher is the one of the round trip, of which
    the lengths of body and tag are what matters here. *)
Hypothesis write_read : ∀ payload f s s',
  WriteStringToFile payload f s = (true, s') →
  ReadFileToString f s' = Some payload.
Hypothesis write_other : ∀ payload f s ok s' g,
  WriteStringToFile payload f s = (ok, s') → g ≠ f →
  ReadFileToString g s' = ReadFileToString g s.
Hypothesis random_length : ∀ count s out s',
  ReadRandomBytes count s = (0%Z, out, s') → length out = count.
Hypothesis evp_seals : ∀ c0 key iv pt c1 body c2 fin c3 buf tag c4,
  EVP_EncryptInit_ex c0 key iv = (1%Z, c1) →
  EVP_EncryptUpdate c1 pt = (1%Z, body, c2) →
  EVP_EncryptFinal_ex c2 = (1%Z, fin, c3) →
  EVP_CIPHER_CTX_ctrl c3 EVP_CTRL_GCM_GET_TAG GCM_MAC_BYTES buf
  = (1%Z, tag, c4) →
  length body = length pt ∧ length tag = GCM_MAC_BYTES
  ∧ ∀ d0, ∃ d1 d2 x d3 d4,
      EVP_DecryptInit_ex d0 key iv = (1%Z, d1)
      ∧ EVP_DecryptUpdate d1 body = (1%Z, pt, d2)
      ∧ EVP_CIPHER_CTX_ctrl d2 EVP_CTRL_GCM_SET_TAG GCM_MAC_BYTES tag
        = (1%Z, x, d3)
      ∧ EVP_DecryptFinal_ex d3 = (1%Z, [], d4).
(** A default-constructed operation is not a valid one. *)
Hypothesis default_operation_invalid :
  op_bool KeymasterOperation_default = false.
(** A key the Keymaster has just generated is in its current format: no
    operation on it is refused for want of an upgrade. *)
Hypothesis fresh_keys_current :
  ∀ params s blob s' purpose q o s2 opHandle o' s3,
    Keymaster_generateKey params s = (Some blob, s') →
    Keymaster_begin purpose blob q o s2 = (opHandle, o', s3) →
    op_bool opHandle = false →
    errorCode opHandle ≠ KEY_REQUIRES_UPGRADE.
(** A key is bound to the application id it was generated with and, when
    it was generated as requiring authentication, to the presence of a
    token: the Keymaster begins no operation on it under parameters that
    do not fit. *)
Hypothesis keymaster_binds :
  ∀ params s blob s' purpose q o s2 opHandle o' s3,
    Keymaster_generateKey params s = (Some blob, s') →
    mismatch params q →
    Keymaster_begin purpose blob q o s2 = (opHandle, o', s3) →
    op_bool opHandle = false.

(** *** What a store leaves behind *)

Lemma appId_at_intro dir auth w sd st salt appId t :
  ReadFileToString (path dir kFn_secdiscardable) (w_fs w) = Some sd →
  ReadFileToString (path dir kFn_stretching) (w_fs w) = Some st →
  (if stretchingNeedsSalt st
   then ReadFileToString (path dir kFn_salt) (w_fs w) = Some salt
   else salt = []) →
  generateAppId auth st salt sd [] w = Returns (true, appId) w t →
  appId_at dir auth w = Some appId.
Proof.
  intros Hsd Hst Hsalt Happ. unfold appId_at. rewrite Hsd, Hst.
  destruct (stretchingNeedsSalt st); [rewrite Hsalt|subst salt];
    by rewrite Happ.
Qed.

Lemma encryptWithoutKeymaster_sealed preKey plaintext ct0 w :
  wp (encryptWithoutKeymaster preKey plaintext ct0) w (λ r w' _,
    r.1 = true →
    w_fs w' = w_fs w ∧ sealed (wrapping_key preKey) plaintext r.2).
Proof using random_length evp_seals.
  unfold encryptWithoutKeymaster. wp_step. apply wp_hashWithPrefix.
  fold (wrapping_key preKey).
  wp_step. apply readRandomBytesOrLog_wp. intros status rnd s Ernd.
  case_bool_decide as Est; [subst status|wp_step; cbn [fst]; done].
  apply random_length in Ernd as Hrnd.
  do 2 wp_step. intros [ctx|] s1 _; [|wp_step; cbn [fst]; done].
  do 2 wp_step.
  destruct (EVP_EncryptInit_ex ctx _ (iv_at rnd)) as [rc ctx1] eqn:Einit.
  case_bool_decide; [subst rc|wp_step; cbn [fst]; done].
  do 2 wp_step.
  destruct (EVP_EncryptUpdate ctx1 plaintext) as [[rc2 body] ctx2] eqn:Eupd.
  case_bool_decide; [subst rc2|wp_step; cbn [fst]; done].
  case_bool_decide as Elen; [|wp_step; cbn [fst]; done].
  do 2 wp_step.
  destruct (EVP_EncryptFinal_ex ctx2) as [[rc3 fin] ctx3] eqn:Efin.
  case_bool_decide; [subst rc3|wp_step; cbn [fst]; done].
  case_bool_decide as Efin0; [|wp_step; cbn [fst]; done].
  do 2 wp_step.
  destruct (EVP_CIPHER_CTX_ctrl ctx3 EVP_CTRL_GCM_GET_TAG GCM_MAC_BYTES _)
    as [[rc4 tag] ctx4] eqn:Etag.
  case_bool_decide; [subst rc4|wp_step; cbn [fst]; done].
  wp_step. intros _. cbn [fst snd]. split; [done|].
  destruct fin; [|done]. clear Efin0.
  destruct (evp_seals _ _ _ _ _ _ _ _ _ _ _ _ Einit Eupd Efin Etag)
    as (Hbody & Htag & _).
  rewrite (ciphertext_layout rnd body tag (length plaintext)) by done.
  assert (iv_at rnd = rnd) as Eiv
    by (unfold iv_at; by rewrite <- Hrnd, firstn_all).
  rewrite Eiv in Einit.
  exists rnd, ctx, ctx1, body, ctx2, [], ctx3. eexists _, tag, ctx4.
  split; [done|]. split; [done|]. split; [done|]. split; [done|].
  split; [exact Etag | done].
Qed.

Lemma sealed_rejected key key' pt ct :
  sealed key pt ct → evp_rejects key key' → soft_rejects key' ct.
Proof using evp_seals.
  intros (nonce & c0 & c1 & body & c2 & fin & c3 & buf & tag & c4
          & Hn & Einit & Eupd & Efin & Etag & ->) Hrej.
  destruct (evp_seals _ _ _ _ _ _ _ _ _ _ _ _ Einit Eupd Efin Etag)
    as (Hbody & Htag & _).
  unfold soft_rejects.
  assert (length (nonce ++ body ++ tag) - GCM_NONCE_BYTES - GCM_MAC_BYTES
          = length body) as -> by (rewrite !length_app; lia).
  assert (iv_at (nonce ++ body ++ tag) = nonce) as ->.
  { unfold iv_at. by rewrite take_app_length'. }
  assert (take (length body) (drop GCM_NONCE_BYTES (nonce ++ body ++ tag))
          = body) as ->.
  { rewrite drop_app_length' by done. by rewrite take_app_length'. }
  assert (take GCM_MAC_BYTES
            (drop (GCM_NONCE_BYTES + length body) (nonce ++ body ++ tag))
          = tag) as ->.
  { rewrite app_assoc, drop_app_length' by (rewrite length_app; lia).
    by rewrite <- Htag, firstn_all. }
  intros d0 d1 pt' d2 x d3 rc out d4 D1 D2 D3 D4.
  exact (Hrej _ _ _ _ _ _ _ _ _ _ _ _ _ _ _ _ _ _ _ _
           Einit Eupd Efin Etag D1 D2 D3 D4).
Qed.

(** On a key blob that needs no upgrade, [begin] changes no file. *)
Lemma begin_current fuel dir purpose keyParams opParams outParams w kmKey :
  ReadFileToString (path dir kFn_keymaster_key_blob) (w_fs w) = Some kmKey →
  (∀ q o s opHandle o' s1,
     Keymaster_begin purpose kmKey q o s = (opHandle, o', s1) →
     op_bool opHandle = false →
     errorCode opHandle ≠ KEY_REQUIRES_UPGRADE) →
  wp (begin fuel dir purpose keyParams opParams outParams) w
     (λ _ w' _, w_fs w' = w_fs w).
Proof.
  intros Hblob Hcur. unfold begin. do 2 wp_step. rewrite Hblob.
  destruct fuel as [|fuel]; [done|]. cbn [for_ever].
  wp_step. unfold begin_body. do 2 wp_step.
  intros [opHandle o] s1 Ebegin. wsimp.
  destruct (op_bool opHandle) eqn:Evalid; [by do 2 wp_step|].
  wp_red. rewrite bool_decide_eq_false_2 by (by eapply Hcur).
  by do 2 wp_step.
Qed.

Lemma encryptWithKeymasterKey_current fuel dir keyParams message ct0 w kmKey :
  ReadFileToString (path dir kFn_keymaster_key_blob) (w_fs w) = Some kmKey →
  (∀ q o s opHandle o' s1,
     Keymaster_begin ENCRYPT kmKey q o s = (opHandle, o', s1) →
     op_bool opHandle = false →
     errorCode opHandle ≠ KEY_REQUIRES_UPGRADE) →
  wp (encryptWithKeymasterKey fuel dir keyParams message ct0) w
     (λ r w' _, w_fs w' = w_fs w
                ∧ (r.1 = true → GCM_NONCE_BYTES ≤ length r.2)).
Proof.
  intros Hblob Hcur. unfold encryptWithKeymasterKey. wp_step.
  eapply wp_mono; [by eapply begin_current|].
  intros [opHandle outParams] w1 t1 Hfs.
  destruct (op_bool opHandle); [|by wp_step].
  wp_red. destruct (GetTagValue _ _) as [nonce|]; [|by wp_step].
  unfold checkSize at 1. case_decide as Hn; [by wp_step|].
  do 2 wp_step. intros [[] body] s1 _; [|by wp_step].
  do 2 wp_step. intros [[] mac] s2 _; [|by wp_step].
  unfold checkSize. case_decide as Hm; [by wp_step|].
  wp_step. cbn [fst snd w_fs]. split; [done|]. intros _.
  rewrite length_app. lia.
Qed.

Lemma generateKeymasterKey_spec auth appId w :
  wp (generateKeymasterKey auth appId) w (λ r w' _,
    w_fs w' = w_fs w
    ∧ ∀ blob, r = Some blob →
        ∃ params,
          Keymaster_generateKey params (w_km w) = (Some blob, w_km w')
          ∧ GetTagValue TAG_APPLICATION_ID params = Some appId
          ∧ (token auth ≠ [] → TAG_NO_AUTH_REQUIRED ∉ params.*1)).
Proof.
  unfold generateKeymasterKey. case_bool_decide as Htok.
  - wp_step. intros r s E. cbn [w_fs w_km]. split; [done|].
    intros blob ->. eexists. split; [exact E|]. split; [done|]. done.
  - case_decide; [wp_step; split; [done|]; by intros ? [=]|].
    wp_step. intros r s E. cbn [w_fs w_km]. split; [done|].
    intros blob ->. eexists. split; [exact E|]. split; [done|].
    intros _. by apply (bool_decide_eq_false_1 _).
Qed.


(** Carry what is known of the files across a write to another file. *)
Ltac carry Ew :=
  repeat match goal with
         | Hr : ReadFileToString ?f ?s = Some _,
           Ew' : WriteStringToFile _ ?g ?s = (_, ?s') |- _ =>
             rewrite <- (write_other _ _ _ _ _ f Ew'
                           ltac:(by apply path_ne)) in Hr
         end;
  pose proof (write_read _ _ _ _ Ew).

(** What a store that succeeded leaves in the directory. *)
Lemma storeKey_layout fuel dir auth key w :
  wp (storeKey fuel dir auth key) w (λ r w1 _,
    r = true →
    ∃ sd st salt appId t ct os,
      ReadFileToString (path dir kFn_version) (w_fs w1) = Some kCurrentVersion
      ∧ ReadFileToString (path dir kFn_secdiscardable) (w_fs w1) = Some sd
      ∧ ReadFileToString (path dir kFn_stretching) (w_fs w1) = Some st
      ∧ st = stretching_policy auth os
      ∧ (if stretchingNeedsSalt st
         then ReadFileToString (path dir kFn_salt) (w_fs w1) = Some salt
         else salt = [])
      ∧ (∀ v, generateAppId auth st salt sd [] v = Returns (true, appId) v t)
      ∧ ReadFileToString (path dir kFn_encrypted_key) (w_fs w1) = Some ct
      ∧ if usesKeymaster auth
        then GCM_NONCE_BYTES ≤ length ct
             ∧ ∃ blob params s s',
                 ReadFileToString (path dir kFn_keymaster_key_blob) (w_fs w1)
                 = Some blob
                 ∧ Keymaster_generateKey params s = (Some blob, s')
                 ∧ GetTagValue TAG_APPLICATION_ID params = Some appId
                 ∧ (token auth ≠ [] → TAG_NO_AUTH_REQUIRED ∉ params.*1)
        else sealed (wrapping_key appId) key ct).
Proof using write_read write_other random_length evp_seals fresh_keys_current.
  unfold storeKey. do 2 wp_step. intros rc s0 _.
  case_bool_decide; [by wp_step|].
  do 2 wp_step. intros [] s1 Wv; [|by wp_step]. wsimp. carry Wv.
  wp_step. apply readRandomBytesOrLog_wp. intros status sd os1 _.
  destruct (bool_decide (status = 0%Z)); [|by wp_step].
  do 2 wp_step. intros [] s2 Wsd; [|by wp_step]. wsimp. carry Wsd.
  wp_step. apply wp_getStretching. intros tg _. cbn [w_os].
  set (st := stretching_policy auth os1).
  do 2 wp_step. intros [] s3 Wst; [|by wp_step]. wsimp. carry Wst.
  wp_step.
  apply (wp_mono _ _ (λ a w' _,
    ∀ salt, a = Some salt →
      ReadFileToString (path dir kFn_version) (w_fs w')
      = Some kCurrentVersion
      ∧ ReadFileToString (path dir kFn_secdiscardable) (w_fs w') = Some sd
      ∧ ReadFileToString (path dir kFn_stretching) (w_fs w') = Some st
      ∧ (if stretchingNeedsSalt st
         then ReadFileToString (path dir kFn_salt) (w_fs w') = Some salt
         else salt = []))).
  { destruct (stretchingNeedsSalt st).
    - do 2 wp_step. intros [status2 salt] os2 _.
      destruct (bool_decide (status2 = 0%Z)); [|by wp_step].
      do 2 wp_step. intros [] s4 Wsalt; [|by wp_step]. wsimp. carry Wsalt.
      wp_step. intros ? [= <-]. by repeat split.
    - wp_step. intros ? [= <-]. by repeat split. }
  intros [salt|] w4 t4 Hfacts; [|by wp_step].
  destruct (Hfacts salt eq_refl) as (Hv & Hsd & Hst & Hsalt).
  clear Hfacts. wp_step. unfold wp at 1.
  destruct (generateAppId auth st salt sd [] w4) as [[ok appId] w5 t5| |]
    eqn:Eapp; [|done..].
  pose proof (generateAppId_stateless _ _ _ _ _ _ _ _ _ Eapp) as Happ.
  rewrite (Happ w4) in Eapp. injection Eapp as <-.
  destruct ok; [|by wp_step]. wp_step.
  destruct (usesKeymaster auth) eqn:Euses.
  - do 2 wp_step. destruct (Keymaster_bool (w_km w4)); [|by do 2 wp_step].
    wp_step. eapply wp_mono; [apply generateKeymasterKey_spec|].
    intros [kmKey|] w6 t6 (Hfs6 & Hgen); [|by do 2 wp_step].
    destruct (Hgen kmKey eq_refl) as (params & Egen & Hid & Hauth). clear Hgen.
    rewrite <- Hfs6 in Hv, Hsd, Hst, Hsalt.
    do 2 wp_step. intros [] s7 Wblob; [|by do 2 wp_step]. wsimp.
    wp_red.
    eapply wp_mono.
    { apply (encryptWithKeymasterKey_current _ _ _ _ _ _ kmKey).
      - cbn [w_fs]. by apply (write_read _ _ _ _ Wblob).
      - intros q o s h o' sb Ebegin Hinvalid.
        exact (fresh_keys_current _ _ _ _ _ _ _ _ _ _ _ Egen Ebegin Hinvalid). }
    intros [[] ct] w8 t8 [Hfs8 Hlen]; [|by wp_step].
    cbn [fst snd w_fs] in Hfs8, Hlen.
    do 2 wp_step. intros [] s9 Wct; [|by wp_step]. wsimp.
    wp_step. intros _. rewrite Hfs8 in Wct.
    assert (∀ name c, name ≠ kFn_keymaster_key_blob →
              name ≠ kFn_encrypted_key →
              ReadFileToString (path dir name) (w_fs w6) = Some c →
              ReadFileToString (path dir name) s9 = Some c) as Hkeep.
    { intros name c N1 N3 Hr.
      rewrite (write_other _ _ _ _ _ _ Wct) by (by apply path_ne).
      by rewrite (write_other _ _ _ _ _ _ Wblob) by (by apply path_ne). }
    exists sd, st, salt, appId, t5, ct, os1. cbn [w_fs].
    split; [by apply Hkeep|]. split; [by apply Hkeep|].
    split; [by apply Hkeep|]. split; [done|].
    split; [destruct (stretchingNeedsSalt st); [by apply Hkeep | done]|].
    split; [exact Happ|].
    split; [by apply (write_read _ _ _ _ Wct)|].
    split; [by apply Hlen|].
    exists kmKey, params, (w_km w4), (w_km w6).
    split; [|done].
    rewrite (write_other _ _ _ _ _ _ Wct) by (by apply path_ne).
    by apply (write_read _ _ _ _ Wblob).
  - eapply wp_mono; [apply encryptWithoutKeymaster_sealed|].
    intros [[] ct] w6 t6 Henc; [|by wp_step].
    destruct (Henc eq_refl) as (Hfs6 & Hsealed). cbn [snd] in Hsealed.
    do 2 wp_step. intros [] s9 Wct; [|by wp_step]. wsimp.
    wp_step. intros _. rewrite Hfs6 in Wct.
    assert (∀ name c, name ≠ kFn_encrypted_key →
              ReadFileToString (path dir name) (w_fs w4) = Some c →
              ReadFileToString (path dir name) s9 = Some c) as Hkeep.
    { intros name c N Hr.
      by rewrite (write_other _ _ _ _ _ _ Wct) by (by apply path_ne). }
    exists sd, st, salt, appId, t5, ct, os1. cbn [w_fs].
    split; [by apply Hkeep|]. split; [by apply Hkeep|].
    split; [by apply Hkeep|]. split; [done|].
    split; [destruct (stretchingNeedsSalt st); [by apply Hkeep | done]|].
    split; [exact Happ|].
    split; [by apply (write_read _ _ _ _ Wct)|]. done.
Qed.


(** Under "nopassword" the presented secret plays no part. *)
Lemma retrieveKey_nopassword fuel dir auth1 auth2 out w :
  token auth2 = token auth1 →
  usesKeymaster auth2 = usesKeymaster auth1 →
  ReadFileToString (path dir kFn_stretching) (w_fs w)
  = Some kStretch_nopassword →
  appId_at dir auth2 w = appId_at dir auth1 w
  ∧ retrieveKey fuel dir auth2 out w = retrieveKey fuel dir auth1 out w.
Proof.
  intros Htok Huses Hst.
  assert (∀ salt sd a,
    generateAppId auth2 kStretch_nopassword salt sd a
    = generateAppId auth1 kStretch_nopassword salt sd a) as Happ by done.
  split.
  - unfold appId_at. rewrite Hst.
    destruct (ReadFileToString (path dir kFn_secdiscardable) _); [|done].
    change (stretchingNeedsSalt kStretch_nopassword) with false.
    cbv beta iota. by rewrite Happ.
  - unfold retrieveKey.
    apply bind_ext; [done|]. intros [version|] ? ? [= _ <- _]; [|done].
    destruct (negb (bool_decide (version = kCurrentVersion))); [done|].
    apply bind_ext; [done|]. intros [sd|] ? ? [= _ <- _]; [|done].
    apply bind_ext; [done|]. intros st ? ? [= Est <- _].
    rewrite Hst in Est. subst st.
    apply bind_ext; [done|]. intros [salt|] w1 ? _; [|done].
    rewrite Happ.
    apply bind_ext; [done|]. intros [[] appId] w2 ? _; [|done].
    cbv beta iota zeta delta [negb].
    apply bind_ext; [done|]. intros [ct|] w3 ? _; [|done].
    unfold beginParams. by rewrite Huses, Htok.
Qed.

Lemma beginParams_appId auth appId v :
  GetTagValue TAG_APPLICATION_ID (beginParams auth appId ++ [(TAG_NONCE, v)])
  = Some appId.
Proof. unfold beginParams. by case_bool_decide. Qed.

Lemma beginParams_no_token auth appId v :
  token auth = [] →
  GetTagValue TAG_AUTH_TOKEN (beginParams auth appId ++ [(TAG_NONCE, v)])
  = None.
Proof. intros Htok. unfold beginParams. by rewrite bool_decide_eq_true_2. Qed.

(** C2, as the code has it.  [retrieveKey] compares no credentials: it
    derives the appId from the presented secret under the stored stretching
    specification, hands it, with the token if there is one, to the cipher
    the credential selects, and returns the verdict of that cipher.  After
    a [storeKey] under [auth1] that succeeded, [retrieveKey] under [auth2]
    therefore fails
    - without the Keymaster, when the software cipher refuses under the key
      derived from [auth2] what it sealed under the key derived from
      [auth1];
    - with the Keymaster, when [auth1] has a token and [auth2] has none, or
      when the appId derived from [auth2] is not the one derived from
      [auth1]: the Keymaster binds a key to the application id and to the
      authentication requirement it was generated with.
    The exception is the stretching "nopassword", which a store chooses
    under the Keymaster for an empty secret: it discards the presented
    secret, so that an [auth2] with the token of [auth1] gets the appId of
    [auth1] and is served exactly as [auth1] is, whatever its secret; and
    so it is from any world whose stretching file says "nopassword".
    From any world, whoever wrote the files, [retrieveKey] under [auth2]
    fails whenever the cipher selected by [auth2] refuses the stored
    ciphertext under what is derived from [auth2]: a final check that does
    not succeed is never reported as success.  The appId is the hash of the
    secdiscardable bytes followed by the stretched secret, so that two
    secrets get different appIds exactly when they are stretched to
    different strings: always under "none", where the stretched secret is
    the secret, and under a scrypt specification when scrypt, which is
    given the secret and the salt, fills its buffer differently. *)
Theorem C2_wrong_credential_is_refused fuel dir auth1 auth2 key w w1 tr :
  storeKey fuel dir auth1 key w = Returns true w1 tr →
  (usesKeymaster auth1 = false → usesKeymaster auth2 = false →
   (∀ appId1 appId2,
      appId_at dir auth1 w1 = Some appId1 →
      appId_at dir auth2 w1 = Some appId2 →
      evp_rejects (wrapping_key appId1) (wrapping_key appId2)) →
   ∀ fuel' out, ∃ out' w2 tr2,
     retrieveKey fuel' dir auth2 out w1 = Returns (false, out') w2 tr2)
  ∧ (usesKeymaster auth1 = true → usesKeymaster auth2 = true →
     (token auth1 ≠ [] ∧ token auth2 = [])
     ∨ appId_at dir auth2 w1 ≠ appId_at dir auth1 w1 →
     ∀ fuel' out, 0 < fuel' → ∃ out' w2 tr2,
       retrieveKey fuel' dir auth2 out w1 = Returns (false, out') w2 tr2)
  ∧ (usesKeymaster auth1 = true → secret auth1 = [] →
     usesKeymaster auth2 = true → token auth2 = token auth1 →
     ReadFileToString (path dir kFn_stretching) (w_fs w1)
     = Some kStretch_nopassword
     ∧ appId_at dir auth2 w1 = appId_at dir auth1 w1
     ∧ ∀ fuel' out,
         retrieveKey fuel' dir auth2 out w1 = retrieveKey fuel' dir auth1 out w1)
  ∧ (∀ v fuel' out,
       token auth2 = token auth1 →
       usesKeymaster auth2 = usesKeymaster auth1 →
       ReadFileToString (path dir kFn_stretching) (w_fs v)
       = Some kStretch_nopassword →
       retrieveKey fuel' dir auth2 out v = retrieveKey fuel' dir auth1 out v)
  ∧ (∀ v fuel' out,
       usesKeymaster auth2 = false →
       (∀ appId ct,
          appId_at dir auth2 v = Some appId →
          ReadFileToString (path dir kFn_encrypted_key) (w_fs v) = Some ct →
          soft_rejects (wrapping_key appId) ct) →
       ∃ out' v' tr',
         retrieveKey fuel' dir auth2 out v = Returns (false, out') v' tr')
  ∧ (∀ v fuel' out,
       usesKeymaster auth2 = true → 0 < fuel' →
       (∀ appId ct,
          appId_at dir auth2 v = Some appId →
          ReadFileToString (path dir kFn_encrypted_key) (w_fs v) = Some ct →
          GCM_NONCE_BYTES ≤ length ct
          ∧ ∀ kmKey,
              ReadFileToString (path dir kFn_keymaster_key_blob) (w_fs v)
              = Some kmKey →
              keymaster_rejects kmKey (beginParams auth2 appId) ct (w_km v)) →
       ∃ out' v' tr',
         retrieveKey fuel' dir auth2 out v = Returns (false, out') v' tr')
  ∧ (∀ stretching salt secdiscardable v s1 v1 t1 s2 v2 t2,
       stretchSecret stretching (secret auth1) salt [] v
       = Returns (true, s1) v1 t1 →
       stretchSecret stretching (secret auth2) salt [] v
       = Returns (true, s2) v2 t2 →
       ∃ h,
         result_of (generateAppId auth1 stretching salt secdiscardable [] v)
         = Some (true, h ++ s1)
         ∧ result_of (generateAppId auth2 stretching salt secdiscardable [] v)
           = Some (true, h ++ s2)
         ∧ (s1 ≠ s2 → h ++ s1 ≠ h ++ s2))
  ∧ (∀ stretching salt v s v1 t1,
       stretching ≠ kStretch_nopassword → stretching ≠ kStretch_none →
       stretchSecret stretching (secret auth2) salt [] v
       = Returns (true, s) v1 t1 →
       kStretchPrefix_scrypt `prefix_of` stretching
       ∧ ∃ N r p out,
           crypto_scrypt (secret auth2) salt N r p STRETCHED_BYTES
           = (0%Z, out)
           ∧ s = poke (assign STRETCHED_BYTES NUL) 0 out)
  ∧ (secret auth2 ≠ secret auth1 →
     ∀ salt secdiscardable v a1 v1 t1 a2 v2 t2,
       generateAppId auth1 kStretch_none salt secdiscardable [] v
       = Returns (true, a1) v1 t1 →
       generateAppId auth2 kStretch_none salt secdiscardable [] v
       = Returns (true, a2) v2 t2 →
       a1 ≠ a2).
Proof using All.
  intros Hstore.
  assert (∀ fuel' out v,
            runs (retrieveKey fuel' dir auth2 out) v (λ r _ _, r.1 = false) →
            ∃ out' v' tr',
              retrieveKey fuel' dir auth2 out v = Returns (false, out') v' tr')
    as Hfalse.
  { intros fuel' out v Hruns.
    destruct (runs_elim _ _ _ Hruns) as ([ok out'] & v' & tr' & E & Hok).
    cbn [fst] in Hok. subst ok. eauto. }
  assert (∀ preKey ct plaintext v,
            soft_rejects (wrapping_key preKey) ct →
            runs (decryptWithoutKeymaster preKey ct plaintext) v
                 (λ r _ _, r.1 = false)) as Hsoft.
  { clear. intros preKey ct plaintext w.
    intros Hrej. unfold decryptWithoutKeymaster.
    case_decide; [by runs_step|].
    runs_step. apply runs_hashWithPrefix. fold (wrapping_key preKey).
    do 2 runs_step. intros [ctx|] s1 _; [|by runs_step].
    rewrite resize_length.
    do 2 runs_step.
    destruct (EVP_DecryptInit_ex _ _ _) as [rc ctx1] eqn:E1.
    case_bool_decide; [subst rc|by runs_step].
    do 2 runs_step.
    destruct (EVP_DecryptUpdate _ _) as [[rc2 out] ctx2] eqn:E2.
    case_bool_decide; [subst rc2|by runs_step].
    case_bool_decide; [|by runs_step].
    do 2 runs_step.
    destruct (EVP_CIPHER_CTX_ctrl _ _ _ _) as [[rc4 x] ctx4] eqn:E3.
    case_bool_decide; [subst rc4|by runs_step].
    do 2 runs_step.
    destruct (EVP_DecryptFinal_ex _) as [[rc3 out3] ctx3] eqn:E4.
    case_bool_decide; [subst rc3|by runs_step].
    by destruct (Hrej _ _ _ _ _ _ _ _ _ E1 E2 E3 E4). }
  assert (∀ fuel' keyParams ct message v,
            0 < fuel' → GCM_NONCE_BYTES ≤ length ct →
            (∀ kmKey,
               ReadFileToString (path dir kFn_keymaster_key_blob) (w_fs v)
               = Some kmKey →
               keymaster_rejects kmKey keyParams ct (w_km v)) →
            runs (decryptWithKeymasterKey fuel' dir keyParams ct message) v
                 (λ r _ _, r.1 = false)) as Hhard.
  { clear -default_operation_invalid.
    intros fuel keyParams ct message w.
    intros Hfuel Hlen Hrej. unfold decryptWithKeymasterKey, substr.
    rewrite !decide_True by lia. rewrite drop_0.
    runs_step. unfold begin. do 2 runs_step.
    destruct (ReadFileToString _ _) as [kmKey|].
    2:{ runs_step. rewrite default_operation_invalid. by runs_step. }
    specialize (Hrej kmKey eq_refl).
    destruct fuel as [|fuel]; [lia|]. cbn [for_ever].
    runs_step. unfold begin_body. do 2 runs_step.
    intros [opHandle o] s1 Ebegin. wsimp.
    specialize (Hrej _ _ _ Ebegin).
    destruct (op_bool opHandle) eqn:Evalid.
    - do 2 runs_step. rewrite Evalid.
      do 2 runs_step. intros [[] msg] s2 Eupd; [|by runs_step].
      do 2 runs_step. intros [ok' x] s3 Efin. wsimp.
      rewrite (Hrej _ _ _ Eupd eq_refl _ _ _ Efin). by runs_step.
    - wp_red. rewrite bool_decide_eq_false_2 by done.
      do 2 runs_step. rewrite Evalid. by runs_step. }
  (* how far [retrieveKey] gets on its way to the cipher: it fails, or it
     hands the appId derived from the files and the ciphertext file to the
     cipher the credential selects *)
  assert (∀ fuel auth out w (Φ : bool * bytes → World → list Event → Prop),
            (∀ w' tr, Φ (false, out) w' tr) →
            (∀ appId ct,
               appId_at dir auth w = Some appId →
               ReadFileToString (path dir kFn_encrypted_key) (w_fs w)
               = Some ct →
               runs (if usesKeymaster auth
                     then ok ← keymaster_connect;
                          if negb ok then mret (false, out)
                          else decryptWithKeymasterKey fuel dir
                                 (beginParams auth appId) ct out
                     else decryptWithoutKeymaster appId ct out) w
                    (λ r w' tr, ∀ t0, Φ r w' (t0 ++ tr))) →
            runs (retrieveKey fuel dir auth out) w Φ) as retrieveKey_reduces.
  { clear. intros fuel auth out w Φ.
    intros Hfail Hcipher. unfold retrieveKey. do 2 runs_step.
    destruct (ReadFileToString (path dir kFn_version) _) as [version|];
      [|by runs_step].
    wp_red. case_bool_decide; [|by runs_step].
    do 2 runs_step.
    destruct (ReadFileToString (path dir kFn_secdiscardable) _) as [sd|] eqn:Esd;
      [|by runs_step].
    do 2 runs_step.
    destruct (ReadFileToString (path dir kFn_stretching) _) as [st|] eqn:Est;
      [|by runs_step].
    runs_step.
    apply (runs_mono _ _ (λ a w1 _,
             w1 = w ∧ a = if stretchingNeedsSalt st
                          then ReadFileToString (path dir kFn_salt) (w_fs w)
                          else Some [])).
    { destruct (stretchingNeedsSalt st); by runs_step. }
    intros salted ? t1 [-> Esalt]. destruct salted as [salt|]; [|by runs_step].
    runs_step.
    destruct (runs_elim _ _ _ (generateAppId_total auth st salt sd [] w))
      as ([ok appId] & w' & t & E & _).
    pose proof (generateAppId_stateless _ _ _ _ _ _ _ _ _ E w) as E'.
    eapply runs_intro; [exact E'|].
    destruct ok; [|by runs_step].
    do 2 runs_step.
    destruct (ReadFileToString (path dir kFn_encrypted_key) _) as [ct|] eqn:Ect;
      [|by runs_step].
    wp_red. eapply runs_mono; [apply (Hcipher appId ct); [|done]|].
    - unfold appId_at. rewrite Esd, Est, <- Esalt. by rewrite E'.
    - intros r w2 t2 HΦ. rewrite !app_assoc. apply HΦ. }
  assert (∀ v fuel' out,
            usesKeymaster auth2 = false →
            (∀ appId ct,
               appId_at dir auth2 v = Some appId →
               ReadFileToString (path dir kFn_encrypted_key) (w_fs v)
               = Some ct →
               soft_rejects (wrapping_key appId) ct) →
            runs (retrieveKey fuel' dir auth2 out) v (λ r _ _, r.1 = false))
    as Hrefused_soft.
  { intros v fuel' out Huses Hrej. apply retrieveKey_reduces; [done|].
    intros appId ct Happ Hct. rewrite Huses.
    eapply runs_mono; [apply Hsoft; by apply Hrej|]. done. }
  assert (∀ v fuel' out,
            usesKeymaster auth2 = true → 0 < fuel' →
            (∀ appId ct,
               appId_at dir auth2 v = Some appId →
               ReadFileToString (path dir kFn_encrypted_key) (w_fs v)
               = Some ct →
               GCM_NONCE_BYTES ≤ length ct
               ∧ ∀ kmKey,
                   ReadFileToString (path dir kFn_keymaster_key_blob) (w_fs v)
                   = Some kmKey →
                   keymaster_rejects kmKey (beginParams auth2 appId) ct
                     (w_km v)) →
            runs (retrieveKey fuel' dir auth2 out) v (λ r _ _, r.1 = false))
    as Hrefused_hard.
  { intros v fuel' out Huses Hfuel Hrej. apply retrieveKey_reduces; [done|].
    intros appId ct Happ Hct. rewrite Huses.
    destruct (Hrej _ _ Happ Hct) as [Hlen Hkm].
    do 2 runs_step. destruct (Keymaster_bool _); [|by runs_step].
    wp_red. eapply runs_mono; [by apply Hhard|]. done. }
  destruct (wp_elim _ _ _ _ _ _ (storeKey_layout fuel dir auth1 key w)
              Hstore eq_refl)
    as (sd & st & salt & appId1 & t & ct & os & Hv & Hsd & Hst & Hpol & Hsalt
        & Happ & Hct & Hcipher).
  pose proof (appId_at_intro dir auth1 w1 sd st salt appId1 t Hsd Hst Hsalt
                (Happ w1)) as Hat1.
  split; [|split; [|split; [|split; [|split; [|split; [|split; [|split]]]]]]].
  - intros Huses1 Huses2 Hrej fuel' out. rewrite Huses1 in Hcipher.
    apply Hfalse, Hrefused_soft; [done|].
    intros appId2 ct' Hat2 Hct'. rewrite Hct in Hct'. injection Hct' as <-.
    eapply sealed_rejected; [exact Hcipher|]. by apply Hrej.
  - intros Huses1 Huses2 Hdiff fuel' out Hfuel. rewrite Huses1 in Hcipher.
    destruct Hcipher as (Hlen & blob & params & s & s' & Hblob & Egen & Hid
                         & Hauth).
    apply Hfalse, Hrefused_hard; [done..|].
    intros appId2 ct' Hat2 Hct'. rewrite Hct in Hct'. injection Hct' as <-.
    split; [done|]. intros kmKey Hblob'. rewrite Hblob in Hblob'.
    injection Hblob' as <-.
    intros opHandle o s1 Ebegin.
    assert (op_bool opHandle = false) as Hinvalid.
    { eapply keymaster_binds; [exact Egen| |exact Ebegin].
      destruct Hdiff as [[Htok1 Htok2]|Hdiff].
      - right. split; [by apply Hauth|]. by apply beginParams_no_token.
      - left. exists appId1. split; [done|]. rewrite beginParams_appId.
        intros [= ->]. apply Hdiff. by rewrite Hat1, Hat2. }
    rewrite Hinvalid.
    exact (fresh_keys_current _ _ _ _ _ _ _ _ _ _ _ Egen Ebegin Hinvalid).
  - intros Huses1 Hsecret Huses2 Htok.
    assert (st = kStretch_nopassword) as ->.
    { rewrite Hpol. unfold stretching_policy. rewrite Huses1.
      by rewrite bool_decide_eq_true_2. }
    split; [done|].
    assert (usesKeymaster auth2 = usesKeymaster auth1) as Huses by congruence.
    split; [by apply (retrieveKey_nopassword 0 _ _ _ [])|].
    intros fuel' out. by apply retrieveKey_nopassword.
  - intros v fuel' out Htok Huses Hnp. by apply retrieveKey_nopassword.
  - intros v fuel' out Huses Hrej.
    by apply Hfalse, Hrefused_soft.
  - intros v fuel' out Huses Hfuel Hrej.
    by apply Hfalse, Hrefused_hard.
  - intros st' salt' sd' v s1 v1 t1 s2 v2 t2 E1 E2.
    unfold generateAppId.
    rewrite (bind_returns _ _ _ _ _ _ E1), (bind_returns _ _ _ _ _ _ E2).
    cbn [negb]. unfold hashWithPrefix, call, mbind, M_bind, mret, M_ret.
    cbn [result_of]. eexists. split; [reflexivity|]. split; [reflexivity|].
    intros Hne E. by apply app_inv_head in E.
  - intros st' salt' v s v1 t1 Hnp Hnone.
    unfold stretchSecret. rewrite !bool_decide_eq_false_2 by done.
    rewrite std_equal_scrypt. case_bool_decide as Hpre; [|by intros [=]].
    pose proof (prefix_length _ _ Hpre) as Hlen.
    unfold substr. rewrite decide_True by done.
    unfold mbind, M_bind, call, mret, M_ret.
    destruct (parse_scrypt_parameters _) as [[[Nf rf] pf]|]; [|by intros [=]].
    destruct (crypto_scrypt _ _ _ _ _ _) as [rc out] eqn:Escrypt.
    cbn [fst snd]. case_bool_decide as Hrc; cbn [negb]; [|by intros [=]].
    intros [= <- _ _]. split; [done|]. subst rc. by eexists _, _, _, _.
  - intros Hsec salt' sd' v a1 v1 t1 a2 v2 t2.
    unfold generateAppId, stretchSecret, hashWithPrefix, call, mbind, M_bind,
      mret, M_ret.
    cbn. intros [= <- _ _] [= <- _ _] E.
    apply app_inv_head in E. congruence.
Qed.

End WrongCredential.

(** ** The prefix test once more *)

Section PrefixTest.
Context `{Platform}.

(** Every position the run dereferences lies within the first range's
    length of where it started. *)
Lemma std_equal_run_reads r1 s i :
  Forall (λ j, i ≤ j < i + length r1) (std_equal_run r1 s i).1.
Proof.
  revert i. induction r1 as [|c r1 IH]; intros i; cbn [std_equal_run fst].
  - constructor.
  - destruct (deref s i) as [d|]; [|repeat constructor; cbn; lia].
    destruct (Ascii.eqb c d); [|repeat constructor; cbn; lia].
    specialize (IH (S i)). destruct (std_equal_run r1 s (S i)) as [reads v].
    cbn [fst] in *. constructor; [cbn; lia|].
    eapply Forall_impl; [exact IH|]. cbn. intros j Hj. lia.
Qed.

(** C10.  For every stretching specification, the prefix test of
    [stretchSecret] dereferences only positions that hold a character of
    the string or, when the string ends before the tag does, the position
    directly behind its last character, where a [std::string] keeps its NUL
    terminator: every dereference returns a value, the branch for a
    position outside the buffer is never taken, and [stretchSecret] never
    raises.  On "scr" the positions read are 0 to 3, position 3 holds the
    terminator, the comparison answers false, and [stretchSecret] reports
    an unknown stretching, having called nothing. *)
Theorem C10_prefix_test_stays_in_bounds stretching :
  is_Some (std_equal kStretchPrefix_scrypt stretching)
  ∧ Forall (λ i, i ≤ length stretching
                 ∧ i < length kStretchPrefix_scrypt
                 ∧ is_Some (deref stretching i))
      (std_equal_reads kStretchPrefix_scrypt stretching)
  ∧ (∀ secret salt stretched w,
       stretchSecret stretching secret salt stretched w ≠ Aborts)
  ∧ std_equal_reads kStretchPrefix_scrypt (lit "scr") = [0; 1; 2; 3]
  ∧ deref (lit "scr") 3 = Some NUL
  ∧ std_equal kStretchPrefix_scrypt (lit "scr") = Some false
  ∧ (∀ secret salt stretched w,
       stretchSecret (lit "scr") secret salt stretched w
       = Returns (false, stretched) w []).
Proof.
  split; [by rewrite std_equal_scrypt|].
  split; [|split; [|by repeat split]].
  - destruct (std_equal_run_spec kStretchPrefix_scrypt stretching 0
                kStretchPrefix_scrypt_no_NUL ltac:(lia)) as [_ Hle].
    pose proof (std_equal_run_reads kStretchPrefix_scrypt stretching 0) as Hlt.
    unfold std_equal_reads.
    assert (Forall (λ j, j ≤ length stretching
                         ∧ 0 ≤ j < 0 + length kStretchPrefix_scrypt)
              (std_equal_run kStretchPrefix_scrypt stretching 0).1) as Hboth
      by (apply Forall_and; by split).
    eapply Forall_impl; [exact Hboth|].
    intros i [Hi1 Hi2]. cbv beta in *. split; [done|]. split; [lia|].
    destruct (stretching !! i) as [c|] eqn:E.
    + rewrite (deref_lookup _ _ _ E). by eexists.
    + apply lookup_ge_None in E. assert (i = length stretching) as -> by lia.
      rewrite deref_end. by eexists.
  - intros secret salt stretched w.
    unfold stretchSecret. repeat (case_bool_decide; [done|]).
    rewrite std_equal_scrypt. case_bool_decide as Hpre; [|done].
    apply prefix_length in Hpre. unfold substr. rewrite decide_True by done.
    unfold mbind, M_bind, call, mret, M_ret.
    destruct (parse_scrypt_parameters _) as [[[Nf rf] pf]|]; [|done].
    destruct (crypto_scrypt _ _ _ _ _ _) as [rc out]. cbn [fst snd].
    by case_bool_decide.
Qed.

End PrefixTest.

Lemma C8_witness :
  lit "pbkdf2 4096" ≠ kStretch_nopassword
  ∧ lit "pbkdf2 4096" ≠ kStretch_none
  ∧ ¬ kStretchPrefix_scrypt `prefix_of` lit "pbkdf2 4096"
  ∧ stretchSecret (lit "pbkdf2 4096") (lit "pw") (lit "salt") [] Ref.boot
    = Returns (false, []) Ref.boot [].
Proof.
  assert (lit "pbkdf2 4096" ≠ kStretch_nopassword) as H1 by discriminate.
  assert (lit "pbkdf2 4096" ≠ kStretch_none) as H2 by discriminate.
  assert (¬ kStretchPrefix_scrypt `prefix_of` lit "pbkdf2 4096") as H3
    by (apply (bool_decide_eq_false_1 _); reflexivity).
  exact (conj H1 (conj H2 (conj H3
    (C8_unknown_stretching_fails _ (lit "pw") (lit "salt") [] Ref.boot
       H1 H2 H3)))).
Defined.

Lemma C5_witness :
  let w := Ref.with_file (path Ref.dir0 kFn_version) (lit "2") Ref.boot in
  retrieveKey 1 Ref.dir0 kEmptyAuthentication [] w
  = Returns (false, []) w
      [E_ReadFileToString (path Ref.dir0 kFn_version) (Some (lit "2"))]
  ∧ is_crypto (E_ReadFileToString (path Ref.dir0 kFn_version) (Some (lit "2")))
    = false.
Proof.
  apply (C5_version_gate (H := Ref.platform)).
  - vm_compute. reflexivity.
  - discriminate.
Defined.

(** ** The reference platform meets the assumptions *)

Lemma GetTagValue_app t (a b : AuthorizationSet) :
  GetTagValue t (a ++ b)
  = match GetTagValue t a with
    | Some x => Some x
    | None => GetTagValue t b
    end.
Proof.
  induction a as [|[t' v] a IH]; [done|]. cbn [app GetTagValue].
  case_decide; [|done]. by destruct v.
Qed.

Lemma xor_ascii_involutive m c : Ref.xor_ascii m (Ref.xor_ascii m c) = c.
Proof.
  destruct m as [m0 m1 m2 m3 m4 m5 m6 m7], c as [c0 c1 c2 c3 c4 c5 c6 c7].
  cbn. f_equal;
    match goal with |- xorb ?a (xorb ?a ?b) = ?b => by destruct a, b end.
Qed.

Lemma xor_stream_involutive key iv data :
  Ref.xor_stream key iv (Ref.xor_stream key iv data) = data.
Proof.
  unfold Ref.xor_stream. rewrite <- list_fmap_compose.
  rewrite <- (list_fmap_id data) at 2. apply list_fmap_ext.
  intros _ c _. apply xor_ascii_involutive.
Qed.

Lemma xor_stream_length key iv data :
  length (Ref.xor_stream key iv data) = length data.
Proof. apply length_map. Qed.

Lemma digest_length len s : length (Ref.digest len s) = len.
Proof. unfold Ref.digest. destruct (Ref.checksum s). apply resize_length. Qed.

Lemma mac_length key iv body : length (Ref.mac key iv body) = GCM_MAC_BYTES.
Proof. apply digest_length. Qed.

(** *** Keys with different checksums never share a tag *)

Lemma rot_inj a b : Ref.rot a = Ref.rot b → a = b.
Proof.
  destruct a as [a0 a1 a2 a3 a4 a5 a6 a7], b as [b0 b1 b2 b3 b4 b5 b6 b7].
  cbn. by intros [= -> -> -> -> -> -> -> ->].
Qed.

Lemma xorb_cancel_r a b c : xorb a c = xorb b c → a = b.
Proof. by destruct a, b, c. Qed.

Lemma xor_ascii_cancel_r a b c :
  Ref.xor_ascii a c = Ref.xor_ascii b c → a = b.
Proof.
  destruct a as [a0 a1 a2 a3 a4 a5 a6 a7], b as [b0 b1 b2 b3 b4 b5 b6 b7],
    c as [c0 c1 c2 c3 c4 c5 c6 c7].
  cbn. intros [= E0 E1 E2 E3 E4 E5 E6 E7].
  f_equal; by eapply xorb_cancel_r.
Qed.

(** The checksum forgets nothing of the state it is continued from: two
    distinct states stay distinct over any common continuation. *)
Lemma checksum_fold_inj (s : bytes) (st st' : ascii * ascii) :
  fold_left (λ '(a, b) c, (Ref.xor_ascii (Ref.rot a) c,
                            Ref.xor_ascii (Ref.rot b) (Ref.rot a))) s st
  = fold_left (λ '(a, b) c, (Ref.xor_ascii (Ref.rot a) c,
                              Ref.xor_ascii (Ref.rot b) (Ref.rot a))) s st' →
  st = st'.
Proof.
  revert st st'. induction s as [|c s IH]; intros [a b] [a' b']; [done|].
  cbn [fold_left]. intros E. apply IH in E. injection E as Ea Eb.
  apply xor_ascii_cancel_r, rot_inj in Ea. subst a'.
  apply xor_ascii_cancel_r, rot_inj in Eb. by subst b'.
Qed.

Lemma checksum_app_inj k k' s :
  Ref.checksum (k ++ s) = Ref.checksum (k' ++ s) →
  Ref.checksum k = Ref.checksum k'.
Proof.
  unfold Ref.checksum. rewrite !fold_left_app. apply checksum_fold_inj.
Qed.

Lemma digest_mac_inj s s' :
  Ref.digest GCM_MAC_BYTES s = Ref.digest GCM_MAC_BYTES s' →
  Ref.checksum s = Ref.checksum s'.
Proof.
  unfold Ref.digest. destruct (Ref.checksum s) as [a b],
    (Ref.checksum s') as [a' b'].
  cbn. by intros [= -> ->].
Qed.

Lemma mac_inj key key' iv body :
  Ref.mac key iv body = Ref.mac key' iv body →
  Ref.checksum key = Ref.checksum key'.
Proof.
  unfold Ref.mac. intros E. apply digest_mac_inj in E.
  by apply checksum_app_inj in E.
Qed.

Section RefLaws.
#[local] Existing Instance Ref.platform.

Lemma Ref_returns_eta {A} (o : Outcome A) r :
  result_of o = Some r → o = Returns r (Ref.world_of o) (Ref.trace_of o).
Proof. destruct o; [|done..]. by intros [= ->]. Qed.

Lemma Ref_write_read payload f s s' :
  WriteStringToFile payload f s = (true, s') →
  ReadFileToString f s' = Some payload.
Proof. intros [= <-]. apply lookup_insert_eq. Qed.

Lemma Ref_write_other payload f s ok s' g :
  WriteStringToFile payload f s = (ok, s') → g ≠ f →
  ReadFileToString g s' = ReadFileToString g s.
Proof. intros [= _ <-] Hg. by apply lookup_insert_ne. Qed.

Lemma Ref_rename_moves from to s s' :
  rename from to s = (0%Z, s') →
  ReadFileToString to s' = ReadFileToString from s
  ∧ ∀ g, g ≠ from → g ≠ to → ReadFileToString g s' = ReadFileToString g s.
Proof.
  cbn. unfold Ref.fs_rename, Ref.fs_read.
  destruct (Ref.files s !! from) as [c|] eqn:E; [|done].
  intros [= <-]. cbn. split; [by rewrite lookup_insert_eq|].
  intros g Hf Ht. by rewrite lookup_insert_ne, lookup_delete_ne.
Qed.

Lemma Ref_random_length count s out s' :
  ReadRandomBytes count s = (0%Z, out, s') → length out = count.
Proof. intros [= <- _]. apply length_replicate. Qed.

Lemma Ref_ctx_new_succeeds s : is_Some (EVP_CIPHER_CTX_new s).1.
Proof. by eexists. Qed.

Lemma Ref_evp_seals c0 key iv pt c1 body c2 fin c3 buf tag c4 :
  EVP_EncryptInit_ex c0 key iv = (1%Z, c1) →
  EVP_EncryptUpdate c1 pt = (1%Z, body, c2) →
  EVP_EncryptFinal_ex c2 = (1%Z, fin, c3) →
  EVP_CIPHER_CTX_ctrl c3 EVP_CTRL_GCM_GET_TAG GCM_MAC_BYTES buf
  = (1%Z, tag, c4) →
  length body = length pt ∧ length tag = GCM_MAC_BYTES
  ∧ ∀ d0, ∃ d1 d2 x d3 d4,
      EVP_DecryptInit_ex d0 key iv = (1%Z, d1)
      ∧ EVP_DecryptUpdate d1 body = (1%Z, pt, d2)
      ∧ EVP_CIPHER_CTX_ctrl d2 EVP_CTRL_GCM_SET_TAG GCM_MAC_BYTES tag
        = (1%Z, x, d3)
      ∧ EVP_DecryptFinal_ex d3 = (1%Z, [], d4).
Proof.
  cbn. unfold Ref.ctx_init, Ref.ctx_encrypt_update, Ref.ctx_encrypt_final,
    Ref.ctx_ctrl.
  intros [= <-] [= <- <-] [= _ <-] [= <- _]. cbn.
  split; [apply xor_stream_length|]. split; [apply resize_length|].
  intros d0. eexists _, _, _, _, _. split; [done|].
  unfold Ref.ctx_decrypt_update. cbn. rewrite xor_stream_involutive.
  split; [done|]. split; [done|].
  unfold Ref.ctx_decrypt_final. cbn.
  pose proof (mac_length key iv (Ref.xor_stream key iv pt)) as Hm.
  unfold GCM_MAC_BYTES in Hm. rewrite Hm. cbn [Nat.sub replicate].
  rewrite app_nil_r. rewrite !(take_ge (Ref.mac _ _ _)) by lia.
  by rewrite bool_decide_eq_true_2.
Qed.

Lemma Ref_default_operation_invalid : op_bool KeymasterOperation_default = false.
Proof. done. Qed.

Lemma Ref_keymaster_seals
    s blob keyParams o opHandle outParams s1 nonce message body s2 mac s3 :
  GetTagValue TAG_NONCE keyParams = None →
  Ref.km_begin ENCRYPT blob keyParams o s = (opHandle, outParams, s1) →
  bool_decide (Ref.h_error opHandle = OK) = true →
  GetTagValue TAG_NONCE (default [] outParams) = Some nonce →
  Ref.km_update opHandle message s1 = (true, body, s2) →
  Ref.km_finish opHandle true s2 = (true, mac, s3) →
  Ref.available s3 = true
  ∧ ∃ opHandle' o' s4 s5 x s6,
      Ref.km_begin DECRYPT blob
        (keyParams ++ [(TAG_NONCE, V_blob nonce)]) None s3
      = (opHandle', o', s4)
      ∧ bool_decide (Ref.h_error opHandle' = OK) = true
      ∧ Ref.km_update opHandle' (body ++ mac) s4 = (true, message, s5)
      ∧ Ref.km_finish opHandle' false s5 = (true, x, s6).
Proof.
  unfold Ref.km_begin. intros Hkp.
  generalize (replicate GCM_NONCE_BYTES
                (ascii_of_nat (97 + Ref.nonce_counter s mod 26))).
  intros fresh.
  destruct (Ref.available s) eqn:Eav; cbn [negb]; [|by intros [= <- _ _]].
  case_bool_decide as Edel; [by intros [= <- _ _]|].
  case_decide as Elen; [by intros [= <- _ _]|].
  case_decide as Ever; [by intros [= <- _ _]|].
  case_bool_decide as Eapp; cbn [negb]; [|by intros [= <- _ _]].
  destruct (Ref.blob_needs_auth blob && _) eqn:Eauth; [by intros [= <- _ _]|].
  intros [= <- <- <-] _. destruct o as [o|]; [|done].
  cbn [from_option id GetTagValue].
  rewrite decide_True by done.
  intros [= <-]. unfold Ref.km_update, Ref.km_finish.
  cbn [Ref.h_error Ref.h_purpose Ref.h_key Ref.h_nonce negb].
  rewrite bool_decide_eq_true_2 by done. cbn [negb].
  intros [= <- <-].
  cbn [Ref.available Ref.deleted Ref.op_mac Ref.op_tag_ok Ref.nonce_counter].
  intros [= <- <-].
  cbn [Ref.available Ref.deleted Ref.op_mac Ref.op_tag_ok Ref.nonce_counter].
  split; [done|].
  cbn [negb]. rewrite bool_decide_eq_false_2 by done.
  rewrite !GetTagValue_app, Eapp, Hkp. cbn [GetTagValue].
  rewrite (decide_False (P := TAG_NONCE = TAG_AUTH_TOKEN)) by done.
  rewrite (decide_True (P := TAG_NONCE = TAG_NONCE)) by done.
  rewrite bool_decide_eq_true_2 by done. cbn [negb from_option id].
  assert (Ref.blob_needs_auth blob
          && bool_decide
               (match GetTagValue TAG_AUTH_TOKEN keyParams with
                | Some x => Some x
                | None => None
                end = None) = false) as ->.
  { destruct (Ref.blob_needs_auth blob); [|done]. cbn [andb] in *.
    destruct (GetTagValue TAG_AUTH_TOKEN keyParams); [done|].
    by rewrite bool_decide_eq_true_2 in Eauth. }
  eexists _, _, _, _, _, _. split; [done|].
  cbn [Ref.h_error Ref.h_purpose Ref.h_key Ref.h_nonce negb
       Ref.available Ref.deleted Ref.op_mac Ref.op_tag_ok Ref.nonce_counter].
  rewrite bool_decide_eq_true_2 by done. cbn [negb]. split; [done|].
  rewrite decide_False
    by (rewrite length_app, mac_length; unfold GCM_MAC_BYTES; lia).
  rewrite length_app, mac_length, Nat.add_sub.
  rewrite take_app_length, drop_app_length, xor_stream_involutive.
  rewrite bool_decide_eq_true_2 by done. done.
Qed.

Lemma Ref_upgrades_descend
    purpose kmKey inParams outParams s opHandle outParams' s1 keyParams
    newKey s2 :
  Keymaster_begin purpose kmKey inParams outParams s
  = (opHandle, outParams', s1) →
  op_bool opHandle = false →
  errorCode opHandle = KEY_REQUIRES_UPGRADE →
  Keymaster_upgradeKey kmKey keyParams s1 = (Some newKey, s2) →
  Ref_rank newKey < Ref_rank kmKey.
Proof.
  cbn. unfold Ref.km_upgradeKey. intros _ _ _.
  destruct (negb (Ref.available s1)); [done|].
  case_decide as Ever; [|done]. intros [= <- _].
  unfold Ref_rank, Ref.blob_version in *. cbn [hd].
  rewrite nat_ascii_embedding; unfold Ref.format_version in *; lia.
Qed.

(** The reference cipher refuses under a key what it sealed under a key
    with another checksum; the reference Keymaster generates keys in its
    current format and checks the application id and the authentication
    requirement written into the blob. *)
Lemma Ref_evp_rejects key key' :
  Ref.checksum key ≠ Ref.checksum key' → evp_rejects key key'.
Proof.
  intros Hne c0 iv pt c1 body c2 fin c3 buf tag c4 d0 d1 pt' d2 x d3 rc out d4.
  cbn. unfold Ref.ctx_init, Ref.ctx_encrypt_update, Ref.ctx_encrypt_final,
    Ref.ctx_ctrl, Ref.ctx_decrypt_update, Ref.ctx_decrypt_final.
  intros [= <-] [= <- <-] [= _ <-] [= <- _] [= <-] [= _ <-] [= _ <-]. cbn.
  pose proof (mac_length key iv (Ref.xor_stream key iv pt)) as Hm.
  unfold GCM_MAC_BYTES in Hm. rewrite Hm. cbn [Nat.sub replicate].
  rewrite app_nil_r. rewrite !(take_ge (Ref.mac _ _ _)) by lia.
  case_bool_decide as E; [|by intros [= <- _ _]].
  by apply mac_inj in E.
Qed.

Lemma Ref_soft_rejects key ct :
  take GCM_MAC_BYTES
    (drop (GCM_NONCE_BYTES + (length ct - GCM_NONCE_BYTES - GCM_MAC_BYTES)) ct)
  ≠ Ref.mac key (iv_at ct)
      (take (length ct - GCM_NONCE_BYTES - GCM_MAC_BYTES)
         (drop GCM_NONCE_BYTES ct)) →
  soft_rejects key ct.
Proof.
  intros Hne d0 d1 pt d2 x d3 rc out d4.
  cbn. unfold Ref.ctx_init, Ref.ctx_ctrl, Ref.ctx_decrypt_update,
    Ref.ctx_decrypt_final.
  intros [= <-] [= _ <-] [= _ <-]. cbn.
  rewrite take_take, Nat.min_id.
  case_bool_decide as E; [done|]. by intros [= <- _ _].
Qed.

Lemma Ref_fresh_keys_current
    params s blob s' purpose q o s2 opHandle o' s3 :
  Keymaster_generateKey params s = (Some blob, s') →
  Keymaster_begin purpose blob q o s2 = (opHandle, o', s3) →
  op_bool opHandle = false →
  errorCode opHandle ≠ KEY_REQUIRES_UPGRADE.
Proof.
  cbn. unfold Ref.km_generateKey, Ref.km_begin.
  destruct (Ref.available s); [|done]. intros [= <- _].
  destruct (negb (Ref.available s2)); [by intros [= <- _ _]|].
  case_bool_decide; [by intros [= <- _ _]|].
  case_decide; [by intros [= <- _ _]|].
  rewrite decide_False by (vm_compute; lia).
  destruct (negb _); [by intros [= <- _ _]|].
  destruct (_ && _); by intros [= <- _ _].
Qed.

Lemma Ref_keymaster_binds
    params s blob s' purpose q o s2 opHandle o' s3 :
  Keymaster_generateKey params s = (Some blob, s') →
  mismatch params q →
  Keymaster_begin purpose blob q o s2 = (opHandle, o', s3) →
  op_bool opHandle = false.
Proof.
  cbn. unfold Ref.km_generateKey, Ref.km_begin.
  destruct (Ref.available s); [|done]. intros [= <- _] Hmis.
  destruct (negb (Ref.available s2)); [by intros [= <- _ _]|].
  case_bool_decide; [by intros [= <- _ _]|].
  case_decide; [by intros [= <- _ _]|].
  case_decide; [by intros [= <- _ _]|].
  unfold Ref.blob_appId, Ref.blob_needs_auth. cbn [drop lookup list_lookup].
  case_bool_decide as Eid; cbn [negb]; [|by intros [= <- _ _]].
  destruct Hmis as [(appId & Eparams & Hq)|[Hflag Htok]].
  - rewrite Eparams in Eid. cbn in Eid. done.
  - assert (Ref.has_tag TAG_NO_AUTH_REQUIRED params = false) as ->
      by (by apply bool_decide_eq_false_2).
    rewrite !bool_decide_eq_true_2 by done. by intros [= <- _ _].
Qed.


End RefLaws.

(** ** The functions at work on the reference platform *)

Lemma Some_default {A} (o : option A) (d x : A) :
  o = Some x → x = default d o.
Proof. by intros ->. Qed.

Section Examples.
#[local] Existing Instance Ref.platform.

Lemma C1_witness :
  ∃ w2 tr2,
    retrieveKey (H := Ref.platform) 1 Ref.dir0 Ref.auth_token_secret []
      (Ref.stored Ref.auth_token_secret)
    = Returns (true, Ref.key0) w2 tr2.
Proof.
  apply (C1_round_trip (H := Ref.platform)
           Ref_write_read Ref_write_other Ref_rename_moves Ref_random_length
           Ref_ctx_new_succeeds Ref_evp_seals Ref_default_operation_invalid
           Ref_keymaster_seals
           1 Ref.dir0 Ref.auth_token_secret Ref.key0 Ref.boot
           (Ref.stored Ref.auth_token_secret)
           (Ref.trace_of
              (storeKey 1 Ref.dir0 Ref.auth_token_secret Ref.key0 Ref.boot))).
  - vm_compute. reflexivity.
  - apply Ref_returns_eta. vm_compute. reflexivity.
  - lia.
Defined.

(** Stored under a token and no secret, the key is handed out to whoever
    presents the token, with any secret: the stretching file says
    "nopassword", and the presented secret is never looked at. *)
Lemma C2_counterexample :
  Ref.auth_token_secret ≠ Ref.auth_token
  ∧ result_of (storeKey 1 Ref.dir0 Ref.auth_token Ref.key0 Ref.boot)
    = Some true
  ∧ ReadFileToString (path Ref.dir0 kFn_stretching)
      (w_fs (Ref.stored Ref.auth_token))
    = Some kStretch_nopassword
  ∧ result_of (retrieveKey 1 Ref.dir0 Ref.auth_token_secret []
                 (Ref.stored Ref.auth_token))
    = Some (true, Ref.key0).
Proof. split; [discriminate|]. vm_compute. done. Qed.

(** Stored under one credential and asked for under another: without the
    Keymaster and with another secret; with the Keymaster and another
    secret; with the Keymaster and the token missing; with the token
    missing and the secret kept, which takes the ciphertext of the
    Keymaster to the software cipher.  And the exception: the token kept,
    no secret at store time, a secret at retrieval. *)
Lemma C2_witness :
  (∃ out' w2 tr2,
     retrieveKey (H := Ref.platform) 1 Ref.dir0 Ref.auth_other_secret []
       (Ref.stored Ref.auth_secret)
     = Returns (false, out') w2 tr2)
  ∧ (∃ out' w2 tr2,
       retrieveKey (H := Ref.platform) 1 Ref.dir0 Ref.auth_token_other_secret []
         (Ref.stored Ref.auth_token_secret)
       = Returns (false, out') w2 tr2)
  ∧ (∃ out' w2 tr2,
       retrieveKey (H := Ref.platform) 1 Ref.dir0 kEmptyAuthentication []
         (Ref.stored Ref.auth_token)
       = Returns (false, out') w2 tr2)
  ∧ (∃ out' w2 tr2,
       retrieveKey (H := Ref.platform) 1 Ref.dir0 Ref.auth_secret []
         (Ref.stored Ref.auth_token_secret)
       = Returns (false, out') w2 tr2)
  ∧ retrieveKey (H := Ref.platform) 1 Ref.dir0 Ref.auth_token_secret []
      (Ref.stored Ref.auth_token)
    = retrieveKey 1 Ref.dir0 Ref.auth_token [] (Ref.stored Ref.auth_token).
Proof.
  pose (thm := λ auth1 auth2,
    C2_wrong_credential_is_refused (H := Ref.platform)
      Ref_write_read Ref_write_other Ref_random_length Ref_evp_seals
      Ref_default_operation_invalid Ref_fresh_keys_current
      Ref_keymaster_binds
      1 Ref.dir0 auth1 auth2 Ref.key0 Ref.boot (Ref.stored auth1)
      (Ref.trace_of (storeKey 1 Ref.dir0 auth1 Ref.key0 Ref.boot))).
  split; [|split; [|split; [|split]]].
  - destruct (thm Ref.auth_secret Ref.auth_other_secret) as (Hsoft & _).
    { apply Ref_returns_eta. vm_compute. reflexivity. }
    apply Hsoft; [reflexivity | reflexivity |].
    intros appId1 appId2 E1 E2.
    apply (Some_default _ []) in E1, E2. subst appId1 appId2.
    apply Ref_evp_rejects. apply (bool_decide_eq_false_1 _).
    vm_compute. reflexivity.
  - destruct (thm Ref.auth_token_secret Ref.auth_token_other_secret)
      as (_ & Hkm & _).
    { apply Ref_returns_eta. vm_compute. reflexivity. }
    apply Hkm; [reflexivity | reflexivity | | lia].
    right. apply (bool_decide_eq_false_1 _). vm_compute. reflexivity.
  - destruct (thm Ref.auth_token kEmptyAuthentication) as (_ & Hkm & _).
    { apply Ref_returns_eta. vm_compute. reflexivity. }
    apply Hkm; [reflexivity | reflexivity | | lia].
    left. split; [discriminate | reflexivity].
  - destruct (thm Ref.auth_token_secret Ref.auth_secret)
      as (_ & _ & _ & _ & Hrej & _).
    { apply Ref_returns_eta. vm_compute. reflexivity. }
    apply Hrej; [reflexivity|].
    intros appId ct E1 E2.
    apply (Some_default _ []) in E1, E2. subst appId ct.
    apply Ref_soft_rejects. apply (bool_decide_eq_false_1 _).
    vm_compute. reflexivity.
  - destruct (thm Ref.auth_token Ref.auth_token_secret)
      as (_ & _ & Hsame & _).
    { apply Ref_returns_eta. vm_compute. reflexivity. }
    by destruct (Hsame eq_refl eq_refl eq_refl eq_refl) as (_ & _ & ->).
Defined.


(** With the last byte of the stored ciphertext changed, retrieval fails
    at the tag check, and the caller's buffer, empty on entry, holds the
    decrypted key on return: without the Keymaster and with it. *)
Lemma C3_counterexample :
  result_of (retrieveKey 1 Ref.dir0 Ref.auth_secret []
               (Ref.tamper (path Ref.dir0 kFn_encrypted_key)
                  (Ref.stored Ref.auth_secret)))
  = Some (false, Ref.key0)
  ∧ result_of (retrieveKey 1 Ref.dir0 Ref.auth_token []
                 (Ref.tamper (path Ref.dir0 kFn_encrypted_key)
                    (Ref.stored Ref.auth_token)))
    = Some (false, Ref.key0).
Proof. vm_compute. done. Qed.

Lemma C3_witness :
  let w :=
    Ref.with_file (path Ref.dir0 kFn_encrypted_key) (lit "short")
      (Ref.stored Ref.auth_secret) in
  ∃ out w' tr,
    retrieveKey 1 Ref.dir0 Ref.auth_secret (lit "old") w
    = Returns (false, out) w' tr
    ∧ Forall (λ e, is_update e = false) tr
    ∧ out = lit "old".
Proof.
  intros w.
  assert (retrieveKey 1 Ref.dir0 Ref.auth_secret (lit "old") w
          = Returns (false, lit "old")
              (Ref.world_of
                 (retrieveKey 1 Ref.dir0 Ref.auth_secret (lit "old") w))
              (Ref.trace_of
                 (retrieveKey 1 Ref.dir0 Ref.auth_secret (lit "old") w)))
    as E by (apply Ref_returns_eta; vm_compute; reflexivity).
  assert (Forall (λ e, is_update e = false)
            (Ref.trace_of
               (retrieveKey 1 Ref.dir0 Ref.auth_secret (lit "old") w)))
    as Hall by (apply (bool_decide_unpack _); vm_compute; reflexivity).
  exact (ex_intro _ _ (ex_intro _ _ (ex_intro _ _
    (conj E (conj Hall
       (C3_failure_before_update (H := Ref.platform) _ _ _ _ _ _ _ _
          E Hall)))))).
Defined.

Lemma C6_witness :
  ∃ r w' tr,
    begin (H := Ref.platform) 3 Ref.dir0 ENCRYPT Ref.params0 [] None
      Ref.outdated
    = Returns r w' tr
    ∧ (∀ kmKey,
         ReadFileToString (path Ref.dir0 kFn_keymaster_key_blob)
           (w_fs Ref.outdated) = Some kmKey →
         length (begin_results tr) ≤ S (Ref_rank kmKey))
    ∧ Forall upgrade_required (removelast (begin_results tr)).
Proof.
  apply (C6_begin_terminates (H := Ref.platform) Ref_rank Ref_upgrades_descend).
  intros kmKey E. vm_compute in E. injection E as <-. vm_compute. lia.
Defined.

Lemma C7_witness :
  let tr :=
    Ref.trace_of
      (storeKey 1 Ref.dir0 Ref.auth_token_secret Ref.key0 Ref.boot) in
  let configured :=
    (ReadRandomBytes SECDISCARDABLE_BYTES (w_os Ref.boot)).2 in
  (∀ w0, result_of (getStretching Ref.auth_token_secret w0)
         = Some (stretching_policy Ref.auth_token_secret (w_os w0)))
  ∧ (∀ payload ok,
       (payload, ok) ∈ writes_at (path Ref.dir0 kFn_stretching) tr →
       payload = stretching_policy Ref.auth_token_secret configured)
  ∧ (true = true →
     writes_at (path Ref.dir0 kFn_stretching) tr
     = [(stretching_policy Ref.auth_token_secret configured, true)]).
Proof.
  apply (C7_stretching_choice (H := Ref.platform)
           1 Ref.dir0 Ref.auth_token_secret Ref.key0 Ref.boot true
           (Ref.stored Ref.auth_token_secret)).
  apply Ref_returns_eta. vm_compute. reflexivity.
Defined.


End Examples.

(** * Further properties of the code *)

(** ** The prefix test and the stretching modes *)

(** X1.  The prefix test of [stretchSecret] decides whether the specification
    starts with the scrypt tag, for every specification; every position it
    dereferences holds a character of the string or its terminator. *)
Theorem prefix_test_decides s :
  std_equal kStretchPrefix_scrypt s
  = Some (bool_decide (kStretchPrefix_scrypt `prefix_of` s))
  ∧ Forall (λ i, i ≤ length s ∧ slot s i ≠ Beyond)
           (std_equal_reads kStretchPrefix_scrypt s).
Proof.
  split; [apply std_equal_scrypt|].
  destruct (std_equal_run_spec kStretchPrefix_scrypt s 0
              kStretchPrefix_scrypt_no_NUL ltac:(lia)) as [_ Hreads].
  unfold std_equal_reads. eapply Forall_impl; [exact Hreads|].
  intros i Hi. cbv beta in Hi. split; [done|]. unfold slot.
  destruct (s !! i) eqn:E; [done|].
  apply lookup_ge_None in E. rewrite decide_True by lia. done.
Qed.

(** ** Events inside a key directory *)

Lemma key_file_intro dir name :
  bool_decide (name ∈ key_files) = true → key_file dir (path dir name).
Proof. intros Hin. apply bool_decide_eq_true in Hin. by exists name. Qed.

Lemma confined_retrieve dir e : retrieve_event dir e → confined dir e.
Proof.
  destruct e; cbn; try done. intros ->. by apply key_file_intro.
Qed.

Lemma retrieve_begin dir tr :
  Forall (begin_event dir) tr → Forall (retrieve_event dir) tr.
Proof.
  intros Htr. eapply Forall_impl; [exact Htr|].
  intros []; cbn; try done. intros ->. by apply key_file_intro.
Qed.

Lemma retrieve_crypto dir tr :
  Forall (λ e, is_crypto e = true) tr → Forall (retrieve_event dir) tr.
Proof. intros Htr. eapply Forall_impl; [exact Htr|]. by intros []; cbn. Qed.

Lemma retrieve_cipher dir tr :
  Forall decrypt_event tr → Forall (retrieve_event dir) tr.
Proof. intros Htr. eapply Forall_impl; [exact Htr|]. by intros []; cbn. Qed.

Lemma confined_begin dir tr :
  Forall (begin_event dir) tr → Forall (confined dir) tr.
Proof.
  intros Htr. eapply Forall_impl; [by apply retrieve_begin|].
  apply confined_retrieve.
Qed.

Lemma confined_crypto dir tr :
  Forall (λ e, is_crypto e = true) tr → Forall (confined dir) tr.
Proof. intros Htr. eapply Forall_impl; [exact Htr|]. by intros []; cbn. Qed.

Lemma confined_soft dir tr : Forall soft_event tr → Forall (confined dir) tr.
Proof. intros Htr. eapply Forall_impl; [exact Htr|]. by intros []; cbn. Qed.

Ltac conf :=
  repeat first [ assumption
               | apply Forall_app; split
               | apply Forall_nil
               | apply Forall_cons_2
               | by apply key_file_intro
               | done
               | by split ].

Ltac conf_leaf := repeat wp_step; rewrite ?app_nil_r; conf.

(** ** Deletions in a trace *)





(** ** Tactics for the proofs below *)

Ltac km_free :=
  repeat first [ assumption | apply Forall_app; split | constructor | done ].

Ltac kf_leaf :=
  wp_step; rewrite ?app_nil_r; split; [done|]; split; [done|]; km_free.

Section Further.
Context `{Platform}.


Lemma decryptWithoutKeymaster_calls preKey ct plaintext w :
  wp (decryptWithoutKeymaster preKey ct plaintext) w
     (λ _ _ tr, Forall decrypt_event tr).
Proof.
  unfold decryptWithoutKeymaster.
  case_decide; [wp_step; by repeat constructor|].
  wp_step. apply wp_hashWithPrefix.
  do 2 wp_step. intros [ctx|] s1 _; [|wp_step; by repeat constructor].
  do 2 wp_step. destruct (EVP_DecryptInit_ex _ _ _) as [rc ctx1].
  destruct (bool_decide (rc = 1%Z)); [|wp_step; by repeat constructor].
  do 2 wp_step. destruct (EVP_DecryptUpdate _ _) as [[rc2 out] ctx2].
  destruct (bool_decide (rc2 = 1%Z)); [|wp_step; by repeat constructor].
  destruct (bool_decide (_ = static_cast_int _));
    [|wp_step; by repeat constructor].
  do 2 wp_step. destruct (EVP_CIPHER_CTX_ctrl _ _ _ _) as [[rc4 tag] ctx4].
  destruct (bool_decide (rc4 = 1%Z)); [|wp_step; by repeat constructor].
  do 2 wp_step. destruct (EVP_DecryptFinal_ex _) as [[rc3 out3] ctx3].
  destruct (bool_decide (rc3 = 1%Z)); [|wp_step; by repeat constructor].
  destruct (bool_decide (_ = 0%Z)); wp_step; by repeat constructor.
Qed.

Lemma confined_property_get dir tr :
  Forall (λ e, e = E_property_get SCRYPT_PROP) tr → Forall (confined dir) tr.
Proof. intros Htr. eapply Forall_impl; [exact Htr|]. by intros ? ->. Qed.

(** X2.  [stretchSecret] returns for every input: the [substr] behind the
    prefix test cannot raise, since a specification that passes the test is
    at least as long as the tag.  It leaves the world as it is and makes at
    most two calls, to the parameter parser and to scrypt. *)
Theorem stretchSecret_returns stretching secret salt stretched w :
  ∃ r tr,
    stretchSecret stretching secret salt stretched w = Returns r w tr
    ∧ length tr ≤ 2
    ∧ Forall (λ e, is_crypto e = true) tr.
Proof.
  assert (∀ (r : bool * bytes) tr,
            length tr ≤ 2 → Forall (λ e, is_crypto e = true) tr →
            ∃ r' tr', Returns r w tr = Returns r' w tr' ∧ length tr' ≤ 2
                      ∧ Forall (λ e, is_crypto e = true) tr') as Hleaf
    by (intros r tr ? ?; by exists r, tr).
  unfold stretchSecret.
  case_bool_decide; [apply Hleaf; [cbn; lia | constructor]|].
  case_bool_decide; [apply Hleaf; [cbn; lia | constructor]|].
  rewrite std_equal_scrypt.
  case_bool_decide as Hpre; [|apply Hleaf; [cbn; lia | constructor]].
  apply prefix_length in Hpre. unfold substr.
  rewrite decide_True by done.
  unfold mbind, M_bind, call, mret, M_ret.
  destruct (parse_scrypt_parameters _) as [[[Nf rf] pf]|].
  - destruct (crypto_scrypt _ _ _ _ _ _) as [rc out]. cbn [fst snd].
    case_bool_decide; (apply Hleaf; [cbn; lia | by repeat constructor]).
  - apply Hleaf; [cbn; lia | by repeat constructor].
Qed.

(** X3.  The stretching chosen at store time is one of the three kinds that
    [stretchSecret] knows, and it asks for a salt exactly when the
    Keymaster is used and the secret is not empty. *)
Theorem getStretching_kinds auth w :
  ∃ stretching tr,
    getStretching auth w = Returns stretching w tr
    ∧ (stretching = kStretch_none ∨ stretching = kStretch_nopassword
       ∨ kStretchPrefix_scrypt `prefix_of` stretching)
    ∧ stretchingNeedsSalt stretching
      = usesKeymaster auth && negb (bool_decide (secret auth = [])).
Proof.
  unfold getStretching. destruct (usesKeymaster auth); cbn [negb andb].
  - case_bool_decide.
    + eexists _, _. split; [done|]. split; [by right; left | done].
    + eexists _, _. split; [done|]. split.
      * right; right. by eexists.
      * done.
  - eexists _, _. split; [done|]. split; [by left | done].
Qed.


(** ** Functions that always return *)

Lemma getStretching_total auth w : runs (getStretching auth) w (λ _ _ _, True).
Proof. unfold getStretching. repeat total_step. Qed.

Lemma readRandomBytesOrLog_total count out w :
  runs (readRandomBytesOrLog count out) w (λ _ _ _, True).
Proof. unfold readRandomBytesOrLog. repeat total_step. Qed.

Lemma generateKeymasterKey_total auth appId w :
  runs (generateKeymasterKey auth appId) w (λ _ _ _, True).
Proof. unfold generateKeymasterKey. repeat total_step. Qed.

Lemma encryptWithoutKeymaster_total preKey plaintext ct w :
  runs (encryptWithoutKeymaster preKey plaintext ct) w (λ _ _ _, True).
Proof.
  unfold encryptWithoutKeymaster, hashWithPrefix. runs_step. runs_step.
  runs_step. runs_step. runs_step.
  eapply runs_mono; [apply readRandomBytesOrLog_total|]. intros [[] rnd] w1 t1 _;
    [|by runs_step].
  repeat total_step.
Qed.

Lemma decryptWithoutKeymaster_total preKey ct plaintext w :
  runs (decryptWithoutKeymaster preKey ct plaintext) w (λ _ _ _, True).
Proof.
  unfold decryptWithoutKeymaster, hashWithPrefix. repeat total_step.
Qed.

Lemma stretchSecret_keymaster_free stretching secret salt stretched w :
  wp (stretchSecret stretching secret salt stretched) w
     (λ _ w' tr, w' = w ∧ Forall (λ e, ∀ c, e ≠ E_Keymaster c) tr).
Proof.
  unfold stretchSecret.
  repeat case_bool_decide; try by apply wp_ret.
  rewrite std_equal_scrypt. case_bool_decide; [|by apply wp_ret].
  destruct (substr _ _ _); [|apply wp_throw].
  do 2 wp_step.
  destruct (parse_scrypt_parameters _) as [[[Nf rf] pf]|];
    [|wp_step; split; [done | by repeat constructor]].
  do 2 wp_step.
  destruct (crypto_scrypt _ _ _ _ _ _) as [rc out].
  case_bool_decide; wp_step; (split; [done | by repeat constructor]).
Qed.

(** ** Deleting *)

(** X5.  [deleteKey] succeeds only by deleting, in a Keymaster that is
    available, the very blob the blob file holds; it makes these three
    calls, in this order, and changes no file. *)
Theorem deleteKey_success dir w w' tr :
  deleteKey dir w = Returns true w' tr →
  ∃ kmKey,
    ReadFileToString (path dir kFn_keymaster_key_blob) (w_fs w) = Some kmKey
    ∧ Keymaster_bool (w_km w) = true
    ∧ tr = [E_ReadFileToString (path dir kFn_keymaster_key_blob) (Some kmKey);
            E_Keymaster (Km_connect true);
            E_Keymaster (Km_deleteKey kmKey true)]
    ∧ w_fs w' = w_fs w ∧ w_os w' = w_os w.
Proof.
  intros E.
  enough (wp (deleteKey dir) w (λ r w' tr, r = true →
    ∃ kmKey,
      ReadFileToString (path dir kFn_keymaster_key_blob) (w_fs w) = Some kmKey
      ∧ Keymaster_bool (w_km w) = true
      ∧ tr = [E_ReadFileToString (path dir kFn_keymaster_key_blob)
                (Some kmKey);
              E_Keymaster (Km_connect true);
              E_Keymaster (Km_deleteKey kmKey true)]
      ∧ w_fs w' = w_fs w ∧ w_os w' = w_os w))
    as Hwp by exact (wp_elim _ _ _ _ _ _ Hwp E eq_refl).
  clear. unfold deleteKey. do 2 wp_step.
  destruct (ReadFileToString _ _) as [kmKey|]; [|by wp_step].
  do 2 wp_step. destruct (Keymaster_bool _) eqn:Eav; [|by wp_step].
  do 2 wp_step. intros [] s _; wp_step; [|done].
  intros _. by exists kmKey.
Qed.

(** X6.  Without a blob file, as after a store that did not use the Keymaster,
    [deleteKey] fails at once, and [destroyKey] reports failure whatever
    the two programs it still runs return. *)
Theorem destroyKey_without_blob dir w :
  ReadFileToString (path dir kFn_keymaster_key_blob) (w_fs w) = None →
  ∃ w' rc2 rc3,
    destroyKey dir w
    = Returns false w'
        [E_ReadFileToString (path dir kFn_keymaster_key_blob) None;
         E_ForkExecvp [kSecdiscardPath; lit "--";
                       path dir kFn_encrypted_key;
                       path dir kFn_keymaster_key_blob;
                       path dir kFn_secdiscardable] rc2;
         E_ForkExecvp [kRmPath; lit "-rf"; dir] rc3]
    ∧ w_km w' = w_km w ∧ w_os w' = w_os w.
Proof.
  intros Hblob.
  unfold destroyKey, deleteKey, runSecdiscard, recursiveDeleteKey, forkExecvp,
    readFileToString, on_fs, mbind, M_bind, mret, M_ret.
  rewrite Hblob. cbn [w_fs w_km w_os app andb].
  destruct (ForkExecvp _ (w_fs w)) as [rc2 s2].
  destruct (bool_decide (rc2 = 0%Z)); cbn [negb w_fs w_km w_os app andb];
    destruct (ForkExecvp _ s2) as [rc3 s3];
    destruct (bool_decide (rc3 = 0%Z)); cbn [negb app andb];
    by eexists _, rc2, rc3.
Qed.

(** ** Early failures of [storeKey] *)

(** X7.  When the directory cannot be created (it exists already, say),
    [storeKey] fails having done nothing else. *)
Theorem storeKey_mkdir_fails fuel dir auth key w :
  (mkdir (c_str dir) (w_fs w)).1 = (-1)%Z →
  ∃ w', storeKey fuel dir auth key w
        = Returns false w' [E_mkdir (c_str dir) (-1)]
        ∧ w_km w' = w_km w ∧ w_os w' = w_os w.
Proof.
  intros Hrc. unfold storeKey, on_fs, mbind, M_bind, mret, M_ret.
  destruct (mkdir _ _) as [rc s]. cbn [fst] in Hrc. subst rc.
  rewrite bool_decide_eq_true_2 by done. by eexists.
Qed.

(** X8.  A credential with a token of the wrong size never gets a key: the
    store fails before the Keymaster has been asked for anything, with
    neither a key blob nor a ciphertext written. *)
Theorem storeKey_rejects_malformed_token fuel dir auth key w :
  token auth ≠ [] →
  length (token auth) ≠ sizeof_hw_auth_token_t →
  ∃ w' tr,
    storeKey fuel dir auth key w = Returns false w' tr
    ∧ w_km w' = w_km w
    ∧ writes_at (path dir kFn_keymaster_key_blob) tr = []
    ∧ writes_at (path dir kFn_encrypted_key) tr = [].
Proof.
  intros Htok Hlen.
  assert (usesKeymaster auth = true) as Huses
    by (unfold usesKeymaster; by rewrite bool_decide_eq_false_2).
  assert (generateKeymasterKey auth = λ _, mret None) as Hgen.
  { unfold generateKeymasterKey.
    rewrite bool_decide_eq_false_2 by done.
    by destruct (decide (length (token auth) ≠ sizeof_hw_auth_token_t)). }
  enough (runs (storeKey fuel dir auth key) w (λ r w' tr,
            r = false ∧ w_km w' = w_km w
            ∧ writes_at (path dir kFn_keymaster_key_blob) tr = []
            ∧ writes_at (path dir kFn_encrypted_key) tr = [])) as Hruns.
  { destruct (runs_elim _ _ _ Hruns) as (r & w' & tr & E & -> & ?). eauto. }
  apply runs_and.
  - unfold storeKey. rewrite Huses, Hgen.
    repeat first [ total_step
                 | eapply runs_mono; [apply readRandomBytesOrLog_total|]
                 | eapply runs_mono; [apply getStretching_total|]
                 | eapply runs_mono; [apply generateAppId_total|] ].
  - unfold storeKey. rewrite Huses, Hgen. do 2 wp_step. intros rc s0 _.
    case_bool_decide; [leaf|].
    do 2 wp_step. intros [] s1 _; [|leaf].
    wp_step. apply readRandomBytesOrLog_wp. intros status sd os1 _.
    destruct (bool_decide (status = 0%Z)); [|leaf].
    do 2 wp_step. intros [] s2 _; [|leaf].
    wp_step. apply wp_getStretching. intros tg Htg.
    pose proof (writes_at_property_get (path dir kFn_keymaster_key_blob) _ Htg).
    pose proof (writes_at_property_get (path dir kFn_encrypted_key) _ Htg).
    do 2 wp_step. intros [] s3 _; [|leaf].
    wp_step.
    apply (wp_mono _ _ (λ _ w1 t1,
             w_km w1 = w_km w
             ∧ writes_at (path dir kFn_keymaster_key_blob) t1 = []
             ∧ writes_at (path dir kFn_encrypted_key) t1 = [])).
    { destruct (stretchingNeedsSalt _); [|leaf].
      do 2 wp_step. intros [status2 salt] os2 _.
      destruct (bool_decide (status2 = 0%Z)); [|leaf].
      do 2 wp_step. intros [] s4 _; leaf. }
    intros [salt|] w1 t1 (Hkm & Hb & He); [|leaf].
    wp_step. eapply wp_mono; [apply generateAppId_footprint|].
    intros [[] appId] w2 t2 [-> Ht2];
      pose proof (writes_at_crypto (path dir kFn_keymaster_key_blob) _ Ht2);
      pose proof (writes_at_crypto (path dir kFn_encrypted_key) _ Ht2);
      [|leaf].
    wp_step. do 2 wp_step. destruct (Keymaster_bool _); leaf.
Qed.

(** ** Without the Keymaster *)

(** X9.  Under a credential that does not use the Keymaster, [retrieveKey]
    returns whatever the fuel (there is no loop on its way), changes no file
    and leaves the Keymaster alone. *)
Theorem retrieveKey_without_keymaster dir auth key w :
  usesKeymaster auth = false →
  ∃ r w' tr,
    (∀ fuel, retrieveKey fuel dir auth key w = Returns r w' tr)
    ∧ w_fs w' = w_fs w ∧ w_km w' = w_km w
    ∧ Forall (λ e, ∀ c, e ≠ E_Keymaster c) tr.
Proof.
  intros Huses.
  assert (∀ fuel, retrieveKey fuel dir auth key
                  = retrieveKey 0 dir auth key) as Hfuel
    by (intros fuel; unfold retrieveKey; by rewrite Huses).
  enough (runs (retrieveKey 0 dir auth key) w (λ r w' tr,
            w_fs w' = w_fs w ∧ w_km w' = w_km w
            ∧ Forall (λ e, ∀ c, e ≠ E_Keymaster c) tr)) as Hruns.
  { destruct (runs_elim _ _ _ Hruns) as (r & w' & tr & E & ?).
    exists r, w', tr. split; [|done]. intros fuel. by rewrite Hfuel. }
  assert (∀ tr, Forall soft_event tr →
                Forall (λ e, ∀ c, e ≠ E_Keymaster c) tr) as Hsoft.
  { intros tr Htr. eapply Forall_impl; [exact Htr|]. by intros [] Hs c. }
  apply runs_and.
  - unfold retrieveKey. rewrite Huses.
    repeat first [ total_step
                 | eapply runs_mono; [apply generateAppId_total|]
                 | eapply runs_mono; [apply decryptWithoutKeymaster_total|] ].
  - unfold retrieveKey. rewrite Huses. do 2 wp_step.
    destruct (ReadFileToString _ _) as [version|]; [|kf_leaf].
    wp_red. case_bool_decide; [|kf_leaf].
    do 2 wp_step. destruct (ReadFileToString _ _) as [sd|]; [|kf_leaf].
    do 2 wp_step. destruct (ReadFileToString _ _) as [st|]; [|kf_leaf].
    wp_step.
    apply (wp_mono _ _ (λ _ w1 t1,
             w1 = w ∧ Forall (λ e, ∀ c, e ≠ E_Keymaster c) t1)).
    { destruct (stretchingNeedsSalt st); wp_step; by repeat constructor. }
    intros [salt|] ? t1 [-> Ht1]; [|kf_leaf].
    wp_step. unfold generateAppId. wp_step.
    eapply wp_mono; [apply stretchSecret_keymaster_free|].
    intros [[] stretched] ? t2 [-> Ht2]; [|do 2 kf_leaf].
    wp_step. apply wp_hashWithPrefix. wp_step.
    do 2 wp_step. destruct (ReadFileToString _ _) as [ct|]; [|kf_leaf].
    wp_red. eapply wp_mono; [apply decryptWithoutKeymaster_footprint|].
    intros r w3 t3 (Hfs & Hkm & Ht3). apply Hsoft in Ht3.
    split; [done|]. split; [done|]. km_free.
Qed.

(** ** The ciphertext of the Keymaster path *)

(** X10.  [encryptWithKeymasterKey] succeeds only with what the Keymaster
    gave it: the nonce is the one the operation begun by [begin] returned
    in its output parameters, the body is what [updateCompletely] returned
    for the message, the tag is what [finish] returned after it, and these
    two calls are the last it makes.  The ciphertext is the three side by
    side, a nonce of 12 bytes and a tag of 16, which is how
    [decryptWithKeymasterKey] takes it apart again; on failure it has not
    touched [*ciphertext]. *)
Theorem encryptWithKeymasterKey_framing
    fuel dir keyParams message ct0 w ok ct w' tr :
  encryptWithKeymasterKey fuel dir keyParams message ct0 w
  = Returns (ok, ct) w' tr →
  if ok then
    ∃ opHandle outParams w1 t1 nonce body s2 mac,
      begin fuel dir ENCRYPT keyParams [] (Some []) w
      = Returns (opHandle, outParams) w1 t1
      ∧ op_bool opHandle = true
      ∧ GetTagValue TAG_NONCE (default [] outParams) = Some nonce
      ∧ updateCompletely opHandle message (w_km w1) = (true, body, s2)
      ∧ finish opHandle true s2 = (true, mac, w_km w')
      ∧ w_fs w' = w_fs w1 ∧ w_os w' = w_os w1
      ∧ tr = t1 ++ [E_Keymaster (Km_updateCompletely message true);
                    E_Keymaster (Km_finish true)]
      ∧ ct = nonce ++ body ++ mac
      ∧ length nonce = GCM_NONCE_BYTES ∧ length mac = GCM_MAC_BYTES
      ∧ substr ct 0 (Some GCM_NONCE_BYTES) = Some nonce
      ∧ substr ct GCM_NONCE_BYTES None = Some (body ++ mac)
  else ct = ct0.
Proof.
  intros E.
  enough (wp (encryptWithKeymasterKey fuel dir keyParams message ct0) w
            (λ r w' tr,
               if r.1 then
                 ∃ opHandle outParams w1 t1 nonce body s2 mac,
                   begin fuel dir ENCRYPT keyParams [] (Some []) w
                   = Returns (opHandle, outParams) w1 t1
                   ∧ op_bool opHandle = true
                   ∧ GetTagValue TAG_NONCE (default [] outParams) = Some nonce
                   ∧ updateCompletely opHandle message (w_km w1)
                     = (true, body, s2)
                   ∧ finish opHandle true s2 = (true, mac, w_km w')
                   ∧ w_fs w' = w_fs w1 ∧ w_os w' = w_os w1
                   ∧ tr = t1 ++ [E_Keymaster (Km_updateCompletely message true);
                                 E_Keymaster (Km_finish true)]
                   ∧ r.2 = nonce ++ body ++ mac
                   ∧ length nonce = GCM_NONCE_BYTES
                   ∧ length mac = GCM_MAC_BYTES
                   ∧ substr r.2 0 (Some GCM_NONCE_BYTES) = Some nonce
                   ∧ substr r.2 GCM_NONCE_BYTES None = Some (body ++ mac)
               else r.2 = ct0))
    as Hwp by exact (wp_elim _ _ _ _ _ _ Hwp E).
  clear. unfold encryptWithKeymasterKey. wp_step.
  eapply wp_mono; [apply wp_self|].
  intros [opHandle outParams] w1 t1 Ebegin.
  destruct (op_bool opHandle) eqn:Evalid; [|by wp_step].
  wp_red. destruct (GetTagValue _ _) as [nonce|] eqn:Enonce; [|by wp_step].
  unfold checkSize at 1. case_decide as Hn; [by wp_step|].
  do 2 wp_step. intros [[] body] s1 Eupd; [|by wp_step].
  do 2 wp_step. intros [[] mac] s2 Efin; [|by wp_step].
  unfold checkSize. case_decide as Hm; [by wp_step|].
  wp_step. cbn [fst snd w_fs w_km w_os] in *.
  exists opHandle, outParams, w1, t1, nonce, body, s1, mac.
  assert (length nonce = GCM_NONCE_BYTES) as Hn' by lia.
  assert (length mac = GCM_MAC_BYTES) as Hm' by lia.
  split; [done|]. split; [done|]. split; [done|]. split; [done|].
  split; [done|]. split; [done|]. split; [done|].
  split; [done|].
  split; [done|]. split; [done|]. split; [done|]. unfold substr.
  rewrite !decide_True by (rewrite ?length_app; lia).
  by rewrite drop_0, take_app_length', drop_app_length'.
Qed.

(** X11.  A ciphertext file shorter than a nonce makes the Keymaster path of
    [retrieveKey] raise [std::out_of_range] instead of returning [false]:
    [decryptWithKeymasterKey] takes [substr(GCM_NONCE_BYTES)] of it
    unchecked. *)
Theorem retrieveKey_short_ciphertext_throws
    fuel dir auth key w secdiscardable stretching salt appId t ct :
  usesKeymaster auth = true →
  Keymaster_bool (w_km w) = true →
  ReadFileToString (path dir kFn_version) (w_fs w) = Some kCurrentVersion →
  ReadFileToString (path dir kFn_secdiscardable) (w_fs w)
  = Some secdiscardable →
  ReadFileToString (path dir kFn_stretching) (w_fs w) = Some stretching →
  (if stretchingNeedsSalt stretching
   then ReadFileToString (path dir kFn_salt) (w_fs w) = Some salt
   else salt = []) →
  generateAppId auth stretching salt secdiscardable [] w
  = Returns (true, appId) w t →
  ReadFileToString (path dir kFn_encrypted_key) (w_fs w) = Some ct →
  length ct < GCM_NONCE_BYTES →
  retrieveKey fuel dir auth key w = Aborts.
Proof.
  intros Huses Hav Hv Hsd Hst Hsalt Happ Hct Hlen.
  assert (∀ f, readFileToString f w
               = Returns (ReadFileToString f (w_fs w)) w
                   [E_ReadFileToString f (ReadFileToString f (w_fs w))])
    as Hread by done.
  unfold retrieveKey.
  rewrite (bind_returns _ _ _ _ _ _ (Hread _)), Hv.
  cbv beta iota. rewrite bool_decide_eq_true_2 by done. cbn [negb].
  rewrite (bind_returns _ _ _ _ _ _ (Hread _)), Hsd. cbv beta iota.
  rewrite (bind_returns _ _ _ _ _ _ (Hread _)), Hst. cbv beta iota.
  assert ((if stretchingNeedsSalt stretching
           then readFileToString (path dir kFn_salt)
           else mret (Some [])) w
          = Returns (Some salt) w
              (if stretchingNeedsSalt stretching
               then [E_ReadFileToString (path dir kFn_salt) (Some salt)]
               else [])) as Esalt.
  { destruct (stretchingNeedsSalt stretching); [by rewrite Hread, Hsalt|].
    by subst salt. }
  rewrite (bind_returns _ _ _ _ _ _ Esalt). cbv beta iota.
  rewrite (bind_returns _ _ _ _ _ _ Happ). cbv beta iota. cbn [negb].
  rewrite (bind_returns _ _ _ _ _ _ (Hread _)), Hct. cbv beta iota.
  rewrite Huses.
  assert (keymaster_connect w = Returns true w [E_Keymaster (Km_connect true)])
    as Econ by (unfold keymaster_connect; by rewrite Hav).
  rewrite (bind_returns _ _ _ _ _ _ Econ). cbv beta iota. cbn [negb].
  unfold decryptWithKeymasterKey, substr.
  rewrite decide_True by lia. rewrite decide_False by lia. done.
Qed.

(** X12.  What a retrieval that succeeded has found in the world it started
    from: the current version, the files it needs, a Keymaster that is
    available if the credential uses it, and a ciphertext long enough for
    the path taken. *)
Theorem retrieveKey_success_requires fuel dir auth key w out w' tr :
  retrieveKey fuel dir auth key w = Returns (true, out) w' tr →
  ReadFileToString (path dir kFn_version) (w_fs w) = Some kCurrentVersion
  ∧ ∃ secdiscardable stretching ct,
      ReadFileToString (path dir kFn_secdiscardable) (w_fs w)
      = Some secdiscardable
      ∧ ReadFileToString (path dir kFn_stretching) (w_fs w) = Some stretching
      ∧ (stretchingNeedsSalt stretching = true →
         is_Some (ReadFileToString (path dir kFn_salt) (w_fs w)))
      ∧ ReadFileToString (path dir kFn_encrypted_key) (w_fs w) = Some ct
      ∧ if usesKeymaster auth
        then Keymaster_bool (w_km w) = true ∧ GCM_NONCE_BYTES ≤ length ct
        else GCM_NONCE_BYTES + GCM_MAC_BYTES ≤ length ct.
Proof.
  intros E.
  enough (wp (retrieveKey fuel dir auth key) w (λ r _ _, r.1 = true →
    ReadFileToString (path dir kFn_version) (w_fs w) = Some kCurrentVersion
    ∧ ∃ secdiscardable stretching ct,
        ReadFileToString (path dir kFn_secdiscardable) (w_fs w)
        = Some secdiscardable
        ∧ ReadFileToString (path dir kFn_stretching) (w_fs w)
          = Some stretching
        ∧ (stretchingNeedsSalt stretching = true →
           is_Some (ReadFileToString (path dir kFn_salt) (w_fs w)))
        ∧ ReadFileToString (path dir kFn_encrypted_key) (w_fs w) = Some ct
        ∧ if usesKeymaster auth
          then Keymaster_bool (w_km w) = true ∧ GCM_NONCE_BYTES ≤ length ct
          else GCM_NONCE_BYTES + GCM_MAC_BYTES ≤ length ct))
    as Hwp by exact (wp_elim _ _ _ _ _ _ Hwp E eq_refl).
  clear. unfold retrieveKey. do 2 wp_step.
  destruct (ReadFileToString (path dir kFn_version) _) as [version|] eqn:Ev;
    [|by wp_step].
  wp_red. case_bool_decide as Hver; [|by wp_step]. subst version.
  do 2 wp_step.
  destruct (ReadFileToString (path dir kFn_secdiscardable) _) as [sd|] eqn:Esd;
    [|by wp_step].
  do 2 wp_step.
  destruct (ReadFileToString (path dir kFn_stretching) _) as [st|] eqn:Est;
    [|by wp_step].
  wp_step.
  apply (wp_mono _ _ (λ a w1 _,
    w1 = w ∧ (is_Some a → stretchingNeedsSalt st = true →
              is_Some (ReadFileToString (path dir kFn_salt) (w_fs w))))).
  { destruct (stretchingNeedsSalt st); wp_step; [|done].
    split; [done|]. by intros. }
  intros [salt|] ? t1 [-> Hsalt]; [|by wp_step].
  wp_step. eapply wp_mono; [apply generateAppId_footprint|].
  intros [[] appId] ? t2 [-> _]; [|by wp_step].
  do 2 wp_step.
  destruct (ReadFileToString (path dir kFn_encrypted_key) _) as [ct|] eqn:Ect;
    [|by wp_step].
  wp_red. destruct (usesKeymaster auth).
  - do 2 wp_step. destruct (Keymaster_bool _) eqn:Eav; [|by wp_step].
    wp_red. unfold decryptWithKeymasterKey, substr.
    rewrite decide_True by lia.
    case_decide as Hlen; [|apply wp_throw].
    wp_step. eapply wp_mono; [apply begin_footprint|].
    intros [opHandle o] w3 t3 _.
    destruct (op_bool opHandle); [|by wp_step].
    do 2 wp_step. intros [[] msg] s1 _; [|by wp_step].
    do 2 wp_step. intros [[] x] s2 _; wp_step; [|done].
    intros _. split; [done|]. exists sd, st, ct.
    repeat split; try done. intros ?. by apply Hsalt.
  - destruct (decide (length ct < GCM_NONCE_BYTES + GCM_MAC_BYTES)) as [Hlen|Hlen].
    { unfold decryptWithoutKeymaster. rewrite decide_True by done.
      by wp_step. }
    eapply wp_mono; [apply decryptWithoutKeymaster_footprint|].
    intros r w4 t4 _ _. split; [done|]. exists sd, st, ct.
    repeat split; try done; [intros ?; by apply Hsalt | lia].
Qed.

(** ** Where the two entry points reach *)

(** X13.  [storeKey] stays inside its directory: it creates it, writes its
    seven files under their fixed names, renames the upgraded blob over the
    blob, reads nothing but the blob, and spawns no program. *)
Theorem storeKey_confined fuel dir auth key w r w' tr :
  storeKey fuel dir auth key w = Returns r w' tr →
  Forall (confined dir) tr.
Proof.
  intros E.
  enough (wp (storeKey fuel dir auth key) w
            (λ _ _ tr, Forall (confined dir) tr))
    as Hwp by exact (wp_elim _ _ _ _ _ _ Hwp E).
  clear. unfold storeKey. do 2 wp_step. intros rc s0 _.
  case_bool_decide; [conf_leaf|].
  do 2 wp_step. intros [] s1 _; [|conf_leaf].
  wp_step. apply readRandomBytesOrLog_wp. intros status sd os1 _.
  destruct (bool_decide (status = 0%Z)); [|conf_leaf].
  do 2 wp_step. intros [] s2 _; [|conf_leaf].
  wp_step. apply wp_getStretching. intros tg Htg.
  apply (confined_property_get dir) in Htg.
  do 2 wp_step. intros [] s3 _; [|conf_leaf].
  wp_step.
  apply (wp_mono _ _ (λ _ _ t, Forall (confined dir) t)).
  { destruct (stretchingNeedsSalt _); [|conf_leaf].
    do 2 wp_step. intros [status2 salt] os2 _.
    destruct (bool_decide (status2 = 0%Z)); [|conf_leaf].
    do 2 wp_step. intros [] s4 _; conf_leaf. }
  intros [salt|] w1 t1 Ht1; [|conf_leaf].
  wp_step. eapply wp_mono; [apply generateAppId_footprint|].
  intros [[] appId] w2 t2 [-> Ht2]; apply (confined_crypto dir) in Ht2; [|conf_leaf].
  wp_step. destruct (usesKeymaster auth).
  - do 2 wp_step. destruct (Keymaster_bool _); [|conf_leaf].
    wp_step. eapply wp_mono; [apply generateKeymasterKey_footprint|].
    intros [kmKey|] w3 t3 (_ & _ & Ht3); apply (confined_crypto dir) in Ht3;
      [|conf_leaf].
    do 2 wp_step. intros [] s5 _; [|conf_leaf].
    wp_red. eapply wp_mono; [apply encryptWithKeymasterKey_footprint|].
    intros [[] ct] w4 t4 [_ Ht4]; apply (confined_begin dir) in Ht4;
      [|conf_leaf].
    do 2 wp_step. intros [] s6 _; conf_leaf.
  - eapply wp_mono; [apply encryptWithoutKeymaster_footprint|].
    intros [[] ct] w4 t4 (_ & _ & Ht4); apply (confined_soft dir) in Ht4;
      [|conf_leaf].
    do 2 wp_step. intros [] s6 _; conf_leaf.
Qed.

(** X14.  [retrieveKey] reads the files of its directory, and changes the
    world in one way only, the upgrade of the key blob: it writes no other
    file, creates nothing, draws no randomness, reads no property and
    spawns no program. *)
Theorem retrieveKey_reach fuel dir auth key w r w' tr :
  retrieveKey fuel dir auth key w = Returns r w' tr →
  Forall (confined dir) tr
  ∧ Forall (λ e, match e with
                 | E_WriteStringToFile _ f _ =>
                     f = path dir kFn_keymaster_key_blob_upgraded
                 | E_mkdir _ _ | E_ForkExecvp _ _ | E_ReadRandomBytes _ _
                 | E_property_get _ => False
                 | _ => True
                 end) tr.
Proof.
  intros E.
  enough (wp (retrieveKey fuel dir auth key) w
            (λ _ _ tr, Forall (retrieve_event dir) tr)) as Hwp.
  { pose proof (wp_elim _ _ _ _ _ _ Hwp E) as Htr. cbv beta in Htr. split.
    - eapply Forall_impl; [exact Htr|]. apply confined_retrieve.
    - eapply Forall_impl; [exact Htr|]. by intros []; cbn. }
  clear. unfold retrieveKey. do 2 wp_step.
  destruct (ReadFileToString _ _) as [version|]; [|conf_leaf].
  wp_red. case_bool_decide; [|conf_leaf].
  do 2 wp_step. destruct (ReadFileToString _ _) as [sd|]; [|conf_leaf].
  do 2 wp_step. destruct (ReadFileToString _ _) as [st|]; [|conf_leaf].
  wp_step.
  apply (wp_mono _ _ (λ _ w1 t1, w1 = w ∧ Forall (retrieve_event dir) t1)).
  { destruct (stretchingNeedsSalt st); wp_step; (split; [done|conf]). }
  intros [salt|] ? t1 [-> Ht1]; [|conf_leaf].
  wp_step. eapply wp_mono; [apply generateAppId_footprint|].
  intros [[] appId] ? t2 [-> Ht2]; apply (retrieve_crypto dir) in Ht2;
    [|conf_leaf].
  do 2 wp_step. destruct (ReadFileToString _ _) as [ct|]; [|conf_leaf].
  wp_red. destruct (usesKeymaster auth).
  - do 2 wp_step. destruct (Keymaster_bool _); [|conf_leaf].
    wp_red. eapply wp_mono; [apply decryptWithKeymasterKey_footprint|].
    intros r w3 t3 [_ Ht3]. apply (retrieve_begin dir) in Ht3. conf.
  - eapply wp_mono; [apply decryptWithoutKeymaster_calls|].
    intros r w3 t3 Ht3. apply (retrieve_cipher dir) in Ht3. conf.
Qed.

(** ** The wrapping key of the software path *)

(** X15.  The key both directions of the software cipher are initialised with
    is a function of the appId alone and has the 32 bytes AES-256 takes,
    whatever the hash function returned. *)
Theorem software_cipher_key preKey :
  length (wrapping_key preKey) = AES_KEY_BYTES
  ∧ (∀ plaintext buf w r w' tr,
       encryptWithoutKeymaster preKey plaintext buf w = Returns r w' tr →
       Forall (uses_key (wrapping_key preKey)) tr)
  ∧ (∀ ct buf w r w' tr,
       decryptWithoutKeymaster preKey ct buf w = Returns r w' tr →
       Forall (uses_key (wrapping_key preKey)) tr).
Proof.
  split; [apply resize_length|]. split.
  - intros plaintext buf w r w' tr.
    apply (wp_elim _ w (λ _ _ tr, Forall (uses_key (wrapping_key preKey)) tr)).
    unfold encryptWithoutKeymaster. wp_step. apply wp_hashWithPrefix. wp_step.
    apply readRandomBytesOrLog_wp. intros status rnd s _.
    destruct (bool_decide (status = 0%Z)); [|wp_step; by repeat constructor].
    do 2 wp_step. intros [ctx|] s1 _; [|wp_step; by repeat constructor].
    do 2 wp_step. destruct (EVP_EncryptInit_ex _ _ _) as [rc ctx1].
    destruct (bool_decide (rc = 1%Z)); [|wp_step; by repeat constructor].
    do 2 wp_step. destruct (EVP_EncryptUpdate _ _) as [[rc2 out] ctx2].
    destruct (bool_decide (rc2 = 1%Z)); [|wp_step; by repeat constructor].
    destruct (bool_decide (_ = static_cast_int _));
      [|wp_step; by repeat constructor].
    do 2 wp_step. destruct (EVP_EncryptFinal_ex _) as [[rc3 out3] ctx3].
    destruct (bool_decide (rc3 = 1%Z)); [|wp_step; by repeat constructor].
    destruct (bool_decide (_ = 0%Z)); [|wp_step; by repeat constructor].
    do 2 wp_step. destruct (EVP_CIPHER_CTX_ctrl _ _ _ _) as [[rc4 tag] ctx4].
    destruct (bool_decide (rc4 = 1%Z)); wp_step; by repeat constructor.
  - intros ct buf w r w' tr.
    apply (wp_elim _ w (λ _ _ tr, Forall (uses_key (wrapping_key preKey)) tr)).
    unfold decryptWithoutKeymaster.
    case_decide; [wp_step; by repeat constructor|].
    wp_step. apply wp_hashWithPrefix.
    do 2 wp_step. intros [ctx|] s1 _; [|wp_step; by repeat constructor].
    do 2 wp_step. destruct (EVP_DecryptInit_ex _ _ _) as [rc ctx1].
    destruct (bool_decide (rc = 1%Z)); [|wp_step; by repeat constructor].
    do 2 wp_step. destruct (EVP_DecryptUpdate _ _) as [[rc2 out] ctx2].
    destruct (bool_decide (rc2 = 1%Z)); [|wp_step; by repeat constructor].
    destruct (bool_decide (_ = static_cast_int _));
      [|wp_step; by repeat constructor].
    do 2 wp_step. destruct (EVP_CIPHER_CTX_ctrl _ _ _ _) as [[rc4 tag] ctx4].
    destruct (bool_decide (rc4 = 1%Z)); [|wp_step; by repeat constructor].
    do 2 wp_step. destruct (EVP_DecryptFinal_ex _) as [[rc3 out3] ctx3].
    destruct (bool_decide (rc3 = 1%Z)); [|wp_step; by repeat constructor].
    destruct (bool_decide (_ = 0%Z)); wp_step; by repeat constructor.
Qed.

(** ** The order of the calls *)


(** X17.  The ciphertext is the last thing [storeKey] writes: whenever the
    ciphertext file is written at all, this is the last call made, it is
    the only write to this file, and its outcome is the result. *)
Theorem storeKey_commits_last fuel dir auth key w r w' tr :
  storeKey fuel dir auth key w = Returns r w' tr →
  (writes_at (path dir kFn_encrypted_key) tr = [] ∧ r = false)
  ∨ ∃ ct,
      writes_at (path dir kFn_encrypted_key) tr = [(ct, r)]
      ∧ [E_WriteStringToFile ct (path dir kFn_encrypted_key) r] `suffix_of` tr.
Proof.
  intros E.
  enough (wp (storeKey fuel dir auth key) w (λ r _ tr,
    (writes_at (path dir kFn_encrypted_key) tr = [] ∧ r = false)
    ∨ ∃ ct,
        writes_at (path dir kFn_encrypted_key) tr = [(ct, r)]
        ∧ [E_WriteStringToFile ct (path dir kFn_encrypted_key) r]
          `suffix_of` tr))
    as Hwp by exact (wp_elim _ _ _ _ _ _ Hwp E).
  clear. unfold storeKey. do 2 wp_step. intros rc s0 _.
  case_bool_decide; [leaf|].
  do 2 wp_step. intros [] s1 _; [|leaf].
  wp_step. apply readRandomBytesOrLog_wp. intros status sd os1 _.
  destruct (bool_decide (status = 0%Z)); [|leaf].
  do 2 wp_step. intros [] s2 _; [|leaf].
  wp_step. apply wp_getStretching. intros tg Htg.
  pose proof (writes_at_property_get (path dir kFn_encrypted_key) _ Htg).
  do 2 wp_step. intros [] s3 _; [|leaf].
  wp_step.
  apply (wp_mono _ _ (λ _ _ t1,
           writes_at (path dir kFn_encrypted_key) t1 = [])).
  { destruct (stretchingNeedsSalt _); [|leaf].
    do 2 wp_step. intros [status2 salt] os2 _.
    destruct (bool_decide (status2 = 0%Z)); [|leaf].
    do 2 wp_step. intros [] s4 _; leaf. }
  intros [salt|] w1 t1 Ht1; [|leaf].
  wp_step. eapply wp_mono; [apply generateAppId_footprint|].
  intros [[] appId] w2 t2 [-> Ht2];
    pose proof (writes_at_crypto (path dir kFn_encrypted_key) _ Ht2);
    [|leaf].
  wp_step.
  apply (wp_mono _ _ (λ _ _ t3,
           writes_at (path dir kFn_encrypted_key) t3 = [])).
  { destruct (usesKeymaster auth).
    - do 2 wp_step. destruct (Keymaster_bool _); [|leaf].
      wp_step. eapply wp_mono; [apply generateKeymasterKey_footprint|].
      intros [kmKey|] w3 t3 (_ & _ & Ht3);
        pose proof (writes_at_crypto (path dir kFn_encrypted_key) _ Ht3);
        [|leaf].
      do 2 wp_step. intros [] s5 _; [|leaf].
      wp_red. eapply wp_mono; [apply encryptWithKeymasterKey_footprint|].
      intros r w4 t4 [_ Ht4].
      pose proof (writes_at_begin dir (path dir kFn_encrypted_key) _
                    ltac:(by apply path_ne) Ht4).
      leaf.
    - eapply wp_mono; [apply encryptWithoutKeymaster_footprint|].
      intros r w4 t4 (_ & _ & Ht4).
      by pose proof (writes_at_soft (path dir kFn_encrypted_key) _ Ht4). }
  intros [[] ct] w5 t5 Ht5; [|leaf].
  do 2 wp_step. intros ok s6 _.
  destruct ok; wp_step; right; exists ct;
    (split; [trace_simp; use_writes; done
            |rewrite app_nil_r; repeat apply suffix_app_r; done]).
Qed.

(** X18.  [begin] reads the blob file once, before the loop: later attempts use
    the upgraded blob it holds in memory, and no other file is read. *)
Theorem begin_reads_blob_once
    fuel dir purpose keyParams opParams outParams w r w' tr :
  begin fuel dir purpose keyParams opParams outParams w = Returns r w' tr →
  ∃ t,
    tr = E_ReadFileToString (path dir kFn_keymaster_key_blob)
           (ReadFileToString (path dir kFn_keymaster_key_blob) (w_fs w)) :: t
    ∧ Forall (λ e, ∀ f c, e ≠ E_ReadFileToString f c) t.
Proof.
  intros E.
  enough (wp (begin fuel dir purpose keyParams opParams outParams) w
            (λ _ _ tr, ∃ t,
               tr = E_ReadFileToString (path dir kFn_keymaster_key_blob)
                      (ReadFileToString (path dir kFn_keymaster_key_blob)
                         (w_fs w)) :: t
               ∧ Forall (λ e, ∀ f c, e ≠ E_ReadFileToString f c) t))
    as Hwp by exact (wp_elim _ _ _ _ _ _ Hwp E).
  clear. unfold begin. do 2 wp_step.
  destruct (ReadFileToString _ _) as [kmKey|]; [|wp_step; by eexists].
  eapply wp_mono.
  - apply (wp_for_ever _ (λ e, ∀ f c, e ≠ E_ReadFileToString f c)
             (λ _ _, True) (λ _ _, True)); [|done].
    intros [k o] v _. unfold begin_body.
    do 2 wp_step. intros [opHandle o'] s1 _.
    destruct (op_bool opHandle); [wp_step; by repeat constructor|].
    case_bool_decide; [|wp_step; by repeat constructor].
    do 2 wp_step. intros [newKey|] s2 _; [|wp_step; by repeat constructor].
    do 2 wp_step. intros [] s3 _; [|wp_step; by repeat constructor].
    do 2 wp_step. intros rc s4 _.
    case_bool_decide; [|wp_step; by repeat constructor].
    do 2 wp_step. intros ok s5 _. wp_step. by repeat constructor.
  - intros x w' tr [Htr _]. by exists tr.
Qed.

(** X19.  The appId is a function of the secret, the stretching, the salt and
    the secdiscardable bytes: it depends neither on the world nor on the
    token, and computing it changes nothing. *)
Theorem generateAppId_function
    auth stretching salt secdiscardable appId0 w r w' tr :
  generateAppId auth stretching salt secdiscardable appId0 w = Returns r w' tr →
  w' = w
  ∧ ∀ auth' v,
      secret auth' = secret auth →
      generateAppId auth' stretching salt secdiscardable appId0 v
      = Returns r v tr.
Proof.
  intros E. split.
  - by destruct (wp_elim _ _ _ _ _ _
                   (generateAppId_footprint auth stretching salt
                      secdiscardable appId0 w) E).
  - intros auth' v Hsecret.
    rewrite <- (generateAppId_stateless _ _ _ _ _ _ _ _ _ E v).
    unfold generateAppId. by rewrite Hsecret.
Qed.

End Further.

(** ** Key parameters and what a store leaves on disk *)

Section FurtherStore.
Context `{Platform}.

(** X20.  The parameters a key is generated with and the parameters operations
    on it are begun with agree: both carry the appId as application id, the
    key needs no authentication exactly when the credential has no token,
    and the token is supplied to [begin] exactly when it has one; neither
    names a nonce.  [generateKeymasterKey] makes one call at most, and none
    for a token of the wrong size. *)
Theorem keymaster_parameters_agree auth appId w r w' tr :
  generateKeymasterKey auth appId w = Returns r w' tr →
  GetTagValue TAG_APPLICATION_ID (beginParams auth appId) = Some appId
  ∧ GetTagValue TAG_AUTH_TOKEN (beginParams auth appId)
    = (if bool_decide (token auth = []) then None else Some (token auth))
  ∧ GetTagValue TAG_NONCE (beginParams auth appId) = None
  ∧ length tr ≤ 1
  ∧ Forall (λ e, ∃ params,
              e = E_Keymaster (Km_generateKey params r)
              ∧ GetTagValue TAG_APPLICATION_ID params = Some appId
              ∧ (TAG_NO_AUTH_REQUIRED ∈ params.*1 ↔ token auth = [])
              ∧ (TAG_USER_SECURE_ID ∈ params.*1 ↔ token auth ≠ [])) tr
  ∧ (token auth ≠ [] → length (token auth) ≠ sizeof_hw_auth_token_t →
     r = None ∧ tr = [] ∧ w' = w).
Proof.
  intros E. split; [|split; [|split]].
  - unfold beginParams. by case_bool_decide.
  - unfold beginParams. by case_bool_decide.
  - unfold beginParams. by case_bool_decide.
  - revert E. unfold generateKeymasterKey, on_km, mret, M_ret.
    case_bool_decide as Htok.
    + destruct (Keymaster_generateKey _ _) as [blob s]. intros [= <- <- <-].
      split; [cbn; lia|]. split; [|done].
      constructor; [|constructor]. eexists. split; [done|]. split; [done|].
      split; split.
      * done.
      * intros _. by apply (bool_decide_unpack _).
      * intros Hin. exfalso. revert Hin. by apply (bool_decide_eq_false_1 _).
      * done.
    + case_decide as Hlen.
      { intros [= <- <- <-]. split; [cbn; lia|]. split; [constructor | done]. }
      destruct (Keymaster_generateKey _ _) as [blob s]. intros [= <- <- <-].
      split; [cbn; lia|]. split; [|done].
      constructor; [|constructor]. eexists. split; [done|]. split; [done|].
      split; split.
      * intros Hin. exfalso. revert Hin. by apply (bool_decide_eq_false_1 _).
      * done.
      * done.
      * intros _. by apply (bool_decide_unpack _).
Qed.

(** X21.  Under a credential that does not use the Keymaster, [storeKey] returns
    whatever the fuel, writes "none" as stretching when it gets that far,
    and leaves the Keymaster alone. *)
Theorem storeKey_without_keymaster dir auth key w :
  usesKeymaster auth = false →
  ∃ r w' tr,
    (∀ fuel, storeKey fuel dir auth key w = Returns r w' tr)
    ∧ w_km w' = w_km w
    ∧ (∀ payload ok,
         (payload, ok) ∈ writes_at (path dir kFn_stretching) tr →
         payload = kStretch_none)
    ∧ writes_at (path dir kFn_keymaster_key_blob) tr = []
    ∧ writes_at (path dir kFn_salt) tr = [].
Proof.
  intros Huses.
  assert (getStretching auth = mret kStretch_none) as Hget
    by (unfold getStretching; by rewrite Huses).
  assert (∀ fuel, storeKey fuel dir auth key = storeKey 0 dir auth key) as Hfuel
    by (intros fuel; unfold storeKey; by rewrite Huses).
  enough (runs (storeKey 0 dir auth key) w (λ _ w' tr,
            w_km w' = w_km w
            ∧ (writes_at (path dir kFn_stretching) tr = []
               ∨ ∃ ok, writes_at (path dir kFn_stretching) tr
                       = [(kStretch_none, ok)])
            ∧ writes_at (path dir kFn_keymaster_key_blob) tr = []
            ∧ writes_at (path dir kFn_salt) tr = [])) as Hruns.
  { destruct (runs_elim _ _ _ Hruns)
      as (r & w' & tr & E & Hkm & Hst & Hblob & Hsalt).
    exists r, w', tr. split; [intros fuel; by rewrite Hfuel|].
    split; [done|]. split; [|done].
    intros payload ok Hin. destruct Hst as [Hst|[ok' Hst]]; rewrite Hst in Hin.
    - by apply elem_of_nil in Hin.
    - apply list_elem_of_singleton in Hin. congruence. }
  apply runs_and.
  - unfold storeKey. rewrite Huses, Hget.
    repeat first [ total_step
                 | eapply runs_mono; [apply readRandomBytesOrLog_total|]
                 | eapply runs_mono; [apply generateAppId_total|]
                 | eapply runs_mono; [apply encryptWithoutKeymaster_total|] ].
  - unfold storeKey. rewrite Huses, Hget. do 2 wp_step. intros rc s0 _.
    case_bool_decide; [leaf|].
    do 2 wp_step. intros [] s1 _; [|leaf].
    wp_step. apply readRandomBytesOrLog_wp. intros status sd os1 _.
    destruct (bool_decide (status = 0%Z)); [|leaf].
    do 2 wp_step. intros [] s2 _; [|leaf].
    do 2 wp_step. do 2 wp_step. intros ok3 s3 _.
    destruct ok3; [|leaf].
    change (stretchingNeedsSalt kStretch_none) with false.
    do 3 wp_step. eapply wp_mono; [apply generateAppId_footprint|].
    intros [[] appId] w2 t2 [-> Ht2];
      pose proof (writes_at_crypto (path dir kFn_stretching) _ Ht2);
      pose proof (writes_at_crypto (path dir kFn_keymaster_key_blob) _ Ht2);
      pose proof (writes_at_crypto (path dir kFn_salt) _ Ht2);
      [|leaf].
    wp_step. eapply wp_mono; [apply encryptWithoutKeymaster_footprint|].
    intros [[] ct] w4 t4 (_ & Hkm4 & Ht4);
      pose proof (writes_at_soft (path dir kFn_stretching) _ Ht4);
      pose proof (writes_at_soft (path dir kFn_keymaster_key_blob) _ Ht4);
      pose proof (writes_at_soft (path dir kFn_salt) _ Ht4);
      [|leaf].
    do 2 wp_step. intros [] s6 _; leaf.
Qed.

(** X22.  What a store that succeeded has written, when the entropy source
    delivers what it is asked for: the current version, once; the
    secdiscardable bytes, 16384 of them, once; and salts of 16 bytes
    only. *)
Theorem storeKey_written_sizes fuel dir auth key w w' tr :
  (∀ count s out s',
     ReadRandomBytes count s = (0%Z, out, s') → length out = count) →
  storeKey fuel dir auth key w = Returns true w' tr →
  writes_at (path dir kFn_version) tr = [(kCurrentVersion, true)]
  ∧ (∃ secdiscardable,
       writes_at (path dir kFn_secdiscardable) tr = [(secdiscardable, true)]
       ∧ length secdiscardable = SECDISCARDABLE_BYTES)
  ∧ ∃ salts,
      writes_at (path dir kFn_salt) tr = salts
      ∧ length salts ≤ 1
      ∧ Forall (λ p, length p.1 = SALT_BYTES ∧ p.2 = true) salts.
Proof.
  intros random_length E.
  enough (wp (storeKey fuel dir auth key) w (λ r _ tr, r = true →
    writes_at (path dir kFn_version) tr = [(kCurrentVersion, true)]
    ∧ (∃ secdiscardable,
         writes_at (path dir kFn_secdiscardable) tr = [(secdiscardable, true)]
         ∧ length secdiscardable = SECDISCARDABLE_BYTES)
    ∧ ∃ salts,
        writes_at (path dir kFn_salt) tr = salts
        ∧ length salts ≤ 1
        ∧ Forall (λ p, length p.1 = SALT_BYTES ∧ p.2 = true) salts))
    as Hwp by exact (wp_elim _ _ _ _ _ _ Hwp E eq_refl).
  clear E. unfold storeKey. do 2 wp_step. intros rc s0 _.
  case_bool_decide; [by wp_step|].
  do 2 wp_step. intros [] s1 _; [|by wp_step].
  wp_step. apply readRandomBytesOrLog_wp. intros status sd os1 Esd.
  case_bool_decide as Hstatus; [subst status|by wp_step].
  apply random_length in Esd.
  do 2 wp_step. intros [] s2 _; [|by wp_step].
  wp_step. apply wp_getStretching. intros tg Htg.
  pose proof (writes_at_property_get (path dir kFn_version) _ Htg).
  pose proof (writes_at_property_get (path dir kFn_secdiscardable) _ Htg).
  pose proof (writes_at_property_get (path dir kFn_salt) _ Htg).
  do 2 wp_step. intros [] s3 _; [|by wp_step].
  wp_step.
  apply (wp_mono _ _ (λ a _ t1,
           is_Some a →
           writes_at (path dir kFn_version) t1 = []
           ∧ writes_at (path dir kFn_secdiscardable) t1 = []
           ∧ length (writes_at (path dir kFn_salt) t1) ≤ 1
           ∧ Forall (λ p, length p.1 = SALT_BYTES ∧ p.2 = true)
                    (writes_at (path dir kFn_salt) t1))).
  { destruct (stretchingNeedsSalt _).
    - do 2 wp_step. intros [status2 salt] os2 Esalt.
      case_bool_decide as Hstatus2; [subst status2|wp_step; by intros [? [=]]].
      apply random_length in Esalt.
      do 2 wp_step. intros [] s4 _; wp_step; [|by intros [? [=]]].
      intros _. trace_simp. cbn [app length].
      split; [done|]. split; [done|]. split; [lia|]. by repeat constructor.
    - wp_step. intros _. cbn. split; [done|]. split; [done|].
      split; [lia | constructor]. }
  intros [salt|] w1 t1 Ht1; [|by wp_step].
  destruct (Ht1 ltac:(done)) as (Hv1 & Hsd1 & Hlen1 & Hall1). clear Ht1.
  wp_step. eapply wp_mono; [apply generateAppId_footprint|].
  intros [[] appId] w2 t2 [-> Ht2]; [|by wp_step].
  pose proof (writes_at_crypto (path dir kFn_version) _ Ht2).
  pose proof (writes_at_crypto (path dir kFn_secdiscardable) _ Ht2).
  pose proof (writes_at_crypto (path dir kFn_salt) _ Ht2).
  wp_step.
  apply (wp_mono _ _ (λ _ _ t3,
           writes_at (path dir kFn_version) t3 = []
           ∧ writes_at (path dir kFn_secdiscardable) t3 = []
           ∧ writes_at (path dir kFn_salt) t3 = [])).
  { destruct (usesKeymaster auth).
    - do 2 wp_step. destruct (Keymaster_bool _); [|leaf].
      wp_step. eapply wp_mono; [apply generateKeymasterKey_footprint|].
      intros [kmKey|] w3 t3 (_ & _ & Ht3);
        pose proof (writes_at_crypto (path dir kFn_version) _ Ht3);
        pose proof (writes_at_crypto (path dir kFn_secdiscardable) _ Ht3);
        pose proof (writes_at_crypto (path dir kFn_salt) _ Ht3);
        [|leaf].
      do 2 wp_step. intros [] s5 _; [|leaf].
      wp_red. eapply wp_mono; [apply encryptWithKeymasterKey_footprint|].
      intros r w4 t4 [_ Ht4].
      pose proof (writes_at_begin dir (path dir kFn_version) _
                    ltac:(by apply path_ne) Ht4).
      pose proof (writes_at_begin dir (path dir kFn_secdiscardable) _
                    ltac:(by apply path_ne) Ht4).
      pose proof (writes_at_begin dir (path dir kFn_salt) _
                    ltac:(by apply path_ne) Ht4).
      leaf.
    - eapply wp_mono; [apply encryptWithoutKeymaster_footprint|].
      intros r w4 t4 (_ & _ & Ht4).
      pose proof (writes_at_soft (path dir kFn_version) _ Ht4).
      pose proof (writes_at_soft (path dir kFn_secdiscardable) _ Ht4).
      by pose proof (writes_at_soft (path dir kFn_salt) _ Ht4). }
  intros [[] ct] w5 t5 (Hv5 & Hsd5 & Hsalt5); [|by wp_step].
  do 2 wp_step. intros [] s6 _; wp_step; [|done].
  intros _. trace_simp. use_writes. cbn [app].
  split; [done|]. split; [by exists sd|].
  eexists. split; [done|]. by rewrite !app_nil_r.
Qed.

End FurtherStore.

(** ** Round trips of the two ciphers *)

Section FurtherLaws.
Context `{Platform}.

Hypothesis write_read : ∀ payload f s s',
  WriteStringToFile payload f s = (true, s') →
  ReadFileToString f s' = Some payload.
Hypothesis write_other : ∀ payload f s ok s' g,
  WriteStringToFile payload f s = (ok, s') → g ≠ f →
  ReadFileToString g s' = ReadFileToString g s.
Hypothesis rename_moves : ∀ from to s s',
  rename from to s = (0%Z, s') →
  ReadFileToString to s' = ReadFileToString from s
  ∧ ∀ g, g ≠ from → g ≠ to → ReadFileToString g s' = ReadFileToString g s.
Hypothesis random_length : ∀ count s out s',
  ReadRandomBytes count s = (0%Z, out, s') → length out = count.
Hypothesis ctx_new_succeeds : ∀ s, is_Some (EVP_CIPHER_CTX_new s).1.
Hypothesis evp_seals : ∀ c0 key iv pt c1 body c2 fin c3 buf tag c4,
  EVP_EncryptInit_ex c0 key iv = (1%Z, c1) →
  EVP_EncryptUpdate c1 pt = (1%Z, body, c2) →
  EVP_EncryptFinal_ex c2 = (1%Z, fin, c3) →
  EVP_CIPHER_CTX_ctrl c3 EVP_CTRL_GCM_GET_TAG GCM_MAC_BYTES buf
  = (1%Z, tag, c4) →
  length body = length pt ∧ length tag = GCM_MAC_BYTES
  ∧ ∀ d0, ∃ d1 d2 x d3 d4,
      EVP_DecryptInit_ex d0 key iv = (1%Z, d1)
      ∧ EVP_DecryptUpdate d1 body = (1%Z, pt, d2)
      ∧ EVP_CIPHER_CTX_ctrl d2 EVP_CTRL_GCM_SET_TAG GCM_MAC_BYTES tag
        = (1%Z, x, d3)
      ∧ EVP_DecryptFinal_ex d3 = (1%Z, [], d4).
Hypothesis default_operation_invalid :
  op_bool KeymasterOperation_default = false.
Hypothesis keymaster_seals :
  ∀ s blob keyParams o opHandle outParams s1 nonce message body s2 mac s3,
    GetTagValue TAG_NONCE keyParams = None →
    Keymaster_begin ENCRYPT blob keyParams o s = (opHandle, outParams, s1) →
    op_bool opHandle = true →
    GetTagValue TAG_NONCE (default [] outParams) = Some nonce →
    updateCompletely opHandle message s1 = (true, body, s2) →
    finish opHandle true s2 = (true, mac, s3) →
    Keymaster_bool s3 = true
    ∧ ∃ opHandle' o' s4 s5 x s6,
        Keymaster_begin DECRYPT blob
          (keyParams ++ [(TAG_NONCE, V_blob nonce)]) None s3
        = (opHandle', o', s4)
        ∧ op_bool opHandle' = true
        ∧ updateCompletely opHandle' (body ++ mac) s4 = (true, message, s5)
        ∧ finish opHandle' false s5 = (true, x, s6).

(** X23.  What [encryptWithoutKeymaster] produced under a pre-key,
    [decryptWithoutKeymaster] turns back into the plaintext under the same
    pre-key, in whatever world and whatever the buffer held; the software
    cipher touches neither the files nor the Keymaster. *)
Theorem software_cipher_round_trip preKey plaintext buf w ct w' tr :
  encryptWithoutKeymaster preKey plaintext buf w = Returns (true, ct) w' tr →
  w_fs w' = w_fs w ∧ w_km w' = w_km w
  ∧ ∀ out v, ∃ v' tr',
      decryptWithoutKeymaster preKey ct out v
      = Returns (true, plaintext) v' tr'.
Proof using random_length ctx_new_succeeds evp_seals.
  intros E.
  destruct (wp_elim _ _ _ _ _ _
              (soft_round_trip random_length ctx_new_succeeds evp_seals
                 preKey plaintext buf w) E eq_refl) as (Hfs & Hkm & Hdec).
  split; [done|]. split; [done|]. intros out v.
  destruct (runs_elim _ _ _ (Hdec out v)) as (r & v' & tr' & Ed & ->). eauto.
Qed.

(** X24.  What [encryptWithKeymasterKey] produced, [decryptWithKeymasterKey]
    turns back into the message from the world the encryption left, under
    the same key parameters and with any fuel: the blob in the blob file is
    the one the encryption ended up using, upgraded or not. *)
Theorem keymaster_cipher_round_trip
    fuel dir keyParams message buf w ct w' tr :
  c_str dir = dir →
  GetTagValue TAG_NONCE keyParams = None →
  encryptWithKeymasterKey fuel dir keyParams message buf w
  = Returns (true, ct) w' tr →
  Keymaster_bool (w_km w') = true
  ∧ ∀ fuel' out, 0 < fuel' →
      ∃ v' tr',
        decryptWithKeymasterKey fuel' dir keyParams ct out w'
        = Returns (true, message) v' tr'.
Proof using write_read write_other rename_moves default_operation_invalid
  keymaster_seals.
  intros Hdir Hkp E.
  destruct (wp_elim _ _ _ _ _ _
              (hard_round_trip write_read write_other rename_moves
                 default_operation_invalid keymaster_seals
                 fuel dir keyParams message buf w Hdir Hkp) E eq_refl)
    as (_ & Hav & Hdec).
  split; [done|]. intros fuel' out Hfuel.
  destruct (runs_elim _ _ _ (Hdec fuel' out w' Hfuel eq_refl eq_refl))
    as (r & v' & tr' & Ed & ->). eauto.
Qed.

(** X25.  When [begin] returns a valid operation, the blob file holds the key
    blob under which this operation was begun, after as many upgrades as
    it took, and no file but the blob and its temporary has changed. *)
Theorem begin_leaves_blob_in_use
    fuel dir purpose keyParams opParams outParams w opHandle o w' tr :
  c_str dir = dir →
  begin fuel dir purpose keyParams opParams outParams w
  = Returns (opHandle, o) w' tr →
  op_bool opHandle = true →
  (∃ kmKey o0 s,
     ReadFileToString (path dir kFn_keymaster_key_blob) (w_fs w') = Some kmKey
     ∧ Keymaster_begin purpose kmKey (keyParams ++ opParams) o0 s
       = (opHandle, o, w_km w'))
  ∧ ∀ g, g ≠ path dir kFn_keymaster_key_blob →
         g ≠ path dir kFn_keymaster_key_blob_upgraded →
         ReadFileToString g (w_fs w') = ReadFileToString g (w_fs w).
Proof using write_read write_other rename_moves default_operation_invalid.
  intros Hdir E Hvalid.
  destruct (wp_elim _ _ _ _ _ _
              (begin_commits write_read write_other rename_moves
                 default_operation_invalid
                 fuel dir purpose keyParams opParams outParams w Hdir)
              E Hvalid) as (Hframe & kmKey & o0 & s & Hblob & Hbegin).
  split; [by exists kmKey, o0, s|]. exact Hframe.
Qed.

End FurtherLaws.

(** ** The further properties on the reference platform *)

Lemma option_eta {A} (o : option A) (d : A) :
  (if o is Some _ then true else false) = true → o = Some (default d o).
Proof. by destruct o. Qed.

Section FurtherExamples.
#[local] Existing Instance Ref.platform.

Lemma deleteKey_success_witness :
  let w := Ref.stored Ref.auth_token in
  let o := deleteKey Ref.dir0 w in
  ∃ kmKey,
    ReadFileToString (path Ref.dir0 kFn_keymaster_key_blob) (w_fs w)
    = Some kmKey
    ∧ Keymaster_bool (w_km w) = true
    ∧ Ref.trace_of o
      = [E_ReadFileToString (path Ref.dir0 kFn_keymaster_key_blob)
           (Some kmKey);
         E_Keymaster (Km_connect true);
         E_Keymaster (Km_deleteKey kmKey true)]
    ∧ w_fs (Ref.world_of o) = w_fs w ∧ w_os (Ref.world_of o) = w_os w.
Proof.
  intros w o. apply (deleteKey_success (H := Ref.platform) Ref.dir0 w).
  apply Ref_returns_eta. vm_compute. reflexivity.
Defined.

Lemma destroyKey_without_blob_witness :
  let w := Ref.stored Ref.auth_secret in
  ∃ w' rc2 rc3,
    destroyKey Ref.dir0 w
    = Returns false w'
        [E_ReadFileToString (path Ref.dir0 kFn_keymaster_key_blob) None;
         E_ForkExecvp [kSecdiscardPath; lit "--";
                       path Ref.dir0 kFn_encrypted_key;
                       path Ref.dir0 kFn_keymaster_key_blob;
                       path Ref.dir0 kFn_secdiscardable] rc2;
         E_ForkExecvp [kRmPath; lit "-rf"; Ref.dir0] rc3]
    ∧ w_km w' = w_km w ∧ w_os w' = w_os w.
Proof.
  intros w. apply (destroyKey_without_blob (H := Ref.platform)).
  vm_compute. reflexivity.
Defined.

Lemma storeKey_mkdir_fails_witness :
  let w := Ref.stored Ref.auth_secret in
  ∃ w', storeKey 1 Ref.dir0 Ref.auth_secret Ref.key0 w
        = Returns false w' [E_mkdir (c_str Ref.dir0) (-1)]
        ∧ w_km w' = w_km w ∧ w_os w' = w_os w.
Proof.
  intros w. apply (storeKey_mkdir_fails (H := Ref.platform)).
  vm_compute. reflexivity.
Defined.

Lemma storeKey_rejects_malformed_token_witness :
  let auth := {| token := lit "short"; secret := [] |} in
  ∃ w' tr,
    storeKey 1 Ref.dir0 auth Ref.key0 Ref.boot = Returns false w' tr
    ∧ w_km w' = w_km Ref.boot
    ∧ writes_at (path Ref.dir0 kFn_keymaster_key_blob) tr = []
    ∧ writes_at (path Ref.dir0 kFn_encrypted_key) tr = [].
Proof.
  intros auth. apply (storeKey_rejects_malformed_token (H := Ref.platform)).
  - discriminate.
  - vm_compute. lia.
Defined.

Lemma retrieveKey_without_keymaster_witness :
  let w := Ref.stored Ref.auth_secret in
  ∃ r w' tr,
    (∀ fuel, retrieveKey fuel Ref.dir0 Ref.auth_secret [] w = Returns r w' tr)
    ∧ w_fs w' = w_fs w ∧ w_km w' = w_km w
    ∧ Forall (λ e, ∀ c, e ≠ E_Keymaster c) tr.
Proof.
  intros w. apply (retrieveKey_without_keymaster (H := Ref.platform)).
  vm_compute. reflexivity.
Defined.

Lemma encryptWithKeymasterKey_framing_witness :
  let w := Ref.outdated in
  let o := encryptWithKeymasterKey 3 Ref.dir0 Ref.params0 Ref.key0 [] w in
  let ct := (default (false, []) (result_of o)).2 in
  ∃ opHandle outParams w1 t1 nonce body s2 mac,
    begin 3 Ref.dir0 ENCRYPT Ref.params0 [] (Some []) w
    = Returns (opHandle, outParams) w1 t1
    ∧ op_bool opHandle = true
    ∧ GetTagValue TAG_NONCE (default [] outParams) = Some nonce
    ∧ updateCompletely opHandle Ref.key0 (w_km w1) = (true, body, s2)
    ∧ finish opHandle true s2 = (true, mac, w_km (Ref.world_of o))
    ∧ w_fs (Ref.world_of o) = w_fs w1 ∧ w_os (Ref.world_of o) = w_os w1
    ∧ Ref.trace_of o
      = t1 ++ [E_Keymaster (Km_updateCompletely Ref.key0 true);
               E_Keymaster (Km_finish true)]
    ∧ ct = nonce ++ body ++ mac
    ∧ length nonce = GCM_NONCE_BYTES ∧ length mac = GCM_MAC_BYTES
    ∧ substr ct 0 (Some GCM_NONCE_BYTES) = Some nonce
    ∧ substr ct GCM_NONCE_BYTES None = Some (body ++ mac).
Proof.
  intros w o ct.
  assert (o = Returns (true, ct) (Ref.world_of o) (Ref.trace_of o)) as E
    by (apply Ref_returns_eta; vm_compute; reflexivity).
  exact (encryptWithKeymasterKey_framing (H := Ref.platform)
           3 Ref.dir0 Ref.params0 Ref.key0 [] w true ct _ _ E).
Defined.

Lemma retrieveKey_short_ciphertext_throws_witness :
  let w :=
    Ref.with_file (path Ref.dir0 kFn_encrypted_key) (lit "short")
      (Ref.stored Ref.auth_token) in
  retrieveKey 1 Ref.dir0 Ref.auth_token [] w = Aborts.
Proof.
  intros w.
  pose (sd := default []
                (ReadFileToString (path Ref.dir0 kFn_secdiscardable) (w_fs w))).
  pose (o := generateAppId Ref.auth_token kStretch_nopassword [] sd []
               Ref.boot).
  assert (o = Returns (true, (default (false, []) (result_of o)).2)
                (Ref.world_of o) (Ref.trace_of o)) as E
    by (apply Ref_returns_eta; vm_compute; reflexivity).
  apply (retrieveKey_short_ciphertext_throws (H := Ref.platform)
           1 Ref.dir0 Ref.auth_token [] w sd kStretch_nopassword []
           (default (false, []) (result_of o)).2 (Ref.trace_of o)
           (lit "short")).
  - vm_compute. reflexivity.
  - vm_compute. reflexivity.
  - vm_compute. reflexivity.
  - apply option_eta. vm_compute. reflexivity.
  - vm_compute. reflexivity.
  - vm_compute. reflexivity.
  - exact (generateAppId_stateless _ _ _ _ _ _ _ _ _ E w).
  - vm_compute. reflexivity.
  - vm_compute. lia.
Defined.

Lemma retrieveKey_success_requires_witness :
  let w := Ref.stored Ref.auth_token_secret in
  ReadFileToString (path Ref.dir0 kFn_version) (w_fs w) = Some kCurrentVersion
  ∧ ∃ secdiscardable stretching ct,
      ReadFileToString (path Ref.dir0 kFn_secdiscardable) (w_fs w)
      = Some secdiscardable
      ∧ ReadFileToString (path Ref.dir0 kFn_stretching) (w_fs w)
        = Some stretching
      ∧ (stretchingNeedsSalt stretching = true →
         is_Some (ReadFileToString (path Ref.dir0 kFn_salt) (w_fs w)))
      ∧ ReadFileToString (path Ref.dir0 kFn_encrypted_key) (w_fs w) = Some ct
      ∧ if usesKeymaster Ref.auth_token_secret
        then Keymaster_bool (w_km w) = true ∧ GCM_NONCE_BYTES ≤ length ct
        else GCM_NONCE_BYTES + GCM_MAC_BYTES ≤ length ct.
Proof.
  intros w.
  apply (retrieveKey_success_requires (H := Ref.platform)
           1 Ref.dir0 Ref.auth_token_secret [] w Ref.key0
           (Ref.world_of (retrieveKey 1 Ref.dir0 Ref.auth_token_secret [] w))
           (Ref.trace_of (retrieveKey 1 Ref.dir0 Ref.auth_token_secret [] w))).
  apply Ref_returns_eta. vm_compute. reflexivity.
Defined.

Lemma storeKey_confined_witness :
  Forall (confined Ref.dir0)
    (Ref.trace_of
       (storeKey 1 Ref.dir0 Ref.auth_token_secret Ref.key0 Ref.boot)).
Proof.
  apply (storeKey_confined (H := Ref.platform)
           1 Ref.dir0 Ref.auth_token_secret Ref.key0 Ref.boot true
           (Ref.stored Ref.auth_token_secret)).
  apply Ref_returns_eta. vm_compute. reflexivity.
Defined.

Lemma retrieveKey_reach_witness :
  let tr :=
    Ref.trace_of
      (retrieveKey 3 Ref.dir0 Ref.auth_token []
         (Ref.stored Ref.auth_token)) in
  Forall (confined Ref.dir0) tr
  ∧ Forall (λ e, match e with
                 | E_WriteStringToFile _ f _ =>
                     f = path Ref.dir0 kFn_keymaster_key_blob_upgraded
                 | E_mkdir _ _ | E_ForkExecvp _ _ | E_ReadRandomBytes _ _
                 | E_property_get _ => False
                 | _ => True
                 end) tr.
Proof.
  cbv zeta.
  apply (retrieveKey_reach (H := Ref.platform)
           3 Ref.dir0 Ref.auth_token [] (Ref.stored Ref.auth_token)
           (true, Ref.key0)
           (Ref.world_of
              (retrieveKey 3 Ref.dir0 Ref.auth_token []
                 (Ref.stored Ref.auth_token)))
           (Ref.trace_of
              (retrieveKey 3 Ref.dir0 Ref.auth_token []
                 (Ref.stored Ref.auth_token)))).
  apply Ref_returns_eta. vm_compute. reflexivity.
Defined.


Lemma storeKey_commits_last_witness :
  let tr :=
    Ref.trace_of (storeKey 1 Ref.dir0 Ref.auth_secret Ref.key0 Ref.boot) in
  (writes_at (path Ref.dir0 kFn_encrypted_key) tr = [] ∧ true = false)
  ∨ ∃ ct,
      writes_at (path Ref.dir0 kFn_encrypted_key) tr = [(ct, true)]
      ∧ [E_WriteStringToFile ct (path Ref.dir0 kFn_encrypted_key) true]
        `suffix_of` tr.
Proof.
  cbv zeta.
  apply (storeKey_commits_last (H := Ref.platform)
           1 Ref.dir0 Ref.auth_secret Ref.key0 Ref.boot true
           (Ref.stored Ref.auth_secret)
           (Ref.trace_of
              (storeKey 1 Ref.dir0 Ref.auth_secret Ref.key0 Ref.boot))).
  apply Ref_returns_eta. vm_compute. reflexivity.
Defined.

Lemma software_cipher_round_trip_witness :
  let o := encryptWithoutKeymaster Ref.appId0 Ref.key0 [] Ref.boot in
  let ct := (default (false, []) (result_of o)).2 in
  w_fs (Ref.world_of o) = w_fs Ref.boot
  ∧ w_km (Ref.world_of o) = w_km Ref.boot
  ∧ ∀ out v, ∃ v' tr',
      decryptWithoutKeymaster Ref.appId0 ct out v
      = Returns (true, Ref.key0) v' tr'.
Proof.
  intros o ct.
  apply (software_cipher_round_trip (H := Ref.platform)
           Ref_random_length Ref_ctx_new_succeeds Ref_evp_seals
           Ref.appId0 Ref.key0 [] Ref.boot ct (Ref.world_of o)
           (Ref.trace_of o)).
  apply Ref_returns_eta. vm_compute. reflexivity.
Defined.

Lemma keymaster_cipher_round_trip_witness :
  let o :=
    encryptWithKeymasterKey 3 Ref.dir0 Ref.params0 Ref.key0 [] Ref.outdated in
  let ct := (default (false, []) (result_of o)).2 in
  Keymaster_bool (w_km (Ref.world_of o)) = true
  ∧ ∀ fuel' out, 0 < fuel' →
      ∃ v' tr',
        decryptWithKeymasterKey fuel' Ref.dir0 Ref.params0 ct out
          (Ref.world_of o)
        = Returns (true, Ref.key0) v' tr'.
Proof.
  intros o ct.
  apply (keymaster_cipher_round_trip (H := Ref.platform)
           Ref_write_read Ref_write_other Ref_rename_moves
           Ref_default_operation_invalid Ref_keymaster_seals
           3 Ref.dir0 Ref.params0 Ref.key0 [] Ref.outdated ct
           (Ref.world_of o) (Ref.trace_of o)).
  - vm_compute. reflexivity.
  - vm_compute. reflexivity.
  - apply Ref_returns_eta. vm_compute. reflexivity.
Defined.

Lemma begin_leaves_blob_in_use_witness :
  let o := begin 3 Ref.dir0 ENCRYPT Ref.params0 [] None Ref.outdated in
  let r := default (KeymasterOperation_default, None) (result_of o) in
  (∃ kmKey o0 s,
     ReadFileToString (path Ref.dir0 kFn_keymaster_key_blob)
       (w_fs (Ref.world_of o)) = Some kmKey
     ∧ Keymaster_begin ENCRYPT kmKey (Ref.params0 ++ []) o0 s
       = (r.1, r.2, w_km (Ref.world_of o)))
  ∧ ∀ g, g ≠ path Ref.dir0 kFn_keymaster_key_blob →
         g ≠ path Ref.dir0 kFn_keymaster_key_blob_upgraded →
         ReadFileToString g (w_fs (Ref.world_of o))
         = ReadFileToString g (w_fs Ref.outdated).
Proof.
  intros o r.
  apply (begin_leaves_blob_in_use (H := Ref.platform)
           Ref_write_read Ref_write_other Ref_rename_moves
           Ref_default_operation_invalid
           3 Ref.dir0 ENCRYPT Ref.params0 [] None Ref.outdated r.1 r.2
           (Ref.world_of o) (Ref.trace_of o)).
  - vm_compute. reflexivity.
  - apply Ref_returns_eta. vm_compute. reflexivity.
  - vm_compute. reflexivity.
Defined.

Lemma begin_reads_blob_once_witness :
  let o := begin 3 Ref.dir0 ENCRYPT Ref.params0 [] None Ref.outdated in
  ∃ t,
    Ref.trace_of o
    = E_ReadFileToString (path Ref.dir0 kFn_keymaster_key_blob)
        (ReadFileToString (path Ref.dir0 kFn_keymaster_key_blob)
           (w_fs Ref.outdated)) :: t
    ∧ Forall (λ e, ∀ f c, e ≠ E_ReadFileToString f c) t.
Proof.
  intros o.
  apply (begin_reads_blob_once (H := Ref.platform)
           3 Ref.dir0 ENCRYPT Ref.params0 [] None Ref.outdated
           (default (KeymasterOperation_default, None) (result_of o))
           (Ref.world_of o)).
  apply Ref_returns_eta. vm_compute. reflexivity.
Defined.

Lemma generateAppId_function_witness :
  let o :=
    generateAppId Ref.auth_token_secret (lit "scrypt 15:3:1") (lit "salt")
      (lit "secdiscardable") [] Ref.boot in
  Ref.world_of o = Ref.boot
  ∧ ∀ auth' v,
      secret auth' = secret Ref.auth_token_secret →
      generateAppId auth' (lit "scrypt 15:3:1") (lit "salt")
        (lit "secdiscardable") [] v
      = Returns (default (false, []) (result_of o)) v (Ref.trace_of o).
Proof.
  intros o.
  apply (generateAppId_function (H := Ref.platform)
           Ref.auth_token_secret (lit "scrypt 15:3:1") (lit "salt")
           (lit "secdiscardable") [] Ref.boot).
  apply Ref_returns_eta. vm_compute. reflexivity.
Defined.

Lemma keymaster_parameters_agree_witness :
  let auth := Ref.auth_token in
  let appId := Ref.appId0 in
  let o := generateKeymasterKey auth appId Ref.boot in
  let r := default None (result_of o) in
  GetTagValue TAG_APPLICATION_ID (beginParams auth appId) = Some appId
  ∧ GetTagValue TAG_AUTH_TOKEN (beginParams auth appId)
    = (if bool_decide (token auth = []) then None else Some (token auth))
  ∧ GetTagValue TAG_NONCE (beginParams auth appId) = None
  ∧ length (Ref.trace_of o) ≤ 1
  ∧ Forall (λ e, ∃ params,
              e = E_Keymaster (Km_generateKey params r)
              ∧ GetTagValue TAG_APPLICATION_ID params = Some appId
              ∧ (TAG_NO_AUTH_REQUIRED ∈ params.*1 ↔ token auth = [])
              ∧ (TAG_USER_SECURE_ID ∈ params.*1 ↔ token auth ≠ []))
           (Ref.trace_of o)
  ∧ (token auth ≠ [] → length (token auth) ≠ sizeof_hw_auth_token_t →
     r = None ∧ Ref.trace_of o = [] ∧ Ref.world_of o = Ref.boot).
Proof.
  cbv zeta.
  apply (keymaster_parameters_agree (H := Ref.platform)
           Ref.auth_token Ref.appId0 Ref.boot).
  apply Ref_returns_eta. vm_compute. reflexivity.
Defined.

Lemma storeKey_without_keymaster_witness :
  ∃ r w' tr,
    (∀ fuel,
       storeKey fuel Ref.dir0 Ref.auth_secret Ref.key0 Ref.boot
       = Returns r w' tr)
    ∧ w_km w' = w_km Ref.boot
    ∧ (∀ payload ok,
         (payload, ok) ∈ writes_at (path Ref.dir0 kFn_stretching) tr →
         payload = kStretch_none)
    ∧ writes_at (path Ref.dir0 kFn_keymaster_key_blob) tr = []
    ∧ writes_at (path Ref.dir0 kFn_salt) tr = [].
Proof.
  apply (storeKey_without_keymaster (H := Ref.platform)).
  vm_compute. reflexivity.
Defined.

Lemma storeKey_written_sizes_witness :
  let tr :=
    Ref.trace_of
      (storeKey 1 Ref.dir0 Ref.auth_token_secret Ref.key0 Ref.boot) in
  writes_at (path Ref.dir0 kFn_version) tr = [(kCurrentVersion, true)]
  ∧ (∃ secdiscardable,
       writes_at (path Ref.dir0 kFn_secdiscardable) tr
       = [(secdiscardable, true)]
       ∧ length secdiscardable = SECDISCARDABLE_BYTES)
  ∧ ∃ salts,
      writes_at (path Ref.dir0 kFn_salt) tr = salts
      ∧ length salts ≤ 1
      ∧ Forall (λ p, length p.1 = SALT_BYTES ∧ p.2 = true) salts.
Proof.
  cbv zeta.
  apply (storeKey_written_sizes (H := Ref.platform)
           1 Ref.dir0 Ref.auth_token_secret Ref.key0 Ref.boot
           (Ref.stored Ref.auth_token_secret)
           (Ref.trace_of
              (storeKey 1 Ref.dir0 Ref.auth_token_secret Ref.key0 Ref.boot))
           Ref_random_length).
  apply Ref_returns_eta. vm_compute. reflexivity.
Defined.


End FurtherExamples.
